(** * Bounded concurrent batch crawler: model and properties

    A shallow embedding of [multi_url.py]: the memory tracker, the batch
    loop of [crawl_parallel] with its try/finally, the summary report, the
    sitemap reader and [main]; and of the script of [single_url.py].
    External collaborators (the crawl engine, the file system, the process
    sampler, the HTTP client and the XML parser) are oracles gathered in
    records; every call on them is recorded in a trace of events. *)

From stdpp Require Import base list strings pretty numbers sorting.

Open Scope Z_scope.

(** * Python values used by the program *)

(** The classes of exception objects the program tells apart, by
    [isinstance(_, Exception)], [except Exception] and [except
    KeyboardInterrupt]: the [Exception]s, the [KeyboardInterrupt]s, and the
    [BaseException]s that are neither, such as [asyncio.CancelledError] and
    [SystemExit]. *)
Inductive ExnClass :=
| ExceptionClass
| KeyboardInterruptClass
| BaseExceptionOnly.

(** An exception object: its class, [type(e).__name__] and [str(e)]. *)
Record Exn := newExn { exn_class : ExnClass; type_name : string; message : string }.

(** An [Exception] with the given type name and text. *)
Definition mkExn (type_name message : string) : Exn :=
  newExn ExceptionClass type_name message.

(** [isinstance(e, Exception)]; also whether [except Exception] catches [e]. *)
Definition is_Exception (e : Exn) : bool :=
  match exn_class e with
  | ExceptionClass => true
  | _ => false
  end.

(** The result of a Python call that may raise. *)
Inductive Res (A : Type) :=
| Ok (a : A)
| Raise (e : Exn).
Arguments Ok {A} a.
Arguments Raise {A} e.

Module Py.

(** [f"{n}"] for an [int]. *)
Definition str (n : Z) : string := pretty n.

(** [len(l)] as a Python [int]. *)
Definition len {A} (l : list A) : Z := Z.of_nat (length l).

(** Number of elements of [range(lo, hi, step)] for [step <> 0]. *)
Definition range_length (lo hi step : Z) : Z :=
  if 0 <? step then
    (if lo <? hi then 1 + (hi - 1 - lo) / step else 0)
  else
    (if hi <? lo then 1 + (lo - 1 - hi) / (- step) else 0).

(** [range(lo, hi, step)], which raises [ValueError] for [step = 0]. *)
Definition range (lo hi step : Z) : Res (list Z) :=
  if step =? 0 then
    Raise (mkExn "ValueError" "range() arg 3 must not be zero")
  else
    Ok ((λ k, lo + k * step) <$> seqZ 0 (range_length lo hi step)).

(** Index adjustment of a slice bound ([PySlice_AdjustIndices], step 1). *)
Definition clamp (n k : Z) : Z :=
  if k <? 0 then Z.max 0 (k + n) else Z.min k n.

(** [l[i:j]]. *)
Definition slice {A} (l : list A) (i j : Z) : list A :=
  let a := clamp (len l) i in
  let b := clamp (len l) j in
  take (Z.to_nat (b - a)) (drop (Z.to_nat a) l).

(** [enumerate(l, start)]. *)
Definition enumerate {A} (start : Z) (l : list A) : list (Z * A) :=
  imap (λ k x, (start + Z.of_nat k, x)) l.

(** [sep.join(l)]. *)
Definition join (sep : string) (l : list string) : string :=
  String.concat sep l.

End Py.

(** * Batching: [range(0, len(urls), max_concurrent)] and the slices *)

(** The start indices the [for] loop of [crawl_parallel] iterates over. *)
Definition batch_starts {A} (urls : list A) (max_concurrent : Z) : Res (list Z) :=
  Py.range 0 (Py.len urls) max_concurrent.

(** [batch = urls[i : i + max_concurrent]]. *)
Definition batch_at {A} (urls : list A) (max_concurrent i : Z) : list A :=
  Py.slice urls i (i + max_concurrent).

(** The batch total written in the log prefix:
    [(len(urls) + max_concurrent - 1) // max_concurrent]. *)
Definition batch_total {A} (urls : list A) (max_concurrent : Z) : Z :=
  (Py.len urls + max_concurrent - 1) / max_concurrent.

(** The batches of a run, in loop order. *)
Definition batches {A} (urls : list A) (max_concurrent : Z) : Res (list (list A)) :=
  match batch_starts urls max_concurrent with
  | Ok starts => Ok (batch_at urls max_concurrent <$> starts)
  | Raise e => Raise e
  end.


(** The chunks of size [c] of a list, by index: the closed form of
    [batches] for a positive limit. *)
Definition chunks {A} (c n : nat) (urls : list A) : list (list A) :=
  (λ k, take c (drop (k * c) urls)) <$> seq 0 n.

(** * Collaborators *)

(** crawl4ai's [CrawlResult], as far as the program reads it. *)
Record CrawlResult := mkResult { success : bool; markdown : option string }.

(** Truth value of [result.markdown]: [None] and the empty string are false. *)
Definition truthy (m : option string) : option string :=
  match m with
  | Some md => if decide (md = "") then None else Some md
  | None => None
  end.

(** What [asyncio.gather(..., return_exceptions=True)] stores for one task:
    the exception object it ended with, of whatever class, or the value it
    returned.  [gather] stores an [asyncio.CancelledError], which is not an
    [Exception], like any other exception.  A task that raises
    [KeyboardInterrupt] or [SystemExit] stops the event loop before [gather]
    has a result; that is not a result of [gather] and not part of the
    model. *)
Inductive Outcome :=
| Raised (e : Exn)
| Returned (r : CrawlResult).

(** One reading of the process: [memory_info().rss], [cpu_percent()] (only
    ever formatted, so kept as its text) and [datetime.now()]. *)
Record ProcSample := mkSample { rss : Z; cpu : string; now : Z }.

(** The oracles of one run. *)
Record World := mkWorld {
  engine_start : option Exn;                  (* crawler.start() *)
  engine_arun : string → string → Outcome;    (* crawler.arun(url, session_id) *)
  engine_finish : string → nat;               (* when the task of a session ends *)
  engine_close : option Exn;                  (* crawler.close() *)
  fs_write : string → string → option Exn;    (* Path.write_text *)
  proc_created : Z;                           (* datetime.now() in __init__ *)
  proc_sample : nat → ProcSample;             (* the k-th reading *)
  str_timedelta : Z → string                  (* str(timedelta) *)
}.

Inductive Level := INFO | WARNING | ERROR.

(** Calls on the collaborators, in the order they happen. *)
Inductive Event :=
| EvLog (lvl : Level) (msg : string)
| EvStart
| EvArun (url session_id : string)
| EvDone (session_id : string)
| EvClose
| EvWrite (name content : string).

(** * Program state *)

Record MemoryTracker := mkTracker { peak_memory : Z; start_time : Z }.

(** The dict returned by [log_memory]. *)
Record MemStats := mkMemStats {
  current_mb : Z;
  peak_mb : Z;
  cpu_percent : string;
  elapsed_time : string
}.

(** The [stats] dict; [errors] keeps Python's insertion order. *)
Record Stats := mkStats {
  success_count : Z;
  fail_count : Z;
  errors : list (string * Z);
  memory_stats : list MemStats
}.

Record State := mkState {
  memory_tracker : MemoryTracker;
  readings : nat;
  stats : Stats;
  trace : list Event
}.

(** [d.get(k, default)]. *)
Fixpoint dict_get (k : string) (d : list (string * Z)) (default : Z) : Z :=
  match d with
  | [] => default
  | (k', v) :: d' => if decide (k = k') then v else dict_get k d' default
  end.

(** [d[k] = v]: in place for a present key, appended for a new one. *)
Fixpoint dict_set (k : string) (v : Z) (d : list (string * Z)) : list (string * Z) :=
  match d with
  | [] => [(k, v)]
  | (k', v') :: d' =>
      if decide (k = k') then (k, v) :: d' else (k', v') :: dict_set k v d'
  end.

(** Sum of the histogram's counts. *)
Definition dict_total (d : list (string * Z)) : Z := foldr (λ kv acc, kv.2 + acc) 0 d.

Definition stats_init : Stats :=
  {| success_count := 0; fail_count := 0; errors := []; memory_stats := [] |}.

(** [stats["errors"][error_type] = stats["errors"].get(error_type, 0) + 1]. *)
Definition count_error (error_type : string) (st : Stats) : Stats :=
  {| success_count := success_count st;
     fail_count := fail_count st;
     errors := dict_set error_type (dict_get error_type (errors st) 0 + 1) (errors st);
     memory_stats := memory_stats st |}.

(** [stats["fail_count"] += 1]. *)
Definition incr_fail (st : Stats) : Stats :=
  {| success_count := success_count st;
     fail_count := fail_count st + 1;
     errors := errors st;
     memory_stats := memory_stats st |}.

(** [stats["success_count"] += 1]. *)
Definition incr_success (st : Stats) : Stats :=
  {| success_count := success_count st + 1;
     fail_count := fail_count st;
     errors := errors st;
     memory_stats := memory_stats st |}.

(** [stats["memory_stats"].append(m)]. *)
Definition append_memory (m : MemStats) (st : Stats) : Stats :=
  {| success_count := success_count st;
     fail_count := fail_count st;
     errors := errors st;
     memory_stats := memory_stats st ++ [m] |}.

(** * A state and exception monad for the coroutine bodies *)

Definition M (A : Type) : Type := State → Res A * State.

#[global] Instance M_ret : MRet M := λ A a s, (Ok a, s).

#[global] Instance M_bind : MBind M := λ A B f m s,
  match m s with
  | (Ok a, s') => f a s'
  | (Raise e, s') => (Raise e, s')
  end.

Definition raise {A} (e : Exn) : M A := λ s, (Raise e, s).

(** Appending events to the trace of a state. *)
Definition add_trace (t : list Event) (s : State) : State :=
  {| memory_tracker := memory_tracker s; readings := readings s;
     stats := stats s; trace := trace s ++ t |}.

(** Changing the [stats] dict of a state. *)
Definition update_stats (f : Stats → Stats) (s : State) : State :=
  {| memory_tracker := memory_tracker s; readings := readings s;
     stats := f (stats s); trace := trace s |}.

Definition emit (ev : Event) : M unit := λ s, (Ok tt, add_trace [ev] s).

Definition log (lvl : Level) (msg : string) : M unit := emit (EvLog lvl msg).

Definition get_stats : M Stats := λ s, (Ok (stats s), s).

Definition modify_stats (f : Stats → Stats) : M unit := λ s, (Ok tt, update_stats f s).

(** A call that raises when the oracle says so. *)
Definition lift_call (o : option Exn) : M unit :=
  match o with
  | Some e => raise e
  | None => mret tt
  end.

Definition lift_res {A} (r : Res A) : M A :=
  match r with
  | Ok a => mret a
  | Raise e => raise e
  end.

(** [for x in l: body(x)]. *)
Fixpoint for_each {A} (l : list A) (body : A → M unit) : M unit :=
  match l with
  | [] => mret tt
  | x :: l' => body x ;; for_each l' body
  end.

(** [try: body finally: fin].  [fin] always runs; when it raises, its
    exception replaces whatever [body] returned or raised. *)
Definition try_finally {A} (body : M A) (fin : M unit) : M A := λ s,
  let '(r, s1) := body s in
  match fin s1 with
  | (Ok _, s2) => (r, s2)
  | (Raise e, s2) => (Raise e, s2)
  end.

(** * MemoryTracker *)

Definition MiB : Z := 1024 * 1024.

(** [MemoryTracker.__init__]. *)
Definition MemoryTracker_init (w : World) : MemoryTracker :=
  {| peak_memory := 0; start_time := proc_created w |}.

(** The update of [self.peak_memory] in [log_memory]. *)
Definition update_peak (tr : MemoryTracker) (current_mem : Z) : MemoryTracker :=
  if peak_memory tr <? current_mem
  then {| peak_memory := current_mem; start_time := start_time tr |}
  else tr.

(** The line [log_memory] writes to the log. *)
Definition memory_line (prefix : string) (m : MemStats) : string :=
  prefix +:+ " Memory: " +:+ Py.str (current_mb m) +:+ "MB (Peak: "
  +:+ Py.str (peak_mb m) +:+ "MB) CPU: " +:+ cpu_percent m
  +:+ "% Time: " +:+ elapsed_time m.

(** [MemoryTracker.log_memory]. *)
Definition log_memory (w : World) (prefix : string) : M MemStats := λ s,
  let p := proc_sample w (readings s) in
  let current_mem := rss p in
  let tr := update_peak (memory_tracker s) current_mem in
  let m := {| current_mb := current_mem / MiB;
              peak_mb := peak_memory tr / MiB;
              cpu_percent := cpu p;
              elapsed_time := str_timedelta w (now p - start_time tr) |} in
  (Ok m,
   {| memory_tracker := tr; readings := S (readings s);
      stats := stats s; trace := trace s ++ [EvLog INFO (memory_line prefix m)] |}).

(** * crawl_parallel *)

(** [f"session_{batch_num}_{j}"]. *)
Definition session_id (batch_num j : Z) : string :=
  "session_" +:+ Py.str batch_num +:+ "_" +:+ Py.str j.

(** The tasks of a batch: url and session id, in list order. *)
Definition batch_tasks (batch_num : Z) (batch : list string) : list (string * string) :=
  (λ '(j, url), (url, session_id batch_num j)) <$> Py.enumerate 0 batch.

(** When the k-th task of a batch ends, as the engine decides. *)
Definition finish_time (w : World) (tasks : list (string * string)) (k : nat) : nat :=
  from_option (engine_finish w ∘ snd) 0%nat (tasks !! k).

Definition ends_before (w : World) (tasks : list (string * string)) : relation nat :=
  λ a b, (finish_time w tasks a ≤ finish_time w tasks b)%nat.

#[global] Instance ends_before_dec w tasks : RelDecision (ends_before w tasks) :=
  λ a b, decide (finish_time w tasks a ≤ finish_time w tasks b)%nat.

(** The order in which the tasks of a batch end: their positions, sorted
    by finish time. *)
Definition completion_order (w : World) (tasks : list (string * string)) : list nat :=
  merge_sort (ends_before w tasks) (seq 0 (length tasks)).

(** The task that ends stores its outcome in the slot of its own position. *)
Definition store (w : World) (tasks : list (string * string))
    (slots : list (option Outcome)) (k : nat) : list (option Outcome) :=
  match tasks !! k with
  | Some (url, sid) => <[k := Some (engine_arun w url sid)]> slots
  | None => slots
  end.

(** The result list of [gather] once the tasks have ended in [order]. *)
Definition gather_slots (w : World) (tasks : list (string * string))
    (order : list nat) : list (option Outcome) :=
  foldl (store w tasks) (replicate (length tasks) None) order.

(** [await asyncio.gather] over the tasks with [return_exceptions=True]:
    every task is started, they end in any order, an exception is stored
    like a value and the results come back in the order of the tasks.  The
    coroutine objects are made by [crawler.arun(...)] before the snapshot of
    the batch, but the engine only runs them once they are awaited here, so
    this is where the [EvArun] events are. *)
Definition gather (w : World) (tasks : list (string * string)) : M (list Outcome) :=
  for_each tasks (λ '(url, sid), emit (EvArun url sid)) ;;
  let order := completion_order w tasks in
  for_each order (λ k,
    match tasks !! k with
    | Some (_, sid) => emit (EvDone sid)
    | None => mret tt
    end) ;;
  mret (omap id (gather_slots w tasks order)).

(** [Path.write_text]. *)
Definition write_text (w : World) (name content : string) : M unit :=
  emit (EvWrite name content) ;;
  lift_call (fs_write w name content).

(** What [result.success] raises for an exception object, which has no such
    attribute. *)
Definition no_success_attribute (e : Exn) : Exn :=
  mkExn "AttributeError"
        ("'" +:+ type_name e +:+ "' object has no attribute 'success'").

(** The body of [for url, result in zip(batch, results)].  For an exception
    object that is not an [Exception], [isinstance(result, Exception)] is
    false and the [elif] reads [result.success], which raises. *)
Definition record_result (w : World) (url : string) (result : Outcome) : M unit :=
  match result with
  | Raised e =>
      if is_Exception e then
        modify_stats (count_error (type_name e)) ;;
        modify_stats incr_fail ;;
        log ERROR ("Error crawling " +:+ url +:+ ": " +:+ message e)
      else raise (no_success_attribute e)
  | Returned r =>
      if success r then
        modify_stats incr_success ;;
        match truthy (markdown r) with
        | Some md =>
            st ← get_stats ;
            write_text w ("page_" +:+ Py.str (success_count st) +:+ ".md") md
        | None => mret tt
        end
      else
        modify_stats incr_fail ;;
        log WARNING ("Failed to crawl " +:+ url +:+ ": No content retrieved")
  end.

(** The progress line after a batch. *)
Definition log_progress (urls : list string) : M unit :=
  st ← get_stats ;
  let total := success_count st + fail_count st in
  log INFO ("Progress: " +:+ Py.str total +:+ "/" +:+ Py.str (Py.len urls)
            +:+ " URLs processed (" +:+ Py.str (success_count st)
            +:+ " successful, " +:+ Py.str (fail_count st) +:+ " failed)").

(** Awaiting the tasks of a batch and recording their results. *)
Definition collect_batch (w : World) (batch : list string)
    (tasks : list (string * string)) : M unit :=
  results ← gather w tasks ;
  for_each (zip batch results) (λ '(url, result), record_result w url result).

(** [m = memory_tracker.log_memory(prefix)] followed by
    [stats["memory_stats"].append(m)]. *)
Definition take_snapshot (w : World) (prefix : string) : M MemStats :=
  m ← log_memory w prefix ;
  modify_stats (append_memory m) ;;
  mret m.

(** [f"Batch {batch_num}/{total}"]. *)
Definition batch_label (urls : list string) (max_concurrent batch_num : Z) : string :=
  "Batch " +:+ Py.str batch_num +:+ "/" +:+ Py.str (batch_total urls max_concurrent).

(** One iteration of the batch loop, once [batch] is cut out. *)
Definition batch_step (w : World) (urls : list string) (max_concurrent : Z)
    (batch_num : Z) (batch : list string) : M unit :=
  let tasks := batch_tasks batch_num batch in
  take_snapshot w (batch_label urls max_concurrent batch_num) ;;
  collect_batch w batch tasks ;;
  log_progress urls.

(** One iteration of the batch loop. *)
Definition batch_body (w : World) (urls : list string) (max_concurrent : Z)
    (batch_num i : Z) : M unit :=
  batch_step w urls max_concurrent batch_num (batch_at urls max_concurrent i).

(** The body of the [try]. *)
Definition batch_loop (w : World) (urls : list string) (max_concurrent : Z) : M unit :=
  starts ← lift_res (batch_starts urls max_concurrent) ;
  for_each (Py.enumerate 1 starts)
           (λ '(batch_num, i), batch_body w urls max_concurrent batch_num i).

(** The newline character of the f-strings. *)
Definition nl : string := Eval cbv in String (Ascii.ascii_of_nat 10) "".

(** The summary report. *)
Definition summary (urls : list string) (st : Stats) (final_stats : MemStats) : string :=
  "Crawling Summary" +:+ nl
  +:+ "================" +:+ nl
  +:+ "Total URLs: " +:+ Py.str (Py.len urls) +:+ nl
  +:+ "Successful: " +:+ Py.str (success_count st) +:+ nl
  +:+ "Failed: " +:+ Py.str (fail_count st) +:+ nl
  +:+ "Error types:" +:+ nl
  +:+ Py.join nl ((λ '(k, v), "- " +:+ k +:+ ": " +:+ Py.str v) <$> errors st)
  +:+ nl +:+ nl +:+ "Peak memory usage: " +:+ Py.str (peak_mb final_stats) +:+ "MB" +:+ nl
  +:+ "Total time: " +:+ elapsed_time final_stats +:+ nl.

(** The [finally] block. *)
Definition finalize (w : World) (urls : list string) : M unit :=
  log INFO "Closing crawler..." ;;
  emit EvClose ;;
  lift_call (engine_close w) ;;
  final_stats ← take_snapshot w "Final stats" ;
  st ← get_stats ;
  write_text w "summary.txt" (summary urls st final_stats).

(** [crawl_parallel]: the start of the crawler is outside the [try], the
    batch loop inside it, and [return stats] after the [finally]. *)
Definition crawl_parallel (w : World) (urls : list string) (max_concurrent : Z) : M Stats :=
  log INFO ("Starting parallel crawl of " +:+ Py.str (Py.len urls)
            +:+ " URLs with max_concurrent=" +:+ Py.str max_concurrent) ;;
  emit EvStart ;;
  lift_call (engine_start w) ;;
  try_finally (batch_loop w urls max_concurrent) (finalize w urls) ;;
  get_stats.

(** The state in which the body starts: a fresh tracker and fresh stats. *)
Definition initial_state (w : World) : State :=
  {| memory_tracker := MemoryTracker_init w; readings := 0;
     stats := stats_init; trace := [] |}.

(** A whole call: what the caller gets and the final state. *)
Definition run_crawl_parallel (w : World) (urls : list string) (max_concurrent : Z)
    : Res Stats * State :=
  crawl_parallel w urls max_concurrent (initial_state w).

(** * get_sitemap_urls *)

(** An [xml.etree.ElementTree.Element]: its tag in the form
    [{namespace}local], its text and its children in document order. *)
#[warnings="-register-all"] Inductive Element :=
| Elem (tag : string) (text : option string) (children : list Element).

Definition tag (e : Element) : string := let 'Elem t _ _ := e in t.
Definition text (e : Element) : option string := let 'Elem _ x _ := e in x.
Definition children (e : Element) : list Element := let 'Elem _ _ cs := e in cs.

(** [Element.iter()]: the element and its descendants, in document order. *)
Fixpoint iter (e : Element) : list Element :=
  match e with
  | Elem _ _ cs => e :: flat_map iter cs
  end.

(** [root.findall(".//prefix:name", namespace)]: the descendants of [root]
    (not [root] itself) that carry the qualified tag. *)
Definition findall_descendants (root : Element) (qtag : string) : list Element :=
  filter (λ e, tag e = qtag) (flat_map iter (children root)).

Definition sitemap_ns : string := "http://www.sitemaps.org/schemas/sitemap/0.9".

(** The expanded name ElementTree gives [ns:name]. *)
Definition qname (name : string) : string := "{" +:+ sitemap_ns +:+ "}" +:+ name.

(** The three [except] clauses tell exceptions apart by class.  What the
    network and the parser raise is sorted here by the clause that catches
    it, so all of it is an [Exception]: a cancellation or an interrupt
    during the download, which no clause catches, is not part of the
    model. *)
Inductive SitemapExn :=
| ClientError (e : Exn)        (* aiohttp.ClientError *)
| ParseError (e : Exn)         (* ElementTree.ParseError *)
| OtherException (e : Exn).    (* any other Exception *)

(** The network and the XML parser. *)
Record Web := mkWeb {
  (* session.get, raise_for_status and response.text() *)
  http_get_text : string → SitemapExn + string;
  (* ElementTree.fromstring *)
  fromstring : string → SitemapExn + Element
}.

(** The [try] block of [get_sitemap_urls]. *)
Definition sitemap_try (web : Web) (sitemap_url : string)
    : SitemapExn + list (option string) :=
  match http_get_text web sitemap_url with
  | inl e => inl e
  | inr content =>
      match fromstring web content with
      | inl e => inl e
      | inr root => inr (text <$> findall_descendants root (qname "loc"))
      end
  end.

(** [get_sitemap_urls]: the log lines it writes and the list it returns. *)
Definition get_sitemap_urls (web : Web) (sitemap_url : string)
    : list Event * list (option string) :=
  match sitemap_try web sitemap_url with
  | inr urls =>
      ([EvLog INFO ("Found " +:+ Py.str (Py.len urls) +:+ " URLs in sitemap")], urls)
  | inl (ClientError e) =>
      ([EvLog ERROR ("Network error fetching sitemap: " +:+ message e)], [])
  | inl (ParseError e) =>
      ([EvLog ERROR ("XML parsing error: " +:+ message e)], [])
  | inl (OtherException e) =>
      ([EvLog ERROR ("Unexpected error: " +:+ message e)], [])
  end.

(** * Observations on traces and outcomes *)

(** A property of the state that a computation keeps, however it ends. *)
Definition invariant {A} (I : State → Prop) (m : M A) : Prop :=
  ∀ s, I s → I (m s).2.

(** Updates of [stats] that leave the snapshots alone. *)
Definition keeps_memory (f : Stats → Stats) : Prop :=
  ∀ st, memory_stats (f st) = memory_stats st.

(** The peak of the snapshots never goes down along the list. *)
Definition peak_monotone (l : list MemStats) : Prop :=
  ∀ i j mi mj, (i ≤ j)%nat → l !! i = Some mi → l !! j = Some mj →
               peak_mb mi ≤ peak_mb mj.

(** What the tracker guarantees about the snapshots recorded so far. *)
Definition snapshots_ok (s : State) : Prop :=
  peak_monotone (memory_stats (stats s))
  ∧ Forall (λ m, current_mb m ≤ peak_mb m
                 ∧ peak_mb m ≤ peak_memory (memory_tracker s) / MiB)
           (memory_stats (stats s)).

(** What the engine answers for a task. *)
Definition task_outcome (w : World) (t : string * string) : Outcome :=
  engine_arun w t.1 t.2.

(** The events of [gather]: every task is started in list order, the
    completions come in the order the engine decides. *)
Definition gather_events (w : World) (tasks : list (string * string)) : list Event :=
  ((λ t, EvArun t.1 t.2) <$> tasks)
  ++ omap (λ k, (λ t, EvDone t.2) <$> tasks !! k) (completion_order w tasks).

Definition is_close (ev : Event) : bool :=
  match ev with EvClose => true | _ => false end.

(** How often [crawler.close()] was called. *)
Definition close_calls (tr : list Event) : nat := length (filter is_close tr).

(** The urls handed to [crawler.arun], in call order. *)
Definition dispatched (tr : list Event) : list string :=
  omap (λ ev, match ev with EvArun url _ => Some url | _ => None end) tr.

(** The calls of [write_text], in call order. *)
Definition writes (tr : list Event) : list (string * string) :=
  omap (λ ev, match ev with EvWrite n c => Some (n, c) | _ => None end) tr.

(** The [ERROR] lines of the log. *)
Definition error_lines (tr : list Event) : list string :=
  omap (λ ev, match ev with EvLog ERROR msg => Some msg | _ => None end) tr.

(** Does the result take the [elif result.success] branch? *)
Definition counts_as_success (o : Outcome) : bool :=
  match o with
  | Returned r => success r
  | Raised _ => false
  end.

(** Does the result take the [else] branch, "No content retrieved"? *)
Definition counts_as_no_content (o : Outcome) : bool :=
  match o with
  | Returned r => negb (success r)
  | Raised _ => false
  end.

Definition is_raised (o : Outcome) : bool :=
  match o with
  | Raised _ => true
  | Returned _ => false
  end.

(** Can the loop record the result?  Not an exception object that is not an
    [Exception]: it passes the [isinstance] test as if it were a crawl
    result. *)
Definition recordable (o : Outcome) : bool :=
  match o with
  | Raised e => is_Exception e
  | Returned _ => true
  end.

(** How many results of a list take the success branch. *)
Definition count_ok (outs : list Outcome) : Z :=
  Z.of_nat (length (filter (λ o, counts_as_success o = true) outs)).

(** How many results of a list take the "No content retrieved" branch. *)
Definition count_no_content (outs : list Outcome) : Z :=
  Z.of_nat (length (filter (λ o, counts_as_no_content o = true) outs)).

(** The histogram after the exceptions of a list of results are counted. *)
Definition histogram_from (d : list (string * Z)) (outs : list Outcome)
    : list (string * Z) :=
  foldl (λ d o, match o with
                | Raised e => dict_set (type_name e) (dict_get (type_name e) d 0 + 1) d
                | Returned _ => d
                end) d outs.

(** The pages saved for a list of results when [n] successes came before. *)
Fixpoint pages_from (n : Z) (outs : list Outcome) : list (string * string) :=
  match outs with
  | [] => []
  | Raised _ :: outs' => pages_from n outs'
  | Returned r :: outs' =>
      if success r then
        match truthy (markdown r) with
        | Some md => ("page_" +:+ Py.str (n + 1) +:+ ".md", md) :: pages_from (n + 1) outs'
        | None => pages_from (n + 1) outs'
        end
      else pages_from n outs'
  end.

(** The [ERROR] lines written for the exceptions among the results. *)
Definition failure_lines (items : list (string * Outcome)) : list string :=
  omap (λ '(url, o), match o with
                     | Raised e => Some ("Error crawling " +:+ url +:+ ": " +:+ message e)
                     | Returned _ => None
                     end) items.

(** From [s] to [s'] the urls [sent] were handed to the engine and the
    results [items] were recorded, and nothing else changed the counters,
    the histogram, the written files or the error lines. *)
Definition advances (sent : list string) (items : list (string * Outcome))
    (s s' : State) : Prop :=
  success_count (stats s') = success_count (stats s) + count_ok items.*2
  ∧ fail_count (stats s')
    = fail_count (stats s) + (Py.len items - count_ok items.*2)
  ∧ errors (stats s') = histogram_from (errors (stats s)) items.*2
  ∧ writes (trace s') = writes (trace s) ++ pages_from (success_count (stats s)) items.*2
  ∧ error_lines (trace s') = error_lines (trace s) ++ failure_lines items
  ∧ dispatched (trace s') = dispatched (trace s) ++ sent.

(** The tasks and results of every batch of a run, batch after batch. *)
Definition batch_items (w : World) (batch_num : Z) (batch : list string)
    : list (string * Outcome) :=
  zip batch (task_outcome w <$> batch_tasks batch_num batch).

(** The batches with the number [enumerate(..., 1)] gives them. *)
Definition numbered_batches (urls : list string) (max_concurrent : Z)
    : list (Z * list string) :=
  match batches urls max_concurrent with
  | Ok bs => Py.enumerate 1 bs
  | Raise _ => []
  end.

(** Every url of a run with its result, in the order they are recorded. *)
Definition run_items (w : World) (urls : list string) (max_concurrent : Z)
    : list (string * Outcome) :=
  concat ((λ '(num, batch), batch_items w num batch)
            <$> numbered_batches urls max_concurrent).

(** The two events every [finally] block starts with. *)
Definition closing : list Event := [EvLog INFO "Closing crawler..."; EvClose].

(** A world for examples: the first task of the first batch is the last of
    its batch to end, and the k-th reading shows [3 (k + 1)] million bytes. *)
Definition make_world (start : option Exn) (arun : string → string → Outcome)
    (close : option Exn) (write : string → string → option Exn) : World :=
  {| engine_start := start;
     engine_arun := arun;
     engine_finish := λ sid, if decide (sid = "session_1_0") then 2%nat else 1%nat;
     engine_close := close;
     fs_write := write;
     proc_created := 0;
     proc_sample := λ k, mkSample (Z.of_nat (S k) * 3000000) "0.0" (Z.of_nat k);
     str_timedelta := Py.str |}.

(** An engine for examples: ["bad"] raises, ["empty"] and ["blank"] come
    back successful without markdown, ["down"] comes back unsuccessful, any
    other url comes back successful with a page. *)
Definition demo_arun (url session_id : string) : Outcome :=
  if decide (url = "bad") then Raised (mkExn "TimeoutError" "timed out")
  else if decide (url = "empty") then Returned (mkResult true None)
  else if decide (url = "blank") then Returned (mkResult true (Some ""))
  else if decide (url = "down") then Returned (mkResult false None)
  else Returned (mkResult true (Some ("# " +:+ url))).

(** An engine for examples in which the task of ["gone"] is cancelled, so
    that [gather] stores an [asyncio.CancelledError] for it, which is not an
    [Exception]. *)
Definition cancelling_arun (url session_id : string) : Outcome :=
  if decide (url = "gone") then Raised (newExn BaseExceptionOnly "CancelledError" "")
  else demo_arun url session_id.

Definition no_write_fault : string → string → option Exn := λ _ _, None.

(** A disk that refuses the first page. *)
Definition page_1_fault (name content : string) : option Exn :=
  if decide (name = "page_1.md") then Some (mkExn "OSError" "disk full") else None.

(** The state once [crawler.start()] has returned. *)
Definition started_state (w : World) (urls : list string) (max_concurrent : Z) : State :=
  add_trace
    [EvLog INFO ("Starting parallel crawl of " +:+ Py.str (Py.len urls)
                 +:+ " URLs with max_concurrent=" +:+ Py.str max_concurrent);
     EvStart]
    (initial_state w).

(** The result of every url of a run, by its position [g] in the list: it
    is task [g mod c] of batch [g / c + 1]. *)
Definition item_outcomes (w : World) (c : nat) (urls : list string) : list Outcome :=
  imap (λ g url,
          engine_arun w url
            (session_id (Z.of_nat (g `div` c) + 1) (Z.of_nat (g `mod` c))))
       urls.

(** The page a result is saved as: numbered by the successes up to and
    including it. *)
Definition page_of (outs : list Outcome) (g : nat) (o : Outcome)
    : option (string * string) :=
  match o with
  | Returned r =>
      if success r then
        md ← truthy (markdown r) ;
        Some ("page_" +:+ Py.str (count_ok (take (S g) outs)) +:+ ".md", md)
      else None
  | Raised _ => None
  end.

(** How many results of a list are exceptions. *)
Definition count_raised (outs : list Outcome) : Z :=
  Z.of_nat (length (filter (λ o, is_raised o = true) outs)).

Definition page_writes (outs : list Outcome) : list (string * string) :=
  omap id (imap (page_of outs) outs).

(** The [loc] children of [url] elements under an element, in document
    order: the pages a sitemap declares. *)
Fixpoint url_locs (parent_is_url : bool) (e : Element) : list Element :=
  match e with
  | Elem t _ cs =>
      (if parent_is_url && bool_decide (t = qname "loc") then [e] else [])
      ++ flat_map (url_locs (bool_decide (t = qname "url"))) cs
  end.

(** The [loc] elements under an element whose parent is not a [url]
    element, in document order: in a sitemap index, the [loc] of every
    [sitemap] entry. *)
Fixpoint other_locs (parent_is_url : bool) (e : Element) : list Element :=
  match e with
  | Elem t _ cs =>
      (if negb parent_is_url && bool_decide (t = qname "loc") then [e] else [])
      ++ flat_map (other_locs (bool_decide (t = qname "url"))) cs
  end.

(** Those below the root. *)
Definition stray_locs (root : Element) : list Element :=
  flat_map (other_locs (bool_decide (tag root = qname "url"))) (children root).

(** A sitemap index for examples: two sitemaps and no page. *)
Definition demo_index : Element :=
  Elem (qname "sitemapindex") None
       [Elem (qname "sitemap") None
             [Elem (qname "loc") (Some "https://x.example/sitemap-1.xml") []];
        Elem (qname "sitemap") None
             [Elem (qname "loc") (Some "https://x.example/sitemap-2.xml") []]].

(** A sitemap for examples: three pages, one of them declared twice, each
    [url] with a [lastmod] next to its [loc]. *)
Definition demo_page (address : string) : Element :=
  Elem (qname "url") None
       [Elem (qname "loc") (Some address) [];
        Elem (qname "lastmod") (Some "2025-01-01") []].

Definition demo_sitemap : Element :=
  Elem (qname "urlset") None
       [demo_page "https://x.example/a"; demo_page "https://x.example/b";
        demo_page "https://x.example/a"].

(** A network for examples: the sitemap at ["/sitemap.xml"], a page that
    is not XML at ["/home"], a connection error anywhere else. *)
Definition demo_web : Web :=
  {| http_get_text := λ address,
       if decide (address = "/sitemap.xml") then inr "<urlset/>"
       else if decide (address = "/home") then inr "<html>"
       else inl (ClientError (mkExn "ClientConnectorError" "cannot connect"));
     fromstring := λ content,
       if decide (content = "<urlset/>") then inr demo_sitemap
       else inl (ParseError (mkExn "ParseError" "mismatched tag")) |}.

(** The line an [except] clause of [get_sitemap_urls] logs. *)
Definition sitemap_error_line (exn : SitemapExn) : string :=
  match exn with
  | ClientError e => "Network error fetching sitemap: " +:+ message e
  | ParseError e => "XML parsing error: " +:+ message e
  | OtherException e => "Unexpected error: " +:+ message e
  end.

(** * The report format of the design document, section 6 *)

(** Lines, each ended by a newline. *)
Definition unlines (ls : list string) : string :=
  foldr (λ l acc, l +:+ nl +:+ acc) "" ls.

Definition kind_lines (errs : list (string * Z)) : list string :=
  (λ '(k, v), "- " +:+ k +:+ ": " +:+ Py.str v) <$> errs.

Definition report_head (total ok failed : Z) : list string :=
  [ "Crawling Summary"; "================";
    "Total URLs: " +:+ Py.str total;
    "Successful: " +:+ Py.str ok;
    "Failed: " +:+ Py.str failed;
    "Error types:" ].

Definition report_tail (peak : Z) (duration : string) : list string :=
  [ "Peak memory usage: " +:+ Py.str peak +:+ "MB";
    "Total time: " +:+ duration ].

(** The report as the table of section 6 has it: the error-kind lines are
    directly followed by the peak-memory line. *)
Definition sec6_report (total ok failed : Z) (errs : list (string * Z))
    (peak : Z) (duration : string) : string :=
  unlines (report_head total ok failed ++ kind_lines errs ++ report_tail peak duration).

(** The empty lines the program puts before the peak-memory line. *)
Definition blank_lines (errs : list (string * Z)) : list string :=
  match errs with
  | [] => [""; ""]
  | _ => [""]
  end.

(** * Observations on whole runs *)

(** What [m] adds to the trace satisfies [Q], however [m] ends. *)
Definition appends {A} (Q : list Event → Prop) (m : M A) : Prop :=
  ∀ s, ∃ t, trace (m s).2 = trace s ++ t ∧ Q t.

Definition is_start (ev : Event) : bool :=
  match ev with EvStart => true | _ => false end.

Definition is_arun (ev : Event) : bool :=
  match ev with EvArun _ _ => true | _ => false end.

Definition is_done (ev : Event) : bool :=
  match ev with EvDone _ => true | _ => false end.

(** The change an event makes to the number of tasks in flight. *)
Definition flight_delta (ev : Event) : Z :=
  match ev with
  | EvArun _ _ => 1
  | EvDone _ => -1
  | _ => 0
  end.

(** The tasks handed to the engine and not yet ended, after a trace. *)
Definition in_flight (tr : list Event) : Z :=
  foldr (λ ev n, flight_delta ev + n) 0 tr.

(** No task is left in flight at the end of [t], and never more than
    [limit] are in flight along it. *)
Definition flight_bounded (limit : Z) (t : list Event) : Prop :=
  in_flight t = 0 ∧ ∀ p, p `prefix_of` t → 0 ≤ in_flight p ≤ limit.

(** The calls of [crawler.arun]: url and session id, in call order. *)
Definition arun_calls (tr : list Event) : list (string * string) :=
  omap (λ ev, match ev with EvArun url sid => Some (url, sid) | _ => None end) tr.

(** The task of every url of a run, by its position [g] in the list. *)
Definition run_tasks (c : nat) (urls : list string) : list (string * string) :=
  imap (λ g url,
          (url, session_id (Z.of_nat (g `div` c) + 1) (Z.of_nat (g `mod` c))))
       urls.

(** The results counted so far. *)
Definition counted (s : State) : Z :=
  success_count (stats s) + fail_count (stats s).

(** What is appended without a call of [arun]. *)
Definition no_arun (t : list Event) : Prop := arun_calls t = [].

(** The separator of the parts of a session id. *)
Definition underscore : Ascii.ascii := Eval cbv in Ascii.ascii_of_nat 95.

(** The character does not occur in the string. *)
Fixpoint free_of (c : Ascii.ascii) (s : string) : Prop :=
  match s with
  | EmptyString => True
  | String a s' => a ≠ c ∧ free_of c s'
  end.




(** The peak after the first [k] readings of a tracker. *)
Fixpoint peak_after (w : World) (k : nat) : Z :=
  match k with
  | O => 0
  | S k' => Z.max (peak_after w k') (rss (proc_sample w k'))
  end.

(** The snapshot made of the [k]-th reading. *)
Definition snapshot_at (w : World) (k : nat) : MemStats :=
  let p := proc_sample w k in
  {| current_mb := rss p / MiB;
     peak_mb := peak_after w (S k) / MiB;
     cpu_percent := cpu p;
     elapsed_time := str_timedelta w (now p - proc_created w) |}.

(** The tracker and the snapshots agree with the readings taken so far. *)
Definition tracker_ok (w : World) (s : State) : Prop :=
  memory_tracker s
  = {| peak_memory := peak_after w (readings s); start_time := proc_created w |}
  ∧ memory_stats (stats s) = snapshot_at w <$> seq 0 (readings s).

(** Is the result an exception of the class [kind]? *)
Definition raised_as (kind : string) (o : Outcome) : bool :=
  match o with
  | Raised e => bool_decide (type_name e = kind)
  | Returned _ => false
  end.

(** How many results of a list are exceptions of the class [kind]. *)
Definition count_kind (kind : string) (outs : list Outcome) : Z :=
  Z.of_nat (length (filter (λ o, raised_as kind o = true) outs)).

(** The keys stay distinct and every count stays positive. *)
Definition histogram_ok (d : list (string * Z)) : Prop :=
  NoDup d.*1 ∧ Forall (λ kv, 0 < kv.2) d.

(** The name of the [n]-th page. *)
Definition page_name (n : Z) : string := "page_" +:+ Py.str n +:+ ".md".

(** The progress line for the counters of [st]. *)
Definition progress_line (urls : list string) (st : Stats) : string :=
  "Progress: " +:+ Py.str (success_count st + fail_count st) +:+ "/"
  +:+ Py.str (Py.len urls) +:+ " URLs processed (" +:+ Py.str (success_count st)
  +:+ " successful, " +:+ Py.str (fail_count st) +:+ " failed)".

(** The same world with the tasks ending at other times. *)
Definition with_finish (w : World) (finish : string → nat) : World :=
  {| engine_start := engine_start w;
     engine_arun := engine_arun w;
     engine_finish := finish;
     engine_close := engine_close w;
     fs_write := fs_write w;
     proc_created := proc_created w;
     proc_sample := proc_sample w;
     str_timedelta := str_timedelta w |}.

(** A trace without the completions of the tasks. *)
Definition without_done (tr : list Event) : list Event :=
  filter (λ ev, is_done ev = false) tr.

(** Two states that differ at most in the order of the completions. *)
Definition same_but_order (s s' : State) : Prop :=
  memory_tracker s = memory_tracker s'
  ∧ readings s = readings s'
  ∧ stats s = stats s'
  ∧ without_done (trace s) = without_done (trace s')
  ∧ trace s ≡ₚ trace s'.

(** Two computations that keep such states together and end alike. *)
Definition alike {A} (m m' : M A) : Prop :=
  ∀ s s', same_but_order s s' →
          (m s).1 = (m' s').1 ∧ same_but_order (m s).2 (m' s').2.

(** A sitemap of the usual shape: the children of the root are [url]
    elements, and their children have no children of their own. *)
Definition plain_urlset (root : Element) : Prop :=
  Forall (λ u, tag u = qname "url" ∧ Forall (λ c, children c = []) (children u))
         (children root).

(** The [loc] children of the children of the root, in document order. *)
Definition declared_locs (root : Element) : list Element :=
  flat_map (λ u, filter (λ c, tag c = qname "loc") (children u)) (children root).

(** * main *)

(** How the process leaves [main]: it returns to [asyncio.run], or
    [sys.exit(code)] ends it, or an exception that [except Exception] does
    not catch leaves it. *)
Inductive Exit :=
| Returns
| SysExit (code : Z)
| Escapes (e : Exn).

(** The address [main] reads the sitemap from. *)
Definition sitemap_address : string := "https://ai.pydantic.dev/sitemap.xml".

(** The url the rest of the program sees for a [loc] element: its text.
    [loc.text] is [None] for an element without text; the program only
    formats a url or hands it to the engine, and the model keeps for [None]
    the text an f-string prints for it. *)
Definition url_of_text (t : option string) : string := default "None" t.

(** [main] of [multi_url.py]: the log and the calls on the collaborators,
    and how it ends.  [output] is the text of the [__output__] path.  The
    traceback that [exc_info=True] adds to the last record is not part of
    its message. *)
Definition main (web : Web) (w : World) (output : string) : list Event * Exit :=
  let '(found, urls) := get_sitemap_urls web sitemap_address in
  match urls with
  | [] => (found ++ [EvLog ERROR "No URLs found to crawl"], Returns)
  | _ :: _ =>
      let starting :=
        EvLog INFO ("Starting crawl of " +:+ Py.str (Py.len urls) +:+ " URLs") in
      let '(r, s) := run_crawl_parallel w (url_of_text <$> urls) 5 in
      match r with
      | Ok st =>
          (found ++ [starting] ++ trace s
           ++ [EvLog INFO ("Crawl completed. Success: " +:+ Py.str (success_count st)
                           +:+ ", Failed: " +:+ Py.str (fail_count st));
               EvLog INFO ("Results saved in: " +:+ output)],
           Returns)
      | Raise e =>
          if is_Exception e then
            (found ++ [starting] ++ trace s
             ++ [EvLog ERROR ("Fatal error in main: " +:+ message e)],
             SysExit 1)
          else (found ++ [starting] ++ trace s, Escapes e)
      end
  end.

(** A web for examples whose sitemap is at the address [main] reads. *)
Definition main_web (root : Element) : Web :=
  {| http_get_text := λ _, inr "<urlset/>"; fromstring := λ _, inr root |}.

(** * single_url.py *)

Module SingleUrl.

(** What [crawler.arun] gives the script: an exception, or a result, which
    the script tests for truth before it reads its markdown ([None] is the
    only result that is false). *)
Inductive Fetch :=
| FetchRaised (e : Exn)
| Fetched (result : option CrawlResult).

(** The oracles of one run of the script.  [aexit] is given the exception
    in flight, if any; it raises, or it returns whether that exception is
    to be swallowed, as [async with] asks of [__aexit__]. *)
Record Env := mkEnv {
  aenter : option Exn;                    (* AsyncWebCrawler().__aenter__() *)
  arun : Fetch;                           (* crawler.arun(url, max_pages=1) *)
  aexit : option Exn → Res bool;          (* crawler.__aexit__(...) *)
  write : string → string → option Exn    (* open(name, 'w') and f.write *)
}.

(** Calls on the collaborators, in the order they happen. *)
Inductive Ev :=
| Log (lvl : Level) (msg : string)
| Enter
| Arun (url : string)
| Leave (raised : option Exn)
| Save (name content : string).

(** The one page the script fetches. *)
Definition page : string := "https://ai.pydantic.dev/".

(** The block under [async with]: its events and the exception it ends
    with, if any. *)
Definition body (env : Env) : list Ev * option Exn :=
  let begun := [Log INFO "Starting to crawl..."; Arun page] in
  match arun env with
  | FetchRaised e => (begun, Some e)
  | Fetched result =>
      match result ≫= (λ r, truthy (markdown r)) with
      | Some md =>
          match write env "crawled_content.md" md with
          | Some e => (begun ++ [Save "crawled_content.md" md], Some e)
          | None =>
              (begun ++ [Save "crawled_content.md" md;
                         Log INFO "Content saved to crawled_content.md"], None)
          end
      | None => (begun ++ [Log WARNING "No content was retrieved"], None)
      end
  end.

(** [async with AsyncWebCrawler() as crawler: body]. *)
Definition with_crawler (env : Env) : list Ev * option Exn :=
  match aenter env with
  | Some e => ([Enter], Some e)
  | None =>
      let '(t, r) := body env in
      ([Enter] ++ t ++ [Leave r],
       match aexit env r with
       | Raise e' => Some e'
       | Ok swallow =>
           match r with
           | Some e => if swallow then None else Some e
           | None => None
           end
       end)
  end.

(** [main]: the [except Exception] clause logs an [Exception] and raises it
    again; an exception of another class passes it unlogged. *)
Definition main (env : Env) : list Ev * option Exn :=
  let '(t, r) := with_crawler env in
  match r with
  | Some e =>
      if is_Exception e
      then (t ++ [Log ERROR ("An error occurred: " +:+ message e)], Some e)
      else (t, Some e)
  | None => (t, None)
  end.

(** The [__main__] block: [asyncio.run(main())] under its two [except]
    clauses.  The events, and the exception that leaves the script, if
    any: one that is neither a [KeyboardInterrupt] nor an [Exception]. *)
Definition run_script (env : Env) : list Ev * option Exn :=
  let '(t, r) := main env in
  match r with
  | Some e =>
      match exn_class e with
      | KeyboardInterruptClass =>
          (t ++ [Log INFO "Crawling interrupted by user"], None)
      | ExceptionClass =>
          (t ++ [Log ERROR ("Fatal error: " +:+ message e);
                 Log INFO "Check crawler.log for details"], None)
      | BaseExceptionOnly => (t, Some e)
      end
  | None => (t, None)
  end.

(** The events of a run of the script. *)
Definition script (env : Env) : list Ev := (run_script env).1.

(** The files written, in call order. *)
Definition written (t : list Ev) : list (string * string) :=
  omap (λ ev, match ev with Save n c => Some (n, c) | _ => None end) t.



(** What the script logs about an exception that leaves the [async with]:
    for an [Exception] one line from [main] and two from the [__main__]
    block, for a [KeyboardInterrupt] one line from the [__main__] block, for
    any other exception nothing. *)
Definition report (e : Exn) : list Ev :=
  match exn_class e with
  | ExceptionClass =>
      [Log ERROR ("An error occurred: " +:+ message e);
       Log ERROR ("Fatal error: " +:+ message e);
       Log INFO "Check crawler.log for details"]
  | KeyboardInterruptClass => [Log INFO "Crawling interrupted by user"]
  | BaseExceptionOnly => []
  end.

(** What follows the block under [async with] when it ended with [r]: the
    call of [__aexit__] and the report of the exception that leaves the
    [async with], if any. *)
Definition ending (env : Env) (r : option Exn) : list Ev :=
  Leave r :: match aexit env r, r with
            | Raise e', _ => report e'
            | Ok false, Some e => report e
            | Ok _, _ => []
            end.



End SingleUrl.

(** * Batching lemmas *)

Section batching.
Context {A : Type}.
Implicit Types (urls : list A) (c n : nat).

Lemma chunks_S c n urls :
  chunks c (S n) urls = chunks c n urls ++ [take c (drop (n * c) urls)].
Proof. unfold chunks. by rewrite seq_S, fmap_app. Qed.

Lemma concat_chunks c n urls :
  concat (chunks c n urls) = take (n * c) urls.
Proof.
  induction n as [|n IH].
  - by rewrite take_0.
  - rewrite chunks_S, concat_app, IH. simpl. rewrite app_nil_r.
    rewrite take_take_drop. f_equal. lia.
Qed.

Lemma length_chunks c n urls : length (chunks c n urls) = n.
Proof. unfold chunks. by rewrite length_fmap, length_seq. Qed.

Lemma lookup_chunks c n urls k :
  (k < n)%nat → chunks c n urls !! k = Some (take c (drop (k * c) urls)).
Proof.
  intros Hk. unfold chunks. rewrite list_lookup_fmap.
  by rewrite lookup_seq_lt.
Qed.

Lemma range_length_pos (L C : Z) :
  0 ≤ L → 0 < C → Py.range_length 0 L C = (L + C - 1) / C.
Proof.
  intros HL HC. unfold Py.range_length.
  destruct (Z.ltb_spec 0 C); [|lia].
  destruct (Z.ltb_spec 0 L).
  - replace (L + C - 1) with ((L - 1 - 0) + 1 * C) by lia.
    rewrite Z.div_add by lia. lia.
  - assert (L = 0) as -> by lia.
    rewrite Z.div_small; lia.
Qed.

(** Ceiling division: the least [n] with [L <= n * C]. *)
Lemma ceil_spec (L C : Z) :
  0 ≤ L → 0 < C →
  let n := (L + C - 1) / C in
  L ≤ n * C ∧ (0 < L → (n - 1) * C < L) ∧ (L = 0 → n = 0) ∧ 0 ≤ n.
Proof.
  intros HL HC n.
  pose proof (Z.div_mod (L + C - 1) C ltac:(lia)) as Hdm.
  pose proof (Z.mod_pos_bound (L + C - 1) C HC) as Hb.
  fold n in Hdm.
  assert (0 ≤ n) by (apply Z.div_pos; lia).
  repeat split; [nia | nia | | done].
  intros ->. unfold n. apply Z.div_small. lia.
Qed.

Lemma batch_starts_pos urls (C : Z) :
  0 < C →
  batch_starts urls C =
    Ok ((λ k : nat, Z.of_nat k * C) <$> seq 0 (Z.to_nat (batch_total urls C))).
Proof.
  intros HC. unfold batch_starts, Py.range, batch_total.
  destruct (Z.eqb_spec C 0); [lia|]. f_equal.
  rewrite range_length_pos by (unfold Py.len; lia).
  set (nb := (Py.len urls + C - 1) / C).
  assert (0 ≤ nb) by (apply (ceil_spec (Py.len urls) C); unfold Py.len; lia).
  apply list_eq. intros k.
  rewrite !list_lookup_fmap.
  destruct (decide (k < Z.to_nat nb)%nat) as [Hk|Hk].
  - rewrite lookup_seqZ_lt by lia. rewrite lookup_seq_lt by lia.
    simpl. f_equal; lia.
  - rewrite lookup_seqZ_ge by lia. rewrite lookup_seq_ge by lia. done.
Qed.

Lemma batch_at_chunk urls (C : Z) (k : nat) :
  0 < C →
  batch_at urls C (Z.of_nat k * C) =
    take (Z.to_nat C) (drop (k * Z.to_nat C) urls).
Proof.
  intros HC. unfold batch_at, Py.slice, Py.clamp, Py.len.
  set (L := Z.of_nat (length urls)).
  destruct (Z.ltb_spec (Z.of_nat k * C) 0); [nia|].
  destruct (Z.ltb_spec (Z.of_nat k * C + C) 0); [nia|].
  destruct (decide (Z.of_nat k * C ≤ L)) as [Hle|Hgt].
  - rewrite (Z.min_l (Z.of_nat k * C)) by lia.
    replace (Z.to_nat (Z.of_nat k * C)) with (k * Z.to_nat C)%nat by nia.
    destruct (decide (Z.of_nat k * C + C ≤ L)).
    + rewrite Z.min_l by lia. f_equal. lia.
    + rewrite Z.min_r by lia.
      rewrite !take_ge; [done| |];
        rewrite length_drop; subst L; nia.
  - rewrite !Z.min_r by lia.
    replace (Z.to_nat (L - L)) with 0%nat by lia. rewrite take_0.
    rewrite (drop_ge urls (k * Z.to_nat C)) by (subst L; nia).
    by rewrite take_nil.
Qed.

Lemma batches_pos urls (C : Z) :
  0 < C →
  batches urls C =
    Ok (chunks (Z.to_nat C) (Z.to_nat (batch_total urls C)) urls).
Proof.
  intros HC. unfold batches. rewrite batch_starts_pos by done.
  f_equal. unfold chunks. rewrite <- list_fmap_compose.
  apply list_fmap_ext. intros _ k _. simpl. by apply batch_at_chunk.
Qed.

(** The limit and the batch count as naturals. *)
Lemma batch_total_nat urls (C : Z) :
  0 < C →
  let c := Z.to_nat C in
  let n := Z.to_nat (batch_total urls C) in
  (0 < c ∧ length urls ≤ n * c ∧ (urls ≠ [] → 0 < n ∧ (n - 1) * c < length urls)
   ∧ (urls = [] → n = 0))%nat
  ∧ Z.of_nat n = batch_total urls C.
Proof.
  intros HC c n.
  destruct (ceil_spec (Py.len urls) C) as (H1 & H2 & H0 & H3);
    [unfold Py.len; lia | done |].
  fold (batch_total urls C) in H1, H2, H0, H3.
  assert (Z.of_nat n = batch_total urls C) as Hn by lia.
  assert (Z.of_nat c = C) as Hc by lia.
  split; [|done].
  unfold Py.len in *. clearbody c n. rewrite <- Hn in H1, H2, H0, H3.
  subst C. clear Hn.
  split; [lia|]. split; [nia|]. split.
  - intros Hne.
    assert (0 < length urls)%nat as Hlen by (destruct urls; [done|simpl; lia]).
    assert (0 < n)%nat as Hpos by nia.
    split; [done|].
    specialize (H2 ltac:(lia)).
    replace (Z.of_nat n - 1) with (Z.of_nat (n - 1)) in H2 by lia. nia.
  - intros ->. simpl in H0. lia.
Qed.

Lemma chunks_lookup_item c n urls g u :
  (0 < c)%nat → (length urls ≤ n * c)%nat →
  urls !! g = Some u →
  ∃ b, chunks c n urls !! (g `div` c)%nat = Some b ∧ b !! (g `mod` c)%nat = Some u.
Proof.
  intros Hc Hn Hg.
  pose proof (lookup_lt_Some _ _ _ Hg) as Hlt.
  pose proof (Nat.div_mod_eq g c) as Hdm.
  pose proof (Nat.mod_upper_bound g c ltac:(lia)) as Hm.
  assert (g `div` c < n)%nat as Hk by nia.
  eexists. split; [by apply lookup_chunks|].
  rewrite lookup_take_lt by done. rewrite lookup_drop.
  rewrite <- Hg. f_equal. lia.
Qed.

Lemma chunks_lookup_pos c n urls k j b u :
  chunks c n urls !! k = Some b → b !! j = Some u →
  (j < c)%nat ∧ urls !! (k * c + j)%nat = Some u.
Proof.
  intros Hb Hj.
  assert (k < n)%nat as Hk.
  { apply lookup_lt_Some in Hb. by rewrite length_chunks in Hb. }
  rewrite lookup_chunks in Hb by done. injection Hb as <-.
  apply lookup_take_Some in Hj as [Hj ?]. by rewrite lookup_drop in Hj.
Qed.

Lemma chunks_length_full c n urls k b :
  (length urls ≤ n * c)%nat → ((n - 1) * c < length urls)%nat →
  chunks c n urls !! k = Some b →
  (0 < length b ≤ c)%nat ∧ (S k < n → length b = c)%nat.
Proof.
  intros Hn Hlast Hb.
  assert (k < n)%nat as Hk.
  { apply lookup_lt_Some in Hb. by rewrite length_chunks in Hb. }
  rewrite lookup_chunks in Hb by done. injection Hb as <-.
  rewrite length_take, length_drop. nia.
Qed.

End batching.

(** * The monad: equations of the primitives *)

Lemma add_trace_nil s : add_trace [] s = s.
Proof. destruct s. unfold add_trace. simpl. by rewrite app_nil_r. Qed.

Lemma add_trace_add_trace t1 t2 s :
  add_trace t2 (add_trace t1 s) = add_trace (t1 ++ t2) s.
Proof. unfold add_trace. simpl. by rewrite app_assoc. Qed.

Lemma bind_ok {A B} (m : M A) (f : A → M B) s a s' :
  m s = (Ok a, s') → (m ≫= f) s = f a s'.
Proof. intros H. unfold mbind, M_bind. by rewrite H. Qed.

(** A loop that only writes events. *)
Lemma for_each_emit {A} (l : list A) (ev : A → list Event) (body : A → M unit) s :
  (∀ x s, body x s = (Ok tt, add_trace (ev x) s)) →
  for_each l body s = (Ok tt, add_trace (l ≫= ev) s).
Proof.
  intros Hbody. revert s. induction l as [|x l IH]; intros s; simpl.
  - by rewrite add_trace_nil.
  - erewrite bind_ok by apply Hbody. rewrite IH.
    by rewrite add_trace_add_trace.
Qed.

(** * gather: results by position, whatever the order of completion *)

Lemma omap_id_fmap_Some {A B} (f : A → B) (l : list A) :
  omap id ((Some ∘ f) <$> l) = f <$> l.
Proof. induction l as [|x l IH]; simpl; [done|]. by f_equal. Qed.

Lemma bind_singleton {A B} (g : A → B) (l : list A) :
  (l ≫= λ x, [g x]) = g <$> l.
Proof. induction l as [|x l IH]; csimpl; [done|]. by f_equal. Qed.

Lemma bind_option_list {A B} (g : A → option B) (l : list A) :
  (l ≫= λ x, option_list (g x)) = omap g l.
Proof.
  induction l as [|x l IH]; csimpl; [done|].
  rewrite IH. by destruct (g x).
Qed.

Section gather.
Context (w : World) (tasks : list (string * string)).

#[local] Abbreviation store := (store w tasks).
#[local] Abbreviation task_outcome := (task_outcome w).

Lemma length_store slots k : length (store slots k) = length slots.
Proof.
  unfold store. destruct (tasks !! k) as [[url sid]|]; [|done].
  by rewrite length_insert.
Qed.

Lemma length_foldl_store order slots :
  length (foldl store slots order) = length slots.
Proof.
  revert slots. induction order as [|k order IH]; intros slots; simpl; [done|].
  by rewrite IH, length_store.
Qed.

Lemma lookup_store_eq slots k t :
  tasks !! k = Some t → (k < length slots)%nat →
  store slots k !! k = Some (Some (task_outcome t)).
Proof.
  intros Ht Hk. unfold store. rewrite Ht. destruct t as [url sid].
  by rewrite list_lookup_insert_eq.
Qed.

Lemma lookup_store_ne slots k j : k ≠ j → store slots k !! j = slots !! j.
Proof.
  intros Hne. unfold store. destruct (tasks !! k) as [[url sid]|]; [|done].
  by rewrite list_lookup_insert_ne.
Qed.

(** Once a slot is filled with its task's outcome, later completions
    leave it as it is. *)
Lemma lookup_foldl_store_filled order slots j t :
  tasks !! j = Some t → slots !! j = Some (Some (task_outcome t)) →
  foldl store slots order !! j = Some (Some (task_outcome t)).
Proof.
  intros Ht. revert slots. induction order as [|k order IH]; intros slots Hj; simpl.
  - done.
  - apply IH. destruct (decide (k = j)) as [->|Hne].
    + apply lookup_store_eq; [done|]. by eapply lookup_lt_Some.
    + by rewrite lookup_store_ne.
Qed.

Lemma lookup_foldl_store_elem order slots j t :
  tasks !! j = Some t → (j < length slots)%nat → j ∈ order →
  foldl store slots order !! j = Some (Some (task_outcome t)).
Proof.
  intros Ht. revert slots.
  induction order as [|k order IH]; intros slots Hlen Hin; simpl.
  - by apply elem_of_nil in Hin.
  - destruct (decide (k = j)) as [->|Hne].
    + apply lookup_foldl_store_filled; [done|]. by apply lookup_store_eq.
    + apply IH; [by rewrite length_store|].
      apply elem_of_cons in Hin as [?|?]; [congruence|done].
Qed.

(** Any order in which every task ends fills the slots by position. *)
Lemma gather_slots_perm order :
  order ≡ₚ seq 0 (length tasks) →
  omap id (gather_slots w tasks order) = task_outcome <$> tasks.
Proof.
  intros Hperm.
  assert (gather_slots w tasks order = (Some ∘ task_outcome) <$> tasks) as ->.
  { unfold gather_slots. apply list_eq. intros j.
    rewrite list_lookup_fmap.
    destruct (tasks !! j) as [t|] eqn:Ht; simpl.
    - apply lookup_foldl_store_elem; [done| |].
      + rewrite length_replicate. by eapply lookup_lt_Some.
      + rewrite Hperm. apply elem_of_seq. apply lookup_lt_Some in Ht. lia.
    - apply lookup_ge_None. rewrite length_foldl_store, length_replicate.
      by apply lookup_ge_None. }
  apply omap_id_fmap_Some.
Qed.

Lemma completion_order_perm : completion_order w tasks ≡ₚ seq 0 (length tasks).
Proof. apply merge_sort_Permutation. Qed.

Lemma gather_eq s :
  gather w tasks s
  = (Ok (task_outcome <$> tasks), add_trace (gather_events w tasks) s).
Proof.
  unfold gather.
  erewrite bind_ok; last first.
  { apply (for_each_emit _ (λ t, [EvArun t.1 t.2])). by intros [url sid] s'. }
  erewrite bind_ok; last first.
  { apply (for_each_emit _ (λ k, option_list ((λ t, EvDone t.2) <$> tasks !! k))).
    intros k s'. destruct (tasks !! k) as [[url sid]|]; [done|].
    simpl. by rewrite add_trace_nil. }
  rewrite add_trace_add_trace, gather_slots_perm by apply completion_order_perm.
  by rewrite bind_singleton, bind_option_list.
Qed.

End gather.

(** * Invariants *)

Lemma invariant_ret {A} (I : State → Prop) (a : A) : invariant I (mret a).
Proof. by intros s Hs. Qed.

Lemma invariant_raise {A} (I : State → Prop) e : invariant I (raise e : M A).
Proof. by intros s Hs. Qed.

Lemma invariant_bind {A B} (I : State → Prop) (m : M A) (f : A → M B) :
  invariant I m → (∀ a, invariant I (f a)) → invariant I (m ≫= f).
Proof.
  intros Hm Hf s Hs. specialize (Hm s Hs).
  unfold mbind, M_bind. destruct (m s) as [[a|e] s1]; simpl in *.
  - by apply Hf.
  - done.
Qed.

Lemma invariant_for_each {A} (I : State → Prop) (l : list A) (body : A → M unit) :
  (∀ x, invariant I (body x)) → invariant I (for_each l body).
Proof.
  intros Hbody. induction l as [|x l IH]; simpl.
  - apply invariant_ret.
  - apply invariant_bind; [apply Hbody|]. by intros _.
Qed.

Lemma invariant_try_finally {A} (I : State → Prop) (m : M A) (fin : M unit) :
  invariant I m → invariant I fin → invariant I (try_finally m fin).
Proof.
  intros Hm Hfin s Hs. specialize (Hm s Hs). unfold try_finally.
  destruct (m s) as [r s1]; simpl in *.
  specialize (Hfin s1 Hm). by destruct (fin s1) as [[[]|e] s2].
Qed.

Lemma invariant_lift_call (I : State → Prop) o : invariant I (lift_call o).
Proof. destruct o; [apply invariant_raise | apply invariant_ret]. Qed.

Lemma invariant_lift_res {A} (I : State → Prop) (r : Res A) : invariant I (lift_res r).
Proof. destruct r; [apply invariant_ret | apply invariant_raise]. Qed.

Lemma invariant_get_stats (I : State → Prop) : invariant I get_stats.
Proof. by intros s Hs. Qed.

Lemma keeps_memory_count_error k : keeps_memory (count_error k).
Proof. done. Qed.

Lemma keeps_memory_incr_fail : keeps_memory incr_fail.
Proof. done. Qed.

Lemma keeps_memory_incr_success : keeps_memory incr_success.
Proof. done. Qed.

(** What keeps the batch loop from breaking a property of the state: the
    property has to survive the events other than [EvClose], the updates of
    the counters and the histogram, and a snapshot. *)
Section loop_invariant.
Context (w : World) (I : State → Prop).
Hypothesis I_event : ∀ ev s, is_close ev = false → I s → I (add_trace [ev] s).
Hypothesis I_stats : ∀ f, keeps_memory f → invariant I (modify_stats f).
Hypothesis I_snapshot : ∀ prefix, invariant I (take_snapshot w prefix).

Lemma invariant_emit ev : is_close ev = false → invariant I (emit ev).
Proof. intros Hev s Hs. by apply I_event. Qed.

Lemma invariant_log lvl msg : invariant I (log lvl msg).
Proof. by apply invariant_emit. Qed.

Lemma invariant_write_text name content : invariant I (write_text w name content).
Proof.
  unfold write_text. apply invariant_bind; [by apply invariant_emit|].
  intros _. apply invariant_lift_call.
Qed.

Lemma invariant_record_result url o : invariant I (record_result w url o).
Proof.
  unfold record_result. destruct o as [e|r].
  - destruct (is_Exception e); [|apply invariant_raise].
    apply invariant_bind; [apply I_stats, keeps_memory_count_error|intros _].
    apply invariant_bind; [apply I_stats, keeps_memory_incr_fail|intros _].
    apply invariant_log.
  - destruct (success r).
    + apply invariant_bind; [apply I_stats, keeps_memory_incr_success|intros _].
      destruct (truthy (markdown r)); [|apply invariant_ret].
      apply invariant_bind; [apply invariant_get_stats|intros st].
      apply invariant_write_text.
    + apply invariant_bind; [apply I_stats, keeps_memory_incr_fail|intros _].
      apply invariant_log.
Qed.

Lemma invariant_gather tasks : invariant I (gather w tasks).
Proof.
  unfold gather. apply invariant_bind.
  { apply invariant_for_each. intros [url sid]. by apply invariant_emit. }
  intros _. apply invariant_bind; [|intros _; apply invariant_ret].
  apply invariant_for_each. intros k.
  destruct (tasks !! k) as [[url sid]|]; [by apply invariant_emit|].
  apply invariant_ret.
Qed.

Lemma invariant_collect_batch batch tasks : invariant I (collect_batch w batch tasks).
Proof.
  unfold collect_batch. apply invariant_bind; [apply invariant_gather|].
  intros results. apply invariant_for_each. intros [url result].
  apply invariant_record_result.
Qed.

Lemma invariant_log_progress urls : invariant I (log_progress urls).
Proof.
  unfold log_progress. apply invariant_bind; [apply invariant_get_stats|].
  intros st. apply invariant_log.
Qed.

Lemma invariant_batch_step urls C batch_num batch :
  invariant I (batch_step w urls C batch_num batch).
Proof.
  unfold batch_step. apply invariant_bind; [apply I_snapshot|intros _].
  apply invariant_bind; [apply invariant_collect_batch|intros _].
  apply invariant_log_progress.
Qed.

Lemma invariant_batch_loop urls C : invariant I (batch_loop w urls C).
Proof.
  unfold batch_loop. apply invariant_bind; [apply invariant_lift_res|].
  intros starts. apply invariant_for_each. intros [batch_num i].
  apply invariant_batch_step.
Qed.

End loop_invariant.

(** * The memory tracker *)

Lemma update_peak_max tr cur :
  peak_memory (update_peak tr cur) = Z.max (peak_memory tr) cur.
Proof.
  unfold update_peak. destruct (Z.ltb_spec (peak_memory tr) cur); simpl; lia.
Qed.

Lemma div_MiB_max a b : Z.max a b / MiB = Z.max (a / MiB) (b / MiB).
Proof.
  assert (0 < MiB) by done.
  destruct (Z.max_spec a b) as [[Hlt ->]|[Hle ->]].
  - rewrite Z.max_r; [done|]. apply Z.div_le_mono; lia.
  - rewrite Z.max_l; [done|]. apply Z.div_le_mono; lia.
Qed.

(** What one snapshot does to the state. *)
Lemma take_snapshot_spec w prefix s :
  ∃ m s1,
    take_snapshot w prefix s = (Ok m, s1)
    ∧ current_mb m = rss (proc_sample w (readings s)) / MiB
    ∧ peak_memory (memory_tracker s1)
      = Z.max (peak_memory (memory_tracker s)) (rss (proc_sample w (readings s)))
    ∧ peak_mb m = peak_memory (memory_tracker s1) / MiB
    ∧ memory_stats (stats s1) = memory_stats (stats s) ++ [m]
    ∧ success_count (stats s1) = success_count (stats s)
    ∧ fail_count (stats s1) = fail_count (stats s)
    ∧ errors (stats s1) = errors (stats s)
    ∧ readings s1 = S (readings s)
    ∧ trace s1 = trace s ++ [EvLog INFO (memory_line prefix m)].
Proof.
  eexists _, _. split; [reflexivity|]. simpl.
  rewrite update_peak_max. by repeat split.
Qed.

Lemma peak_monotone_snoc l m :
  peak_monotone l → Forall (λ m', peak_mb m' ≤ peak_mb m) l →
  peak_monotone (l ++ [m]).
Proof.
  intros Hl Hall i j mi mj Hij Hi Hj.
  destruct (decide (j < length l)%nat) as [Hlt|Hge].
  - rewrite lookup_app_l in Hi, Hj by lia. exact (Hl i j mi mj Hij Hi Hj).
  - assert (j = length l) as ->.
    { apply lookup_lt_Some in Hj. rewrite length_app in Hj. simpl in Hj. lia. }
    rewrite lookup_app_r, Nat.sub_diag in Hj by lia. injection Hj as <-.
    destruct (decide (i < length l)%nat) as [Hlt|Hge'].
    + rewrite lookup_app_l in Hi by lia.
      rewrite Forall_forall in Hall. apply Hall.
      eapply list_elem_of_lookup_2, Hi.
    + assert (i = length l) as -> by lia.
      rewrite lookup_app_r, Nat.sub_diag in Hi by lia. by injection Hi as <-.
Qed.

Lemma snapshots_ok_snapshot w prefix : invariant snapshots_ok (take_snapshot w prefix).
Proof.
  intros s [Hmono Hall].
  destruct (take_snapshot_spec w prefix s)
    as (m & s1 & -> & Hcur & Hpeak & Hmb & Hmem & _).
  simpl. unfold snapshots_ok. rewrite Hmem.
  assert (peak_memory (memory_tracker s) / MiB ≤ peak_mb m) as Hle.
  { rewrite Hmb, Hpeak, div_MiB_max. lia. }
  split.
  - apply peak_monotone_snoc; [done|].
    eapply Forall_impl; [exact Hall|]. simpl. intros m' [_ Hm']. lia.
  - apply Forall_app. split.
    + eapply Forall_impl; [exact Hall|]. simpl. intros m' [? Hm'].
      split; [done|]. rewrite <- Hmb. lia.
    + apply Forall_singleton. rewrite Hcur, Hmb, Hpeak, div_MiB_max. lia.
Qed.

Lemma snapshots_ok_event ev s : snapshots_ok s → snapshots_ok (add_trace [ev] s).
Proof. done. Qed.

Lemma snapshots_ok_stats f : keeps_memory f → invariant snapshots_ok (modify_stats f).
Proof.
  intros Hf s [Hmono Hall]. unfold snapshots_ok. simpl. by rewrite Hf.
Qed.

Lemma snapshots_ok_finalize w urls : invariant snapshots_ok (finalize w urls).
Proof.
  unfold finalize, log.
  apply invariant_bind; [intros s Hs; by apply snapshots_ok_event|intros _].
  apply invariant_bind; [intros s Hs; by apply snapshots_ok_event|intros _].
  apply invariant_bind; [apply invariant_lift_call|intros _].
  apply invariant_bind; [apply snapshots_ok_snapshot|intros m].
  apply invariant_bind; [apply invariant_get_stats|intros st].
  apply invariant_write_text. intros ev s _. apply snapshots_ok_event.
Qed.

Lemma snapshots_ok_crawl_parallel w urls C :
  invariant snapshots_ok (crawl_parallel w urls C).
Proof.
  unfold crawl_parallel, log.
  apply invariant_bind; [intros s Hs; by apply snapshots_ok_event|intros _].
  apply invariant_bind; [intros s Hs; by apply snapshots_ok_event|intros _].
  apply invariant_bind; [apply invariant_lift_call|intros _].
  apply invariant_bind; [|intros _; apply invariant_get_stats].
  apply invariant_try_finally; [|apply snapshots_ok_finalize].
  apply invariant_batch_loop.
  - intros ev s _. apply snapshots_ok_event.
  - apply snapshots_ok_stats.
  - apply snapshots_ok_snapshot.
Qed.

Lemma snapshots_ok_initial w : snapshots_ok (initial_state w).
Proof.
  split; simpl; [|by apply Forall_nil].
  intros i j mi mj _ Hi. by rewrite lookup_nil in Hi.
Qed.

(** The caller gets the [stats] of the final state. *)
Lemma run_returns_stats w urls C st s :
  run_crawl_parallel w urls C = (Ok st, s) → st = stats s.
Proof.
  unfold run_crawl_parallel, crawl_parallel.
  generalize (initial_state w). intros s0.
  unfold mbind, M_bind.
  repeat match goal with
         | |- context [match ?m ?x with _ => _ end] =>
             destruct (m x) as [[?|?] ?]; try discriminate
         end.
  unfold get_stats. by intros [= <- <-].
Qed.

(** C8: [log_memory] keeps the peak as the running maximum -- after a
    call it is the larger of the previous peak and the current memory, and
    so is the peak it reports in megabytes -- hence along the snapshots of
    one run the peak never goes down and is never below the current memory
    of the same snapshot. *)
Theorem peak_memory_running_max (w : World) :
  (∀ prefix s, ∃ m,
     (log_memory w prefix s).1 = Ok m
     ∧ current_mb m = rss (proc_sample w (readings s)) / MiB
     ∧ peak_memory (memory_tracker (log_memory w prefix s).2)
       = Z.max (peak_memory (memory_tracker s)) (rss (proc_sample w (readings s)))
     ∧ peak_mb m = Z.max (peak_memory (memory_tracker s) / MiB) (current_mb m))
  ∧ (∀ urls C,
       let snaps := memory_stats (stats (run_crawl_parallel w urls C).2) in
       peak_monotone snaps ∧ Forall (λ m, current_mb m ≤ peak_mb m) snaps)
  ∧ (∀ urls C st s,
       run_crawl_parallel w urls C = (Ok st, s) →
       peak_monotone (memory_stats st)
       ∧ Forall (λ m, current_mb m ≤ peak_mb m) (memory_stats st)).
Proof.
  assert (∀ urls C,
            let snaps := memory_stats (stats (run_crawl_parallel w urls C).2) in
            peak_monotone snaps ∧ Forall (λ m, current_mb m ≤ peak_mb m) snaps)
    as Hrun.
  { intros urls C.
    destruct (snapshots_ok_crawl_parallel w urls C (initial_state w)
                (snapshots_ok_initial w)) as [Hmono Hall].
    split; [exact Hmono|].
    eapply Forall_impl; [exact Hall|]. simpl. by intros m [? _]. }
  split; [|split; [exact Hrun|]].
  - intros prefix s. eexists. split; [reflexivity|]. simpl.
    rewrite update_peak_max, div_MiB_max. by repeat split.
  - intros urls C st s Hok. specialize (Hrun urls C).
    rewrite Hok in Hrun. simpl in Hrun.
    by rewrite (run_returns_stats _ _ _ _ _ Hok).
Qed.

(** * Recording results *)

Lemma bind_ok_inv {A B} (m : M A) (f : A → M B) s b s' :
  (m ≫= f) s = (Ok b, s') →
  ∃ a s1, m s = (Ok a, s1) ∧ f a s1 = (Ok b, s').
Proof.
  unfold mbind, M_bind. destruct (m s) as [[a|e] s1]; [|done]. eauto.
Qed.

Lemma count_ok_app l1 l2 : count_ok (l1 ++ l2) = count_ok l1 + count_ok l2.
Proof. unfold count_ok. rewrite filter_app, length_app. lia. Qed.

Lemma count_ok_single o : count_ok [o] = if counts_as_success o then 1 else 0.
Proof.
  unfold count_ok. rewrite filter_cons.
  destruct (counts_as_success o); by case_decide.
Qed.

Lemma histogram_from_app d l1 l2 :
  histogram_from d (l1 ++ l2) = histogram_from (histogram_from d l1) l2.
Proof. apply foldl_app. Qed.

Lemma pages_from_app n l1 l2 :
  pages_from n (l1 ++ l2) = pages_from n l1 ++ pages_from (n + count_ok l1) l2.
Proof.
  revert n. induction l1 as [|o l1 IH]; intros n; simpl.
  - f_equal. unfold count_ok. simpl. lia.
  - change (o :: l1) with ([o] ++ l1). rewrite count_ok_app, count_ok_single.
    destruct o as [e|r]; simpl.
    + by rewrite IH.
    + destruct (success r) eqn:Hr; simpl.
      * replace (n + (1 + count_ok l1)) with (n + 1 + count_ok l1) by lia.
        by destruct (truthy (markdown r)); rewrite IH.
      * by rewrite IH.
Qed.

Lemma failure_lines_app l1 l2 :
  failure_lines (l1 ++ l2) = failure_lines l1 ++ failure_lines l2.
Proof. apply omap_app. Qed.

Lemma advances_refl s : advances [] [] s s.
Proof.
  unfold advances, count_ok, Py.len. simpl.
  rewrite !app_nil_r. repeat split; lia.
Qed.

Lemma advances_trans d1 d2 i1 i2 s s1 s2 :
  advances d1 i1 s s1 → advances d2 i2 s1 s2 →
  advances (d1 ++ d2) (i1 ++ i2) s s2.
Proof.
  intros (Ha1 & Hb1 & Hc1 & Hd1 & He1 & Hf1) (Ha2 & Hb2 & Hc2 & Hd2 & He2 & Hf2).
  unfold advances. rewrite fmap_app, count_ok_app.
  repeat split.
  - lia.
  - unfold Py.len in *. rewrite length_app. lia.
  - by rewrite histogram_from_app, <- Hc1.
  - by rewrite pages_from_app, Hd2, Hd1, Ha1, app_assoc.
  - by rewrite failure_lines_app, He2, He1, app_assoc.
  - by rewrite Hf2, Hf1, app_assoc.
Qed.

Lemma advances_step d1 d2 i1 i2 d i s s1 s2 :
  advances d1 i1 s s1 → advances d2 i2 s1 s2 →
  d = d1 ++ d2 → i = i1 ++ i2 →
  advances d i s s2.
Proof. intros H1 H2 -> ->. by eapply advances_trans. Qed.

(** Events that are neither a write, an error line nor a dispatch, and the
    updates of the snapshots, record nothing. *)
Lemma advances_quiet s s' :
  success_count (stats s') = success_count (stats s) →
  fail_count (stats s') = fail_count (stats s) →
  errors (stats s') = errors (stats s) →
  (∃ t, trace s' = trace s ++ t
        ∧ writes t = [] ∧ error_lines t = [] ∧ dispatched t = []) →
  advances [] [] s s'.
Proof.
  intros Ha Hb Hc (t & Ht & Hw & He & Hd).
  unfold advances, count_ok, Py.len, writes, error_lines, dispatched in *.
  rewrite Ht, !omap_app, Hw, He, Hd. simpl.
  rewrite !app_nil_r. repeat split; [lia|lia|done].
Qed.

(** An exception object that is not an [Exception] cannot be recorded:
    reading its [success] raises and nothing is counted. *)
Lemma record_result_unrecordable w url o s :
  recordable o = false →
  ∃ e, o = Raised e ∧ is_Exception e = false
       ∧ record_result w url o s = (Raise (no_success_attribute e), s).
Proof.
  destruct o as [e|r]; [|done]. simpl. intros He. exists e.
  unfold record_result. by rewrite He.
Qed.

Lemma record_result_ok_recordable w url o s s' :
  record_result w url o s = (Ok tt, s') → recordable o = true.
Proof.
  destruct (recordable o) eqn:Hrec; [done|].
  destruct (record_result_unrecordable w url o s Hrec) as (e & _ & _ & ->). done.
Qed.

Lemma record_result_advances w url o s :
  recordable o = true →
  advances [] [(url, o)] s (record_result w url o s).2.
Proof.
  intros Hrec. unfold advances, record_result, Py.len, failure_lines.
  unfold writes, error_lines, dispatched.
  simpl. rewrite count_ok_single.
  destruct o as [e|r]; simpl in *.
  - rewrite Hrec. simpl.
    rewrite !omap_app. simpl. rewrite !app_nil_r. repeat split; lia.
  - destruct (success r) eqn:Hr; simpl.
    + destruct (truthy (markdown r)) as [md|]; simpl.
      * unfold mbind, M_bind, write_text, mbind, M_bind. simpl.
        destruct (fs_write w _ md); simpl;
          rewrite !omap_app; simpl; rewrite !app_nil_r; repeat split; lia.
      * rewrite !app_nil_r. repeat split; lia.
    + rewrite !omap_app. simpl. rewrite !app_nil_r. repeat split; lia.
Qed.

Lemma record_result_ok w url o s :
  recordable o = true →
  (∀ name content, fs_write w name content = None) →
  (record_result w url o s).1 = Ok tt.
Proof.
  intros Hrec Hw. unfold record_result.
  destruct o as [e|r]; simpl in *; [by rewrite Hrec|].
  destruct (success r); simpl; [|done].
  destruct (truthy (markdown r)) as [md|]; simpl; [|done].
  unfold mbind, M_bind, write_text, mbind, M_bind. simpl. by rewrite Hw.
Qed.

(** The loop over the results of a batch. *)
Lemma record_loop_advances w items s s' :
  for_each items (λ '(url, o), record_result w url o) s = (Ok tt, s') →
  advances [] items s s'.
Proof.
  revert s. induction items as [|[url o] items IH]; intros s; simpl.
  - intros [= <-]. apply advances_refl.
  - intros Hrun. apply bind_ok_inv in Hrun as ([] & s1 & H1 & H2).
    change ((url, o) :: items) with ([(url, o)] ++ items).
    change (@nil string) with (@nil string ++ []).
    eapply advances_trans; [|by apply IH].
    pose proof (record_result_advances w url o s
                  (record_result_ok_recordable w url o s s1 H1)) as Hadv.
    by rewrite H1 in Hadv.
Qed.

(** A loop that ends without an exception has recorded every result. *)
Lemma record_loop_recordable w items s s' :
  for_each items (λ '(url, o), record_result w url o) s = (Ok tt, s') →
  Forall (λ it, recordable it.2 = true) items.
Proof.
  revert s. induction items as [|[url o] items IH]; intros s; simpl; [done|].
  intros Hrun. apply bind_ok_inv in Hrun as ([] & s1 & H1 & H2).
  constructor; [by eapply record_result_ok_recordable|by eapply IH].
Qed.

Lemma record_loop_ok w items s :
  Forall (λ it, recordable it.2 = true) items →
  (∀ name content, fs_write w name content = None) →
  (for_each items (λ '(url, o), record_result w url o) s).1 = Ok tt.
Proof.
  intros Hrec Hw. revert s.
  induction Hrec as [|[url o] items Ho _ IH]; intros s; simpl.
  - done.
  - pose proof (record_result_ok w url o s Ho Hw) as Hok.
    unfold mbind, M_bind.
    destruct (record_result w url o s) as [[[]|e] s1]; [|done]. apply IH.
Qed.

(** * One batch *)

Lemma batch_tasks_lookup batch_num batch j :
  batch_tasks batch_num batch !! j
  = (λ url, (url, session_id batch_num (Z.of_nat j))) <$> batch !! j.
Proof.
  unfold batch_tasks, Py.enumerate.
  rewrite list_lookup_fmap, list_lookup_imap.
  by destruct (batch !! j).
Qed.

Lemma batch_tasks_urls batch_num batch : (batch_tasks batch_num batch).*1 = batch.
Proof.
  apply list_eq. intros j. rewrite list_lookup_fmap, batch_tasks_lookup.
  by destruct (batch !! j).
Qed.

Lemma length_batch_tasks batch_num batch :
  length (batch_tasks batch_num batch) = length batch.
Proof. by rewrite <- (batch_tasks_urls batch_num batch) at 2; rewrite length_fmap. Qed.

Lemma batch_items_urls w batch_num batch : (batch_items w batch_num batch).*1 = batch.
Proof.
  unfold batch_items. apply fst_zip.
  by rewrite length_fmap, length_batch_tasks.
Qed.

Lemma batch_items_outcomes w batch_num batch :
  (batch_items w batch_num batch).*2 = task_outcome w <$> batch_tasks batch_num batch.
Proof.
  unfold batch_items. apply snd_zip.
  by rewrite length_fmap, length_batch_tasks.
Qed.

Lemma omap_done_nil {B} (f : Event → option B)
    (tasks : list (string * string)) (order : list nat) :
  (∀ sid, f (EvDone sid) = None) →
  omap f (omap (λ k, (λ t, EvDone t.2) <$> tasks !! k) order) = [].
Proof.
  intros Hf. induction order as [|k order IH]; simpl; [done|].
  destruct (tasks !! k) as [t|]; simpl; [|done]. by rewrite Hf.
Qed.

Lemma gather_events_quiet w tasks :
  writes (gather_events w tasks) = []
  ∧ error_lines (gather_events w tasks) = []
  ∧ dispatched (gather_events w tasks) = tasks.*1
  ∧ close_calls (gather_events w tasks) = 0%nat.
Proof.
  unfold gather_events, writes, error_lines, dispatched, close_calls.
  rewrite !omap_app, filter_app, length_app.
  rewrite !omap_done_nil by done.
  rewrite !app_nil_r. repeat split.
  - by induction tasks as [|t l IH].
  - by induction tasks as [|t l IH].
  - induction tasks as [|t l IH]; simpl; [done|]. by f_equal.
  - assert (filter is_close ((λ t, EvArun t.1 t.2) <$> tasks) = []) as ->.
    { by induction tasks as [|t l IH]. }
    simpl. generalize (completion_order w tasks). intros order.
    induction order as [|k order IH]; simpl; [done|].
    destruct (tasks !! k) as [t|]; simpl; [|done].
    by rewrite filter_cons_False by (by intros []).
Qed.

Lemma take_snapshot_advances w prefix s m s1 :
  take_snapshot w prefix s = (Ok m, s1) → advances [] [] s s1.
Proof.
  intros Hrun.
  destruct (take_snapshot_spec w prefix s)
    as (m' & s1' & Heq & _ & _ & _ & _ & Ha & Hb & Hc & _ & Ht).
  rewrite Hrun in Heq. injection Heq as <- <-.
  apply advances_quiet; [done..|]. by eexists.
Qed.

Lemma collect_batch_advances w batch_num batch s s' :
  collect_batch w batch (batch_tasks batch_num batch) s = (Ok tt, s') →
  advances batch (batch_items w batch_num batch) s s'.
Proof.
  unfold collect_batch. intros Hrun.
  apply bind_ok_inv in Hrun as (results & s1 & Hg & Hloop).
  rewrite gather_eq in Hg. injection Hg as <- <-.
  apply record_loop_advances in Hloop.
  eapply (advances_step batch [] []); [|exact Hloop|by rewrite app_nil_r|done].
  destruct (gather_events_quiet w (batch_tasks batch_num batch))
    as (Hw & He & Hd & _).
  rewrite batch_tasks_urls in Hd.
  unfold advances, writes, error_lines, dispatched, count_ok, Py.len in *.
  simpl. rewrite !omap_app, Hw, He, Hd, !app_nil_r.
  repeat split; lia.
Qed.

Lemma log_progress_advances urls s : log_progress urls s = (Ok tt, (log_progress urls s).2)
  ∧ advances [] [] s (log_progress urls s).2.
Proof.
  split; [done|]. apply advances_quiet; [done..|]. by eexists.
Qed.

Lemma batch_step_advances w urls C batch_num batch s s' :
  batch_step w urls C batch_num batch s = (Ok tt, s') →
  advances batch (batch_items w batch_num batch) s s'.
Proof.
  unfold batch_step. intros Hrun.
  apply bind_ok_inv in Hrun as (m & s1 & Hsnap & Hrun).
  apply bind_ok_inv in Hrun as ([] & s2 & Hcol & Hlog).
  apply take_snapshot_advances in Hsnap.
  apply collect_batch_advances in Hcol.
  destruct (log_progress_advances urls s2) as [Heq Hadv].
  rewrite Hlog in Hadv. simpl in Hadv.
  pose proof (advances_trans _ _ _ _ _ _ _ Hsnap
                (advances_trans _ _ _ _ _ _ _ Hcol Hadv)) as H.
  simpl in H. by rewrite !app_nil_r in H.
Qed.

(** * The batch loop *)

Lemma batches_loop_advances w urls C (bl : list (Z * list string)) s s' :
  for_each bl (λ '(num, batch), batch_step w urls C num batch) s = (Ok tt, s') →
  advances (concat bl.*2)
           (concat ((λ '(num, batch), batch_items w num batch) <$> bl)) s s'.
Proof.
  revert s. induction bl as [|[num batch] bl IH]; intros s; simpl.
  - intros [= <-]. apply advances_refl.
  - intros Hrun. apply bind_ok_inv in Hrun as ([] & s1 & H1 & H2).
    eapply advances_trans; [by eapply batch_step_advances|by apply IH].
Qed.

Lemma enumerate_cons {A} (start : Z) (x : A) (l : list A) :
  Py.enumerate start (x :: l) = (start, x) :: Py.enumerate (start + 1) l.
Proof.
  unfold Py.enumerate. simpl. f_equal; [f_equal; lia|].
  apply imap_ext. intros k y _. simpl. f_equal. lia.
Qed.

(** The loop runs over the batches of [batches], numbered from one. *)
Lemma batch_loop_batches w urls C s :
  batch_loop w urls C s =
  match batches urls C with
  | Ok bs =>
      for_each (Py.enumerate 1 bs)
               (λ '(num, batch), batch_step w urls C num batch) s
  | Raise e => (Raise e, s)
  end.
Proof.
  unfold batch_loop, batches.
  destruct (batch_starts urls C) as [starts|e]; [|done].
  change ((lift_res (Ok starts) ≫= _) s)
    with (for_each (Py.enumerate 1 starts)
            (λ '(batch_num, i), batch_body w urls C batch_num i) s).
  generalize 1. intros n0. revert n0 s.
  induction starts as [|i starts IH]; intros n0 s; [done|].
  rewrite fmap_cons, !enumerate_cons. simpl.
  unfold mbind, M_bind, batch_body at 1.
  destruct (batch_step w urls C n0 (batch_at urls C i) s) as [[[]|e] s1]; [|done].
  apply IH.
Qed.

(** * The finally block and the whole call *)

Lemma finalize_close_fails w urls e s :
  engine_close w = Some e →
  finalize w urls s = (Raise e, add_trace closing s).
Proof.
  intros Hc. unfold finalize, log, emit, mbind, M_bind. simpl.
  rewrite Hc. simpl. by rewrite add_trace_add_trace.
Qed.

Lemma finalize_close_ok w urls s :
  engine_close w = None →
  ∃ m s2,
    take_snapshot w "Final stats" (add_trace closing s) = (Ok m, s2)
    ∧ finalize w urls s
      = (match fs_write w "summary.txt" (summary urls (stats s2) m) with
         | Some e => Raise e
         | None => Ok tt
         end,
         add_trace [EvWrite "summary.txt" (summary urls (stats s2) m)] s2).
Proof.
  intros Hc.
  destruct (take_snapshot_spec w "Final stats" (add_trace closing s))
    as (m & s2 & Hsnap & _).
  exists m, s2. split; [done|].
  unfold finalize, log, emit. unfold mbind at 1 2 3, M_bind. simpl.
  rewrite Hc. simpl. rewrite add_trace_add_trace.
  change ([EvLog INFO "Closing crawler..."] ++ [EvClose]) with closing.
  erewrite bind_ok by exact Hsnap.
  unfold get_stats, write_text, emit, mbind, M_bind. simpl.
  by destruct (fs_write w "summary.txt" _).
Qed.

Lemma run_start_fails w urls C e :
  engine_start w = Some e →
  run_crawl_parallel w urls C = (Raise e, started_state w urls C).
Proof.
  intros Hs. unfold run_crawl_parallel, crawl_parallel, log, emit, mbind, M_bind.
  simpl. rewrite Hs. simpl. by rewrite add_trace_add_trace.
Qed.

Lemma run_started w urls C :
  engine_start w = None →
  run_crawl_parallel w urls C =
  match try_finally (batch_loop w urls C) (finalize w urls)
          (started_state w urls C) with
  | (Ok _, s2) => (Ok (stats s2), s2)
  | (Raise e, s2) => (Raise e, s2)
  end.
Proof.
  intros Hs. unfold run_crawl_parallel, crawl_parallel, log, emit.
  unfold mbind at 1 2 3 4, M_bind. simpl. rewrite Hs. simpl.
  rewrite add_trace_add_trace.
  change (add_trace _ (initial_state w)) with (started_state w urls C).
  by destruct (try_finally _ _ _) as [[[]|e] s2].
Qed.

Lemma close_calls_app t1 t2 :
  close_calls (t1 ++ t2) = (close_calls t1 + close_calls t2)%nat.
Proof. unfold close_calls. by rewrite filter_app, length_app. Qed.

(** The batch loop never closes the crawler. *)
Lemma batch_loop_close_calls w urls C s :
  close_calls (trace (batch_loop w urls C s).2) = close_calls (trace s).
Proof.
  apply (invariant_batch_loop w (λ s', close_calls (trace s') = close_calls (trace s)));
    [| | |done].
  - intros ev s' Hev Hs'. simpl. rewrite close_calls_app, Hs'.
    unfold close_calls at 2. destruct ev; try discriminate; simpl; lia.
  - by intros f _ s' Hs'.
  - intros prefix s' Hs'.
    destruct (take_snapshot_spec w prefix s') as (m & s1 & -> & H).
    destruct H as (_ & _ & _ & _ & _ & _ & _ & _ & Ht). simpl.
    rewrite Ht, close_calls_app, Hs'. unfold close_calls at 2. simpl. lia.
Qed.

(** What a call does once the crawler has started, in terms of the state
    [s1] in which the batch loop ends and of its result [r]. *)
Lemma run_after_loop w urls C r s1 :
  engine_start w = None →
  batch_loop w urls C (started_state w urls C) = (r, s1) →
  match engine_close w with
  | Some e =>
      run_crawl_parallel w urls C = (Raise e, add_trace closing s1)
  | None =>
      ∃ m s2,
        take_snapshot w "Final stats" (add_trace closing s1) = (Ok m, s2)
        ∧ run_crawl_parallel w urls C
          = (match fs_write w "summary.txt" (summary urls (stats s2) m), r with
             | Some e, _ => Raise e
             | None, Ok _ => Ok (stats s2)
             | None, Raise e => Raise e
             end,
             add_trace [EvWrite "summary.txt" (summary urls (stats s2) m)] s2)
  end.
Proof.
  intros Hs Hloop. rewrite (run_started _ _ _ Hs).
  unfold try_finally. rewrite Hloop.
  destruct (engine_close w) as [e|] eqn:Hc.
  - by rewrite (finalize_close_fails _ _ e).
  - destruct (finalize_close_ok w urls s1 Hc) as (m & s2 & Hsnap & ->).
    exists m, s2. split; [done|].
    destruct (fs_write w "summary.txt" _); [done|]. by destruct r as [[]|e].
Qed.

(** * The results of a run by position *)

Lemma fmap_concat {A B} (f : A → B) (ls : list (list A)) :
  f <$> concat ls = concat ((λ l : list A, f <$> l) <$> ls).
Proof.
  induction ls as [|l ls IH]; simpl; [done|]. by rewrite fmap_app, IH.
Qed.

Lemma enumerate_snd {A} (start : Z) (l : list A) : (Py.enumerate start l).*2 = l.
Proof.
  revert start. induction l as [|x l IH]; intros start; [done|].
  rewrite enumerate_cons. simpl. by rewrite IH.
Qed.

Lemma batch_tasks_imap batch_num batch :
  batch_tasks batch_num batch
  = imap (λ j url, (url, session_id batch_num (Z.of_nat j))) batch.
Proof.
  apply list_eq. intros j. rewrite batch_tasks_lookup, list_lookup_imap.
  by destruct (batch !! j).
Qed.

(** Numbering the items chunk by chunk is numbering them by quotient and
    remainder of their position. *)
Lemma concat_imap_chunks {A B} (F : nat → nat → A → B) (c n : nat) (l : list A) :
  (0 < c)%nat →
  concat (imap (λ k b, imap (F k) b) (chunks c n l))
  = imap (λ g, F (g `div` c)%nat (g `mod` c)%nat) (take (n * c) l).
Proof.
  intros Hc. induction n as [|n IH]; [done|].
  rewrite chunks_S, imap_app, concat_app, IH. simpl. rewrite app_nil_r.
  replace (c + n * c)%nat with (n * c + c)%nat by lia.
  rewrite <- take_take_drop, imap_app. f_equal.
  rewrite length_chunks, Nat.add_0_r.
  apply imap_ext. intros j x Hj. simpl.
  apply lookup_take_Some in Hj as [Hj Hjc].
  rewrite lookup_drop in Hj. apply lookup_lt_Some in Hj.
  rewrite length_take_le by lia.
  replace (n * c + j)%nat with (j + n * c)%nat by lia.
  rewrite Nat.div_add, Nat.Div0.mod_add by lia.
  rewrite Nat.div_small, Nat.mod_small by lia. done.
Qed.

Lemma numbered_batches_pos urls (C : Z) :
  0 < C →
  numbered_batches urls C
  = Py.enumerate 1 (chunks (Z.to_nat C) (Z.to_nat (batch_total urls C)) urls).
Proof. intros HC. unfold numbered_batches. by rewrite batches_pos. Qed.

Lemma run_items_urls w urls (C : Z) : 0 < C → (run_items w urls C).*1 = urls.
Proof.
  intros HC. unfold run_items. rewrite numbered_batches_pos by done.
  rewrite fmap_concat, <- list_fmap_compose.
  destruct (batch_total_nat urls C HC) as ((Hc & Hn & _) & _).
  transitivity (concat (chunks (Z.to_nat C) (Z.to_nat (batch_total urls C)) urls)).
  - f_equal. generalize (chunks (Z.to_nat C) (Z.to_nat (batch_total urls C)) urls).
    intros bs. generalize 1. induction bs as [|b bs IH]; intros start; [done|].
    rewrite enumerate_cons, fmap_cons, IH. simpl. by rewrite batch_items_urls.
  - rewrite concat_chunks. by apply take_ge.
Qed.

Lemma run_items_outcomes w urls (C : Z) :
  0 < C → (run_items w urls C).*2 = item_outcomes w (Z.to_nat C) urls.
Proof.
  intros HC. unfold run_items, item_outcomes.
  rewrite numbered_batches_pos by done.
  destruct (batch_total_nat urls C HC) as ((Hc & Hn & _) & _).
  set (c := Z.to_nat C) in *. set (n := Z.to_nat (batch_total urls C)) in *.
  transitivity
    (imap (λ g url, engine_arun w url
                      (session_id (Z.of_nat (g `div` c) + 1) (Z.of_nat (g `mod` c))))
          (take (n * c) urls)); [|by rewrite take_ge].
  rewrite <- (concat_imap_chunks
                (λ k j url, engine_arun w url
                              (session_id (Z.of_nat k + 1) (Z.of_nat j)))) by done.
  rewrite fmap_concat, <- list_fmap_compose. f_equal.
  unfold Py.enumerate. rewrite fmap_imap. apply imap_ext.
  intros k batch _. simpl. rewrite batch_items_outcomes, batch_tasks_imap.
  rewrite fmap_imap. apply imap_ext. intros j url _. simpl.
  unfold task_outcome. simpl. do 2 f_equal. lia.
Qed.

(** The pages of the loop are the pages by position. *)
Lemma pages_from_page_of pre outs :
  pages_from (count_ok pre) outs
  = omap id (imap (λ g, page_of (pre ++ outs) (length pre + g)) outs).
Proof.
  revert pre. induction outs as [|o outs IH]; intros pre; [done|].
  rewrite imap_cons.
  assert (imap ((λ g, page_of (pre ++ o :: outs) (length pre + g)) ∘ S) outs
          = imap (λ g, page_of ((pre ++ [o]) ++ outs) (length (pre ++ [o]) + g)) outs)
    as ->.
  { apply imap_ext. intros g x _. simpl.
    rewrite <- app_assoc, length_app. simpl. f_equal. lia. }
  specialize (IH (pre ++ [o])). rewrite count_ok_app, count_ok_single in IH.
  assert (take (S (length pre + 0)) (pre ++ o :: outs) = pre ++ [o]) as Htake.
  { rewrite Nat.add_0_r. rewrite (cons_middle o pre outs), app_assoc.
    apply take_app_length'. rewrite length_app. simpl. lia. }
  csimpl. rewrite <- IH. unfold page_of. rewrite Htake.
  destruct o as [e|r]; simpl.
  - by rewrite Z.add_0_r.
  - destruct (success r) eqn:Hr; simpl.
    + rewrite count_ok_app, count_ok_single. simpl. rewrite Hr.
      by destruct (truthy (markdown r)).
    + by rewrite Z.add_0_r.
Qed.

Lemma pages_from_page_writes outs : pages_from 0 outs = page_writes outs.
Proof. apply (pages_from_page_of [] outs). Qed.

Lemma count_partition outs :
  Py.len outs - count_ok outs = count_raised outs + count_no_content outs.
Proof.
  unfold Py.len, count_ok, count_raised, count_no_content.
  induction outs as [|o outs IH]; [done|].
  rewrite !filter_cons.
  destruct o as [e|r]; simpl; [|destruct (success r); simpl];
    repeat case_decide; try done; simpl; lia.
Qed.

Lemma started_state_quiet w urls C :
  close_calls (trace (started_state w urls C)) = 0%nat
  ∧ dispatched (trace (started_state w urls C)) = []
  ∧ writes (trace (started_state w urls C)) = []
  ∧ error_lines (trace (started_state w urls C)) = []
  ∧ stats (started_state w urls C) = stats_init.
Proof. done. Qed.

(** A call that returns went through every batch, closed the crawler and
    wrote the summary. *)
Lemma run_completed w urls C st s :
  run_crawl_parallel w urls C = (Ok st, s) →
  ∃ s1 m,
    engine_start w = None ∧ engine_close w = None
    ∧ batch_loop w urls C (started_state w urls C) = (Ok tt, s1)
    ∧ advances (concat (numbered_batches urls C).*2) (run_items w urls C)
               (started_state w urls C) s1
    ∧ st = stats s
    ∧ success_count st = success_count (stats s1)
    ∧ fail_count st = fail_count (stats s1)
    ∧ errors st = errors (stats s1)
    ∧ memory_stats st = memory_stats (stats s1) ++ [m]
    ∧ trace s = trace s1 ++ closing
                ++ [EvLog INFO (memory_line "Final stats" m);
                    EvWrite "summary.txt" (summary urls st m)].
Proof.
  intros Hrun.
  destruct (engine_start w) as [e|] eqn:Hs.
  { by rewrite (run_start_fails _ _ _ e) in Hrun. }
  destruct (batch_loop w urls C (started_state w urls C)) as [r s1] eqn:Hloop.
  pose proof (run_after_loop w urls C r s1 Hs Hloop) as Hafter.
  destruct (engine_close w) as [e|] eqn:Hc.
  { by rewrite Hafter in Hrun. }
  destruct Hafter as (m & s2 & Hsnap & Hafter). rewrite Hafter in Hrun.
  destruct (fs_write w "summary.txt" _); [done|].
  destruct r as [[]|e]; [|done]. injection Hrun as <- <-.
  destruct (take_snapshot_spec w "Final stats" (add_trace closing s1))
    as (m' & s2' & Heq & _ & _ & _ & Hmem & Ha & Hb & Hd & _ & Ht).
  rewrite Hsnap in Heq. injection Heq as <- <-. simpl in Hmem, Ha, Hb, Hd, Ht.
  exists s1, m. do 3 (split; [done|]). split.
  - pose proof (batch_loop_batches w urls C (started_state w urls C)) as Hb'.
    rewrite Hloop in Hb'. unfold run_items, numbered_batches.
    destruct (batches urls C) as [bs|e]; [|done]. symmetry in Hb'.
    exact (batches_loop_advances w urls C (Py.enumerate 1 bs) _ _ Hb').
  - do 5 (split; [done|]). simpl. by rewrite Ht, <- !app_assoc.
Qed.

(** The same for a positive limit, by position in the url list. *)
Lemma run_completed_pos w urls C st s :
  0 < C →
  run_crawl_parallel w urls C = (Ok st, s) →
  let outs := item_outcomes w (Z.to_nat C) urls in
  ∃ m,
    success_count st = count_ok outs
    ∧ fail_count st = Py.len urls - count_ok outs
    ∧ errors st = histogram_from [] outs
    ∧ last (memory_stats st) = Some m
    ∧ dispatched (trace s) = urls
    ∧ writes (trace s) = page_writes outs ++ [("summary.txt", summary urls st m)]
    ∧ error_lines (trace s) = failure_lines (run_items w urls C).
Proof.
  intros HC Hrun outs.
  destruct (run_completed w urls C st s Hrun)
    as (s1 & m & _ & _ & _ & Hadv & _ & Ha & Hb & Hd & Hmem & Ht).
  destruct Hadv as (Ha1 & Hb1 & Hd1 & Hw1 & He1 & Hs1).
  destruct (started_state_quiet w urls C) as (_ & Hq1 & Hq2 & Hq3 & Hq4).
  rewrite Hq4 in Ha1, Hb1, Hd1, Hw1. rewrite Hq1 in Hs1.
  rewrite Hq2 in Hw1. rewrite Hq3 in He1. simpl in *.
  rewrite run_items_outcomes in Ha1, Hb1, Hd1, Hw1 by done. fold outs in Ha1, Hb1, Hd1, Hw1.
  assert (Py.len (run_items w urls C) = Py.len urls) as Hlen.
  { unfold Py.len. by rewrite <- (run_items_urls w urls C HC) at 2; rewrite length_fmap. }
  assert (concat (numbered_batches urls C).*2 = urls) as Hcat.
  { rewrite numbered_batches_pos, enumerate_snd, concat_chunks by done.
    apply take_ge. by destruct (batch_total_nat urls C HC) as ((_ & ? & _) & _). }
  exists m. split; [lia|]. split; [lia|]. split; [congruence|].
  split; [by rewrite Hmem, last_snoc|].
  unfold dispatched, writes, error_lines in *. rewrite Ht, !omap_app. simpl.
  rewrite Hs1, Hw1, He1, Hcat, !app_nil_r, pages_from_page_writes. done.
Qed.

(** A loop that ends without an exception met no exception object that is
    not an [Exception]. *)
Lemma batches_loop_recordable w urls C (bl : list (Z * list string)) s s' :
  for_each bl (λ '(num, batch), batch_step w urls C num batch) s = (Ok tt, s') →
  Forall (λ it, recordable it.2 = true)
         (concat ((λ '(num, batch), batch_items w num batch) <$> bl)).
Proof.
  revert s. induction bl as [|[num batch] bl IH]; intros s; simpl; [done|].
  intros Hrun. apply bind_ok_inv in Hrun as ([] & s1 & H1 & H2).
  apply Forall_app_2; [|by eapply IH].
  unfold batch_step in H1.
  apply bind_ok_inv in H1 as (m & s2 & _ & H1).
  apply bind_ok_inv in H1 as ([] & s3 & Hcol & _).
  unfold collect_batch in Hcol.
  apply bind_ok_inv in Hcol as (results & s4 & Hg & Hloop).
  rewrite gather_eq in Hg. injection Hg as <- <-.
  by apply record_loop_recordable in Hloop.
Qed.

Lemma run_completed_recordable w urls C st s :
  0 < C →
  run_crawl_parallel w urls C = (Ok st, s) →
  Forall (λ o, recordable o = true) (item_outcomes w (Z.to_nat C) urls).
Proof.
  intros HC Hrun.
  destruct (run_completed w urls C st s Hrun) as (s1 & m & _ & _ & Hloop & _).
  rewrite <- (run_items_outcomes w urls C HC). apply Forall_fmap.
  rewrite batch_loop_batches in Hloop. unfold run_items, numbered_batches.
  destruct (batches urls C) as [bs|e]; [|done].
  exact (batches_loop_recordable w urls C _ _ _ Hloop).
Qed.

(** Once started, the crawler is closed exactly once. *)
Lemma run_close_calls w urls C :
  engine_start w = None →
  close_calls (trace (run_crawl_parallel w urls C).2) = 1%nat.
Proof.
  intros Hs.
  destruct (batch_loop w urls C (started_state w urls C)) as [r s1] eqn:Hloop.
  pose proof (batch_loop_close_calls w urls C (started_state w urls C)) as Hcc.
  rewrite Hloop in Hcc. simpl in Hcc.
  pose proof (run_after_loop w urls C r s1 Hs Hloop) as Hrun.
  destruct (engine_close w) as [e|].
  - rewrite Hrun. simpl. by rewrite close_calls_app, Hcc.
  - destruct Hrun as (m & s2 & Hsnap & ->). simpl.
    destruct (take_snapshot_spec w "Final stats" (add_trace closing s1))
      as (m' & s2' & Heq & _ & _ & _ & _ & _ & _ & _ & _ & Ht).
    rewrite Hsnap in Heq. injection Heq as <- <-. simpl in Ht.
    by rewrite Ht, !close_calls_app, Hcc.
Qed.

(** C4: once the crawler has started, [crawler.close()] is
    called exactly once however the batch loop ends; when that call returns,
    the final snapshot is taken after everything the batches did and is
    appended to the snapshots, and the summary is written last; when
    [crawler.start()] raises, its exception reaches the caller and the
    crawler is neither used nor closed. *)
Theorem close_exactly_once (w : World) (urls : list string) (C : Z) :
  let run := run_crawl_parallel w urls C in
  let after_loop := (batch_loop w urls C (started_state w urls C)).2 in
  (engine_start w = None →
   close_calls (trace run.2) = 1%nat
   ∧ close_calls (trace after_loop) = 0%nat
   ∧ (engine_close w = None →
      ∃ m,
        trace run.2
        = trace after_loop ++ closing
          ++ [EvLog INFO (memory_line "Final stats" m);
              EvWrite "summary.txt" (summary urls (stats run.2) m)]
        ∧ memory_stats (stats run.2) = memory_stats (stats after_loop) ++ [m]))
  ∧ (∀ e, engine_start w = Some e →
       run.1 = Raise e
       ∧ close_calls (trace run.2) = 0%nat
       ∧ dispatched (trace run.2) = []
       ∧ memory_stats (stats run.2) = []).
Proof.
  intros run after_loop. split.
  - intros Hs. split; [by apply run_close_calls|].
    destruct (batch_loop w urls C (started_state w urls C)) as [r s1] eqn:Hloop.
    pose proof (batch_loop_close_calls w urls C (started_state w urls C)) as Hcc.
    rewrite Hloop in Hcc. simpl in Hcc.
    pose proof (run_after_loop w urls C r s1 Hs Hloop) as Hrun.
    subst after_loop. simpl. fold run in Hrun.
    split; [done|]. intros Hc. rewrite Hc in Hrun.
    destruct Hrun as (m & s2 & Hsnap & ->). simpl.
    destruct (take_snapshot_spec w "Final stats" (add_trace closing s1))
      as (m' & s2' & Heq & _ & _ & _ & Hmem & _ & _ & _ & _ & Ht).
    rewrite Hsnap in Heq. injection Heq as <- <-. simpl in Hmem, Ht.
    exists m. by rewrite Ht, Hmem, <- !app_assoc.
  - intros e Hs. subst run. by rewrite (run_start_fails _ _ _ e).
Qed.

(** C4 on a run with a failing item, and on a crawler that does not start. *)
Lemma close_exactly_once_witness :
  close_calls
    (trace (run_crawl_parallel (make_world None demo_arun None no_write_fault)
              ["a"; "bad"; "c"] 2).2) = 1%nat
  ∧ close_calls
      (trace (run_crawl_parallel
                (make_world (Some (mkExn "BrowserError" "no browser")) demo_arun
                            None no_write_fault)
                ["a"; "bad"; "c"] 2).2) = 0%nat.
Proof.
  split.
  - exact (proj1 (proj1 (close_exactly_once
                           (make_world None demo_arun None no_write_fault)
                           ["a"; "bad"; "c"] 2) eq_refl)).
  - exact (proj1 (proj2 (proj2 (close_exactly_once
                                  (make_world (Some (mkExn "BrowserError" "no browser"))
                                              demo_arun None no_write_fault)
                                  ["a"; "bad"; "c"] 2)
                           (mkExn "BrowserError" "no browser") eq_refl))).
Defined.

(** C4, counterexample, a close that raises: the crawler was
    started and closed once, but the call ends with the close, so no final
    snapshot follows the one of the only batch and no summary is written. *)
Lemma close_failure_skips_final_snapshot :
  let w := make_world None demo_arun
                      (Some (mkExn "RuntimeError" "browser gone")) no_write_fault in
  let loop := batch_loop w ["a"] 1 (started_state w ["a"] 1) in
  let run := run_crawl_parallel w ["a"] 1 in
  engine_start w = None
  ∧ loop.1 = Ok tt
  ∧ close_calls (trace run.2) = 1%nat
  ∧ last (trace run.2) = Some EvClose
  ∧ memory_stats (stats run.2) = memory_stats (stats loop.2)
  ∧ length (memory_stats (stats run.2)) = 1%nat
  ∧ writes (trace run.2) = [("page_1.md", "# a")]
  ∧ run.1 = Raise (mkExn "RuntimeError" "browser gone").
Proof. vm_compute. by repeat split. Qed.

(** What [range] does with a limit that is not positive: zero makes the
    loop raise [ValueError] before the first batch, a negative limit makes
    it run no batch at all. *)
Lemma crawl_parallel_nonpositive_limit :
  let w := make_world None demo_arun None no_write_fault in
  (run_crawl_parallel w ["a"] 0).1
  = Raise (mkExn "ValueError" "range() arg 3 must not be zero")
  ∧ close_calls (trace (run_crawl_parallel w ["a"] 0).2) = 1%nat
  ∧ dispatched (trace (run_crawl_parallel w ["a"] (-1)).2) = []
  ∧ (success_count <$> (match (run_crawl_parallel w ["a"] (-1)).1 with
                        | Ok st => Some st
                        | Raise _ => None
                        end)) = Some 0.
Proof. vm_compute. by repeat split. Qed.

(** C6: when the batch loop ends with an exception, the
    [finally] block still calls [crawler.close()], once.  If the close
    returns, the final snapshot and the summary follow and the caller gets
    the exception of the loop, unless writing the summary raises.  If the
    close raises, its exception is the one the caller gets, in place of the
    one of the loop; nothing is logged about it and neither the final
    snapshot nor the summary is produced. *)
Theorem close_failure_replaces_error
    (w : World) (urls : list string) (C : Z) (e_loop : Exn) (s1 : State) :
  engine_start w = None →
  batch_loop w urls C (started_state w urls C) = (Raise e_loop, s1) →
  let run := run_crawl_parallel w urls C in
  close_calls (trace run.2) = 1%nat
  ∧ match engine_close w with
    | Some e_close =>
        run.1 = Raise e_close
        ∧ trace run.2 = trace s1 ++ closing
        ∧ stats run.2 = stats s1
    | None =>
        ∃ m,
          trace run.2
          = trace s1 ++ closing
            ++ [EvLog INFO (memory_line "Final stats" m);
                EvWrite "summary.txt" (summary urls (stats run.2) m)]
          ∧ memory_stats (stats run.2) = memory_stats (stats s1) ++ [m]
          ∧ run.1 = match fs_write w "summary.txt" (summary urls (stats run.2) m) with
                    | Some e_write => Raise e_write
                    | None => Raise e_loop
                    end
    end.
Proof.
  intros Hs Hloop run.
  split; [by apply run_close_calls|].
  pose proof (run_after_loop w urls C _ s1 Hs Hloop) as Hrun. fold run in Hrun.
  destruct (engine_close w) as [e|].
  - by rewrite Hrun.
  - destruct Hrun as (m & s2 & Hsnap & ->). simpl.
    destruct (take_snapshot_spec w "Final stats" (add_trace closing s1))
      as (m' & s2' & Heq & _ & _ & _ & Hmem & _ & _ & _ & _ & Ht).
    rewrite Hsnap in Heq. injection Heq as <- <-. simpl in Hmem, Ht.
    exists m. rewrite Ht, Hmem, <- !app_assoc.
    split; [done|]. split; [done|].
    by destruct (fs_write w "summary.txt" _).
Qed.

(** C6 where the first page cannot be written and the close raises too:
    the caller gets the exception of the close. *)
Lemma close_failure_replaces_error_witness :
  let w := make_world None demo_arun
                      (Some (mkExn "RuntimeError" "browser gone")) page_1_fault in
  (run_crawl_parallel w ["a"] 1).1 = Raise (mkExn "RuntimeError" "browser gone").
Proof.
  intros w.
  assert (batch_loop w ["a"] 1 (started_state w ["a"] 1)
          = (Raise (mkExn "OSError" "disk full"),
             (batch_loop w ["a"] 1 (started_state w ["a"] 1)).2)) as Hloop
    by (vm_compute; reflexivity).
  exact (proj1 (proj2 (close_failure_replaces_error
                         w ["a"] 1 _ _ eq_refl Hloop))).
Defined.

(** C6, counterexample: with the exception of a failed page write in
    flight, a close that raises is not logged, its exception is what the
    caller gets, and neither the final snapshot nor the summary is made. *)
Lemma close_failure_masks_error :
  let w := make_world None demo_arun
                      (Some (mkExn "RuntimeError" "browser gone")) page_1_fault in
  let loop := batch_loop w ["a"] 1 (started_state w ["a"] 1) in
  let run := run_crawl_parallel w ["a"] 1 in
  loop.1 = Raise (mkExn "OSError" "disk full")
  ∧ run.1 = Raise (mkExn "RuntimeError" "browser gone")
  ∧ trace run.2 = trace loop.2 ++ closing
  ∧ error_lines (trace run.2) = []
  ∧ writes (trace run.2) = [("page_1.md", "# a")]
  ∧ memory_stats (stats run.2) = memory_stats (stats loop.2).
Proof. vm_compute. by repeat split. Qed.

(** * The histogram of error kinds *)

Lemma dict_get_set_eq k v d def : dict_get k (dict_set k v d) def = v.
Proof.
  induction d as [|[k' v'] d IH]; simpl.
  - by rewrite decide_True.
  - destruct (decide (k = k')) as [->|Hne]; simpl.
    + by rewrite decide_True.
    + by rewrite decide_False.
Qed.

Lemma dict_get_set_ne k k' v d def :
  k ≠ k' → dict_get k' (dict_set k v d) def = dict_get k' d def.
Proof.
  intros Hne. induction d as [|[k0 v0] d IH]; simpl.
  - by rewrite decide_False.
  - destruct (decide (k = k0)) as [->|Hne0]; simpl.
    + by rewrite !decide_False.
    + by rewrite IH.
Qed.

Lemma dict_total_set k v d :
  dict_total (dict_set k v d) = dict_total d + v - dict_get k d 0.
Proof.
  unfold dict_total. induction d as [|[k' v'] d IH]; simpl; [lia|].
  destruct (decide (k = k')) as [->|Hne]; simpl; lia.
Qed.

(** Counting one more error of a kind. *)
Lemma count_error_spec k st :
  dict_get k (errors (count_error k st)) 0 = dict_get k (errors st) 0 + 1
  ∧ (∀ k', k' ≠ k →
       dict_get k' (errors (count_error k st)) 0 = dict_get k' (errors st) 0)
  ∧ dict_total (errors (count_error k st)) = dict_total (errors st) + 1.
Proof.
  unfold count_error. simpl. split; [apply dict_get_set_eq|]. split.
  - intros k' Hne. by apply dict_get_set_ne.
  - rewrite dict_total_set. lia.
Qed.

(** C5: [crawl_parallel] sorts each result that [gather] stores by the
    exception test and the [success] flag.  An [Exception] adds one to
    [fail_count] and one to the histogram entry of its type name.  An
    exception object that is not an [Exception], such as an
    [asyncio.CancelledError], is not sorted at all: reading its [success]
    raises [AttributeError], which ends the loop with nothing counted,
    logged or written.  A result whose [success] flag is set adds one to
    [success_count], also when its markdown is empty or missing (then no
    page is written), and leaves the histogram alone.  A result whose
    [success] flag is not set adds one to [fail_count] and never shows in
    the histogram. *)
Theorem record_result_classification (w : World) (url : string) (o : Outcome)
    (s : State) :
  let s' := (record_result w url o s).2 in
  match o with
  | Raised e =>
      if is_Exception e then
        (record_result w url o s).1 = Ok tt
        ∧ success_count (stats s') = success_count (stats s)
        ∧ fail_count (stats s') = fail_count (stats s) + 1
        ∧ dict_get (type_name e) (errors (stats s')) 0
          = dict_get (type_name e) (errors (stats s)) 0 + 1
        ∧ (∀ k, k ≠ type_name e →
             dict_get k (errors (stats s')) 0 = dict_get k (errors (stats s)) 0)
        ∧ dict_total (errors (stats s')) = dict_total (errors (stats s)) + 1
        ∧ writes (trace s') = writes (trace s)
      else
        record_result w url o s
        = (Raise (mkExn "AttributeError"
                        ("'" +:+ type_name e +:+ "' object has no attribute 'success'")),
           s)
  | Returned r =>
      errors (stats s') = errors (stats s)
      ∧ if success r then
          success_count (stats s') = success_count (stats s) + 1
          ∧ fail_count (stats s') = fail_count (stats s)
          ∧ writes (trace s')
            = writes (trace s)
              ++ match truthy (markdown r) with
                 | Some md =>
                     [("page_" +:+ Py.str (success_count (stats s) + 1) +:+ ".md", md)]
                 | None => []
                 end
        else
          success_count (stats s') = success_count (stats s)
          ∧ fail_count (stats s') = fail_count (stats s) + 1
          ∧ writes (trace s') = writes (trace s)
  end.
Proof.
  intros s'.
  destruct (recordable o) eqn:Hrec.
  2:{ destruct (record_result_unrecordable w url o s Hrec) as (e & -> & He & Hraise).
      by rewrite He. }
  pose proof (record_result_advances w url o s Hrec) as (Ha & Hb & Hd & Hw & _).
  fold s' in Ha, Hb, Hd, Hw.
  assert (∀ e, o = Raised e → (record_result w url o s).1 = Ok tt) as Hok.
  { intros e ->. unfold record_result. simpl in Hrec. by rewrite Hrec. }
  clearbody s'. simpl in Ha, Hb, Hd, Hw.
  rewrite count_ok_single in Ha, Hb. unfold Py.len in Hb. simpl in Hb.
  destruct o as [e|r]; simpl in *.
  - rewrite Hrec. rewrite Hrec in Hok.
    destruct (count_error_spec (type_name e) (stats s)) as (H1 & H2 & H3).
    simpl in H1, H2, H3. rewrite Hd, Hw, app_nil_r.
    split; [exact (Hok e eq_refl)|]. split; [lia|]. split; [lia|]. by repeat split.
  - split; [done|]. destruct (success r); simpl in *.
    + split; [lia|]. split; [lia|]. rewrite Hw.
      by destruct (truthy (markdown r)).
    + rewrite Hw, app_nil_r. split; [lia|]. split; [lia|done].
Qed.

(** C5, counterexample: a successful fetch with missing content is not
    counted as a failure. *)
Lemma empty_content_counted_as_success :
  ¬ (∀ (w : World) (url : string) (r : CrawlResult) (s : State),
       success r = true → truthy (markdown r) = None →
       fail_count (stats (record_result w url (Returned r) s).2)
       = fail_count (stats s) + 1).
Proof.
  intros H.
  specialize (H (make_world None demo_arun None no_write_fault) "empty"
                (mkResult true None)
                (initial_state (make_world None demo_arun None no_write_fault))
                eq_refl eq_refl).
  vm_compute in H. discriminate H.
Qed.

(** * The counters and the pages of a completed run *)

Lemma length_item_outcomes w c urls : length (item_outcomes w c urls) = length urls.
Proof. unfold item_outcomes. by rewrite length_imap. Qed.

Lemma record_result_counters w url o s0 :
  recordable o = true →
  let s1 := (record_result w url o s0).2 in
  if counts_as_success o
  then success_count (stats s1) = success_count (stats s0) + 1
       ∧ fail_count (stats s1) = fail_count (stats s0)
  else success_count (stats s1) = success_count (stats s0)
       ∧ fail_count (stats s1) = fail_count (stats s0) + 1.
Proof.
  intros Hrec s1. destruct (record_result_advances w url o s0 Hrec) as (Ha & Hb & _).
  fold s1 in Ha, Hb. simpl in Ha, Hb. rewrite count_ok_single in Ha, Hb.
  unfold Py.len in Hb. simpl in Hb.
  destruct (counts_as_success o); lia.
Qed.

(** C3: a call with a positive limit that returns has counted every url
    of the list exactly once: the two counters add up to the length of the
    list, [success_count] counts the successful results, [fail_count] the
    exceptions and the unsuccessful results, every url was handed to the
    engine once and in order (so nothing was dispatched only for an empty
    list), every result was an [Exception] or a crawl result, and each such
    result adds exactly one to exactly one counter. *)
Theorem counts_add_up (w : World) (urls : list string) (C : Z)
    (st : Stats) (s : State) :
  0 < C →
  run_crawl_parallel w urls C = (Ok st, s) →
  let outs := item_outcomes w (Z.to_nat C) urls in
  success_count st + fail_count st = Py.len urls
  ∧ success_count st = count_ok outs
  ∧ fail_count st = count_raised outs + count_no_content outs
  ∧ dispatched (trace s) = urls
  ∧ (dispatched (trace s) = [] ↔ urls = [])
  ∧ Forall (λ o, recordable o = true) outs
  ∧ (∀ url o s0,
       recordable o = true →
       let s1 := (record_result w url o s0).2 in
       if counts_as_success o
       then success_count (stats s1) = success_count (stats s0) + 1
            ∧ fail_count (stats s1) = fail_count (stats s0)
       else success_count (stats s1) = success_count (stats s0)
            ∧ fail_count (stats s1) = fail_count (stats s0) + 1).
Proof.
  intros HC Hrun outs.
  destruct (run_completed_pos w urls C st s HC Hrun)
    as (m & Ha & Hb & _ & _ & Hd & _).
  fold outs in Ha, Hb.
  assert (Py.len outs = Py.len urls) as Hlen.
  { unfold Py.len, outs. by rewrite length_item_outcomes. }
  split; [lia|]. split; [done|].
  split; [rewrite <- count_partition; lia|].
  split; [done|]. split; [by rewrite Hd|].
  split; [exact (run_completed_recordable w urls C st s HC Hrun)|].
  apply record_result_counters.
Qed.

(** C3, counterexample: without a positive limit the counters of a call
    that returns need not add up to the length of the list, and a call can
    end before any url is handed to the engine although the list is not
    empty.  With a negative limit the call returns with both counters at
    zero for a list of one url; with a limit of zero it raises the
    [ValueError] of [range]; in both nothing was handed to the engine. *)
Lemma negative_limit_counts_nothing :
  ¬ (∀ (w : World) (urls : list string) (C : Z) (st : Stats) (s : State),
       run_crawl_parallel w urls C = (Ok st, s) →
       success_count st + fail_count st = Py.len urls)
  ∧ (let run := run_crawl_parallel (make_world None demo_arun None no_write_fault)
                                   ["a"] (-1) in
     run.1 = Ok (mkStats 0 0 [] (memory_stats (stats run.2)))
     ∧ dispatched (trace run.2) = [])
  ∧ (let run := run_crawl_parallel (make_world None demo_arun None no_write_fault)
                                   ["a"] 0 in
     run.1 = Raise (mkExn "ValueError" "range() arg 3 must not be zero")
     ∧ dispatched (trace run.2) = []).
Proof.
  split; [|by vm_compute].
  intros H.
  pose (w := make_world None demo_arun None no_write_fault).
  assert (run_crawl_parallel w ["a"] (-1)
          = (Ok (stats (run_crawl_parallel w ["a"] (-1)).2),
             (run_crawl_parallel w ["a"] (-1)).2)) as Hrun
    by (vm_compute; reflexivity).
  specialize (H w ["a"] (-1) _ _ Hrun). vm_compute in H. discriminate H.
Qed.

(** C3 on three urls of which one raises and one comes back unsuccessful. *)
Lemma counts_add_up_witness :
  let run := run_crawl_parallel (make_world None demo_arun None no_write_fault)
                                ["a"; "bad"; "down"] 2 in
  success_count (stats run.2) + fail_count (stats run.2) = 3.
Proof.
  intros run.
  assert (run = (Ok (stats run.2), run.2)) as Hrun by (vm_compute; reflexivity).
  exact (proj1 (counts_add_up _ _ 2 _ _ eq_refl Hrun)).
Defined.

Lemma page_of_elem outs g o p :
  outs !! g = Some o → page_of outs g o = Some p → p ∈ page_writes outs.
Proof.
  intros Hg Hp. unfold page_writes. apply list_elem_of_omap.
  exists (Some p). split; [|done].
  apply list_elem_of_lookup. exists g.
  by rewrite list_lookup_imap, Hg, <- Hp.
Qed.

(** C7: in a call with a positive limit that returns,
    [write_text] is called once for each result that is successful and has
    non-empty markdown, for the file [page_{n}.md] where [n] is the number of
    successful results up to and including it, whether or not they had
    markdown, and not its position in the list; a successful result with
    empty or missing markdown is counted and writes nothing; the summary is
    written once, as [summary.txt], after the pages. *)
Theorem pages_numbered_by_success (w : World) (urls : list string) (C : Z)
    (st : Stats) (s : State) :
  0 < C →
  run_crawl_parallel w urls C = (Ok st, s) →
  let outs := item_outcomes w (Z.to_nat C) urls in
  ∃ m,
    last (memory_stats st) = Some m
    ∧ writes (trace s) = page_writes outs ++ [("summary.txt", summary urls st m)]
    ∧ (∀ g r md,
         outs !! g = Some (Returned r) → success r = true →
         truthy (markdown r) = Some md →
         ("page_" +:+ Py.str (count_ok (take (S g) outs)) +:+ ".md", md)
           ∈ writes (trace s))
    ∧ (∀ g r,
         outs !! g = Some (Returned r) → success r = true →
         truthy (markdown r) = None →
         page_of outs g (Returned r) = None)
    ∧ success_count st = count_ok outs.
Proof.
  intros HC Hrun outs.
  destruct (run_completed_pos w urls C st s HC Hrun)
    as (m & Ha & _ & _ & Hlast & _ & Hw & _).
  fold outs in Ha, Hw.
  exists m. split; [done|]. split; [done|]. split; [|split; [|done]].
  - intros g r md Hg Hr Hmd. rewrite Hw. apply elem_of_app. left.
    apply (page_of_elem outs g (Returned r)); [done|].
    simpl. by rewrite Hr, Hmd.
  - intros g r Hg Hr Hmd. simpl. by rewrite Hr, Hmd.
Qed.

(** C7 on a list whose first url comes back successful without markdown:
    the only page is [page_2.md]. *)
Lemma pages_numbered_by_success_witness :
  let run := run_crawl_parallel (make_world None demo_arun None no_write_fault)
                                ["empty"; "a"] 5 in
  (writes (trace run.2)).*1 = ["page_2.md"; "summary.txt"].
Proof.
  intros run.
  assert (run = (Ok (stats run.2), run.2)) as Hrun by (vm_compute; reflexivity).
  destruct (pages_numbered_by_success _ _ 5 _ _ eq_refl Hrun) as (m & _ & -> & _).
  vm_compute. reflexivity.
Defined.

(** C7, counterexample: a result that is successful but has no markdown
    is counted in [success_count] and no page is written for it. *)
Lemma successful_item_without_page :
  let run := run_crawl_parallel (make_world None demo_arun None no_write_fault)
                                ["empty"] 1 in
  (success_count <$> (match run.1 with Ok st => Some st | Raise _ => None end)) = Some 1
  ∧ (writes (trace run.2)).*1 = ["summary.txt"].
Proof. vm_compute. by split. Qed.

(** * A batch with one failing item *)

Lemma count_raised_app l1 l2 :
  count_raised (l1 ++ l2) = count_raised l1 + count_raised l2.
Proof. unfold count_raised. rewrite filter_app, length_app. lia. Qed.

Lemma count_raised_quiet outs :
  Forall (λ o, is_raised o = false) outs → count_raised outs = 0.
Proof.
  unfold count_raised. induction 1 as [|o outs Ho _ IH]; [done|].
  rewrite filter_cons_False by congruence. exact IH.
Qed.

Lemma histogram_from_quiet d outs :
  Forall (λ o, is_raised o = false) outs → histogram_from d outs = d.
Proof.
  unfold histogram_from. induction 1 as [|o outs Ho _ IH]; [done|].
  simpl. by destruct o.
Qed.

Lemma failure_lines_quiet items :
  Forall (λ it, is_raised it.2 = false) items → failure_lines items = [].
Proof.
  unfold failure_lines. induction 1 as [|[url o] items Ho _ IH]; [done|].
  simpl in *. by destruct o.
Qed.

Lemma one_raised_split (items : list (string * Outcome)) k url e :
  items !! k = Some (url, Raised e) →
  (∀ j it, j ≠ k → items !! j = Some it → is_raised it.2 = false) →
  items = take k items ++ (url, Raised e) :: drop (S k) items
  ∧ Forall (λ it, is_raised it.2 = false) (take k items)
  ∧ Forall (λ it, is_raised it.2 = false) (drop (S k) items).
Proof.
  intros Hk Hothers. split; [by rewrite take_drop_middle|]. split.
  - apply Forall_lookup_2. intros i it Hi.
    apply lookup_take_Some in Hi as [Hi Hlt]. apply (Hothers i); [lia|done].
  - apply Forall_lookup_2. intros i it Hi. rewrite lookup_drop in Hi.
    apply (Hothers (S k + i)%nat); [lia|done].
Qed.

Lemma one_raised_effect (items : list (string * Outcome)) k url e d :
  items !! k = Some (url, Raised e) →
  (∀ j it, j ≠ k → items !! j = Some it → is_raised it.2 = false) →
  count_raised items.*2 = 1
  ∧ histogram_from d items.*2
    = dict_set (type_name e) (dict_get (type_name e) d 0 + 1) d
  ∧ failure_lines items = ["Error crawling " +:+ url +:+ ": " +:+ message e].
Proof.
  intros Hk Hothers.
  destruct (one_raised_split items k url e Hk Hothers) as (Hsplit & Hpre & Hpost).
  assert (∀ l : list (string * Outcome),
            Forall (λ it, is_raised it.2 = false) l →
            Forall (λ o, is_raised o = false) l.*2) as Hsnd.
  { intros l Hl. by apply Forall_fmap. }
  rewrite Hsplit, fmap_app, fmap_cons. simpl.
  rewrite count_raised_app, histogram_from_app, failure_lines_app.
  change (Raised e :: (drop (S k) items).*2)
    with ([Raised e] ++ (drop (S k) items).*2).
  change ((url, Raised e) :: drop (S k) items)
    with ([(url, Raised e)] ++ drop (S k) items).
  rewrite count_raised_app, histogram_from_app, failure_lines_app.
  rewrite ?(count_raised_quiet _ (Hsnd _ Hpre)),
    ?(count_raised_quiet _ (Hsnd _ Hpost)),
    ?(histogram_from_quiet _ _ (Hsnd _ Hpre)),
    ?(histogram_from_quiet _ _ (Hsnd _ Hpost)),
    ?(failure_lines_quiet _ Hpre), ?(failure_lines_quiet _ Hpost).
  done.
Qed.

Lemma batch_items_lookup w batch_num batch j :
  batch_items w batch_num batch !! j
  = (λ url, (url, engine_arun w url (session_id batch_num (Z.of_nat j))))
      <$> batch !! j.
Proof.
  unfold batch_items. rewrite lookup_zip_with, list_lookup_fmap.
  rewrite batch_tasks_lookup. by destruct (batch !! j).
Qed.

(** C2: in a batch where the fetch of exactly one task raises, the
    exception is an [Exception], the other tasks return, and no [write_text]
    call raises, every task is run and its result is kept at the position of
    its url whatever the order in which the tasks end; the results hold one
    exception and [N - 1] returned values; recording them ends without an
    exception, adds one to the histogram, under the type name of the
    exception, logs one error line naming the url of the failing task, adds
    to [fail_count] one for the exception plus one for each unsuccessful
    result, and adds to [success_count] one for each successful result. *)
Theorem one_failure_among_siblings (w : World) (batch_num : Z)
    (batch : list string) (k : nat) (url_k : string) (e : Exn) (s : State) :
  let tasks := batch_tasks batch_num batch in
  let results := task_outcome w <$> tasks in
  batch !! k = Some url_k →
  engine_arun w url_k (session_id batch_num (Z.of_nat k)) = Raised e →
  is_Exception e = true →
  (∀ j url, j ≠ k → batch !! j = Some url →
     is_raised (engine_arun w url (session_id batch_num (Z.of_nat j))) = false) →
  (∀ name content, fs_write w name content = None) →
  let s' := (collect_batch w batch tasks s).2 in
  (collect_batch w batch tasks s).1 = Ok tt
  ∧ (∀ w', engine_arun w' = engine_arun w → (gather w' tasks s).1 = Ok results)
  ∧ (∀ j url, batch !! j = Some url →
       results !! j = Some (engine_arun w url (session_id batch_num (Z.of_nat j))))
  ∧ length results = length batch
  ∧ count_raised results = 1
  ∧ count_ok results + count_no_content results = Py.len batch - 1
  ∧ dispatched (trace s') = dispatched (trace s) ++ batch
  ∧ error_lines (trace s')
    = error_lines (trace s) ++ ["Error crawling " +:+ url_k +:+ ": " +:+ message e]
  ∧ errors (stats s') = errors (count_error (type_name e) (stats s))
  ∧ dict_total (errors (stats s')) = dict_total (errors (stats s)) + 1
  ∧ fail_count (stats s') = fail_count (stats s) + 1 + count_no_content results
  ∧ success_count (stats s') = success_count (stats s) + count_ok results.
Proof.
  intros tasks results Hk He HE Hothers Hw s'. subst s' tasks.
  set (items := batch_items w batch_num batch).
  assert (items.*2 = results) as Hres by apply batch_items_outcomes.
  assert (length results = length batch) as Hlen.
  { unfold results. by rewrite length_fmap, length_batch_tasks. }
  assert (items !! k = Some (url_k, Raised e)) as Hik.
  { unfold items. by rewrite batch_items_lookup, Hk, <- He. }
  assert (∀ j it, j ≠ k → items !! j = Some it → is_raised it.2 = false) as Hio.
  { intros j it Hj Hit. unfold items in Hit. rewrite batch_items_lookup in Hit.
    destruct (batch !! j) as [url|] eqn:Hb; [|done].
    injection Hit as <-. simpl. by apply (Hothers j). }
  destruct (one_raised_effect items k url_k e (errors (stats s)) Hik Hio)
    as (Hcount & Hhist & Hlines).
  rewrite Hres in Hcount, Hhist.
  assert ((collect_batch w batch (batch_tasks batch_num batch) s).1 = Ok tt) as Hok.
  { unfold collect_batch. erewrite bind_ok by apply gather_eq.
    apply record_loop_ok; [|done].
    apply Forall_lookup_2. intros j [u o] Hj.
    destruct (decide (j = k)) as [->|Hne].
    - fold (batch_items w batch_num batch) in Hj. fold items in Hj.
      rewrite Hik in Hj. by injection Hj as <- <-.
    - specialize (Hio j _ Hne Hj). simpl in *. by destruct o. }
  pose proof (collect_batch_advances w batch_num batch s) as Hadv.
  destruct (collect_batch w batch (batch_tasks batch_num batch) s)
    as [r s1] eqn:Hrun.
  simpl in Hok. subst r. simpl.
  specialize (Hadv s1 eq_refl). fold items in Hadv.
  destruct Hadv as (Ha & Hb & Hd & _ & Hel & Hdis).
  rewrite Hres in Ha, Hb, Hd.
  assert (Py.len items = Py.len batch) as Hlen'.
  { unfold Py.len. by rewrite <- Hlen, <- Hres, length_fmap. }
  pose proof (count_partition results) as Hpart.
  assert (Py.len results = Py.len batch) as HlenZ by (unfold Py.len; by rewrite Hlen).
  split; [done|]. split.
  { intros w' Hw'. rewrite gather_eq. simpl. f_equal. unfold results.
    apply list_fmap_ext. intros _ t _. unfold task_outcome. by rewrite Hw'. }
  split.
  { intros j url Hj. unfold results.
    by rewrite list_lookup_fmap, batch_tasks_lookup, Hj. }
  split; [done|]. split; [done|]. split; [lia|]. split; [done|].
  split; [by rewrite Hel, Hlines|]. split; [by rewrite Hd, Hhist|].
  split.
  { rewrite Hd, Hhist.
    destruct (count_error_spec (type_name e) (stats s)) as (_ & _ & Ht).
    exact Ht. }
  split; lia.
Qed.

(** C2 on a batch of three urls whose second fetch raises. *)
Lemma one_failure_among_siblings_witness :
  let w := make_world None demo_arun None no_write_fault in
  let s := started_state w ["a"; "bad"; "down"] 3 in
  let s' := (collect_batch w ["a"; "bad"; "down"]
               (batch_tasks 1 ["a"; "bad"; "down"]) s).2 in
  error_lines (trace s') = ["Error crawling bad: timed out"]
  ∧ errors (stats s') = [("TimeoutError", 1)]
  ∧ fail_count (stats s') = 2
  ∧ success_count (stats s') = 1.
Proof.
  intros w s s'.
  pose proof (one_failure_among_siblings w 1 ["a"; "bad"; "down"] 1 "bad"
                (mkExn "TimeoutError" "timed out") s eq_refl eq_refl eq_refl) as H.
  assert (∀ j url, j ≠ 1%nat → ["a"; "bad"; "down"] !! j = Some url →
            is_raised (engine_arun w url (session_id 1 (Z.of_nat j))) = false)
    as Hothers.
  { intros [|[|[|j]]] url Hj Hurl; try done; by injection Hurl as <-. }
  destruct (H Hothers (λ _ _, eq_refl))
    as (_ & _ & _ & _ & _ & _ & _ & Hel & Herr & _ & Hf & Hs).
  fold s' in Hel, Herr, Hf, Hs.
  split; [exact Hel|]. split; [exact Herr|]. split; [exact Hf|exact Hs].
Defined.

(** C2, counterexample: one raising task among returning siblings does not
    always leave one entry in the histogram.  When the page of an earlier
    sibling cannot be written, the loop over the results ends with that
    exception before it reaches the raising task; and when the exception is
    not an [Exception], as for a cancelled task, the loop ends with
    [AttributeError] at that result.  In both batches nothing is added to
    the histogram. *)
Lemma one_failure_not_always_recorded :
  ¬ (∀ (w : World) (batch_num : Z) (batch : list string) (k : nat)
       (url_k : string) (e : Exn) (s : State),
       batch !! k = Some url_k →
       engine_arun w url_k (session_id batch_num (Z.of_nat k)) = Raised e →
       is_Exception e = true →
       (∀ j url, j ≠ k → batch !! j = Some url →
          is_raised (engine_arun w url (session_id batch_num (Z.of_nat j))) = false) →
       dict_total (errors (stats (collect_batch w batch
                                    (batch_tasks batch_num batch) s).2))
       = dict_total (errors (stats s)) + 1)
  ∧ ¬ (∀ (w : World) (batch_num : Z) (batch : list string) (k : nat)
         (url_k : string) (e : Exn) (s : State),
         batch !! k = Some url_k →
         engine_arun w url_k (session_id batch_num (Z.of_nat k)) = Raised e →
         (∀ j url, j ≠ k → batch !! j = Some url →
            is_raised (engine_arun w url (session_id batch_num (Z.of_nat j))) = false) →
         (∀ name content, fs_write w name content = None) →
         dict_total (errors (stats (collect_batch w batch
                                      (batch_tasks batch_num batch) s).2))
         = dict_total (errors (stats s)) + 1).
Proof.
  split; intros H.
  - pose (w := make_world None demo_arun None page_1_fault).
    specialize (H w 1 ["a"; "bad"; "c"] 1%nat "bad"
                  (mkExn "TimeoutError" "timed out")
                  (started_state w ["a"; "bad"; "c"] 3) eq_refl eq_refl eq_refl).
    assert (∀ j url, j ≠ 1%nat → ["a"; "bad"; "c"] !! j = Some url →
              is_raised (engine_arun w url (session_id 1 (Z.of_nat j))) = false)
      as Hothers.
    { intros [|[|[|j]]] url Hj Hurl; try done; by injection Hurl as <-. }
    specialize (H Hothers). vm_compute in H. discriminate H.
  - pose (w := make_world None cancelling_arun None no_write_fault).
    specialize (H w 1 ["gone"; "a"] 0%nat "gone"
                  (newExn BaseExceptionOnly "CancelledError" "")
                  (started_state w ["gone"; "a"] 2) eq_refl eq_refl).
    assert (∀ j url, j ≠ 0%nat → ["gone"; "a"] !! j = Some url →
              is_raised (engine_arun w url (session_id 1 (Z.of_nat j))) = false)
      as Hothers.
    { intros [|[|j]] url Hj Hurl; try done; by injection Hurl as <-. }
    specialize (H Hothers (λ _ _, eq_refl)). vm_compute in H. discriminate H.
Qed.

(** * The summary report *)

Lemma app_String ch (a b : string) : String ch a +:+ b = String ch (a +:+ b).
Proof. done. Qed.

Lemma app_empty (a : string) : "" +:+ a = a.
Proof. done. Qed.

Lemma string_app_assoc (a b c : string) : (a +:+ b) +:+ c = a +:+ b +:+ c.
Proof.
  induction a as [|ch a IH]; [done|]. rewrite !app_String. by f_equal.
Qed.

Create Rewrite HintDb str_norm.
#[global] Hint Rewrite app_String app_empty string_app_assoc : str_norm.

Lemma unlines_app l1 l2 : unlines (l1 ++ l2) = unlines l1 +:+ unlines l2.
Proof.
  induction l1 as [|l l1 IH]; simpl; [done|].
  by rewrite IH, !string_app_assoc.
Qed.

(** The joined error-kind lines and the two newlines after them are the
    lines themselves followed by one empty line, or two when there is no
    error kind. *)
Lemma join_blank_lines errs rest :
  Py.join nl (kind_lines errs) +:+ nl +:+ nl +:+ rest
  = unlines (kind_lines errs ++ blank_lines errs) +:+ rest.
Proof.
  unfold Py.join. destruct errs as [|kv errs]; [done|].
  revert kv. induction errs as [|kv' errs IH]; intros kv.
  - simpl. by autorewrite with str_norm.
  - change (String.concat nl (kind_lines (kv :: kv' :: errs)))
      with (kind_lines [kv] !!! 0%nat +:+ nl
            +:+ String.concat nl (kind_lines (kv' :: errs))).
    rewrite !string_app_assoc, IH. simpl. by autorewrite with str_norm.
Qed.

Lemma summary_lines urls st m :
  summary urls st m
  = unlines (report_head (Py.len urls) (success_count st) (fail_count st)
             ++ kind_lines (errors st) ++ blank_lines (errors st)
             ++ report_tail (peak_mb m) (elapsed_time m)).
Proof.
  unfold summary. rewrite unlines_app, app_assoc, unlines_app.
  fold (kind_lines (errors st)).
  rewrite <- (join_blank_lines (errors st)).
  unfold report_head, report_tail, unlines, nl. simpl.
  by autorewrite with str_norm.
Qed.

Lemma count_ok_all outs :
  Forall (λ o, counts_as_success o = true) outs →
  count_ok outs = Py.len outs ∧ histogram_from [] outs = [].
Proof.
  intros Hall. split.
  - unfold count_ok, Py.len. induction Hall as [|o outs Ho _ IH]; [done|].
    rewrite filter_cons_True by done. simpl. lia.
  - apply histogram_from_quiet. eapply Forall_impl; [exact Hall|].
    simpl. by intros [e|r].
Qed.

(** C10: the summary is the report of section 6 with the
    error-kind lines followed by one empty line, or by two when no error
    kind was recorded, before the peak-memory line; and a call on three urls
    with a limit of two in which every fetch is successful makes batches of
    sizes two and one and writes a summary with [Successful: 3],
    [Failed: 0] and no error-kind line. *)
Theorem summary_format :
  (∀ urls st m,
     summary urls st m
     = unlines (report_head (Py.len urls) (success_count st) (fail_count st)
                ++ kind_lines (errors st) ++ blank_lines (errors st)
                ++ report_tail (peak_mb m) (elapsed_time m)))
  ∧ (∀ w u1 u2 u3 st s,
       Forall (λ o, counts_as_success o = true)
              (item_outcomes w 2 [u1; u2; u3]) →
       run_crawl_parallel w [u1; u2; u3] 2 = (Ok st, s) →
       batches [u1; u2; u3] 2 = Ok [[u1; u2]; [u3]]
       ∧ success_count st = 3 ∧ fail_count st = 0 ∧ errors st = []
       ∧ ∃ m,
           last (writes (trace s))
           = Some ("summary.txt",
                   unlines [ "Crawling Summary"; "================";
                             "Total URLs: 3"; "Successful: 3"; "Failed: 0";
                             "Error types:"; ""; "";
                             "Peak memory usage: " +:+ Py.str (peak_mb m) +:+ "MB";
                             "Total time: " +:+ elapsed_time m ])).
Proof.
  split; [apply summary_lines|].
  intros w u1 u2 u3 st s Hall Hrun.
  destruct (run_completed_pos w [u1; u2; u3] 2 st s eq_refl Hrun)
    as (m & Ha & Hb & Hd & _ & _ & Hw & _).
  change (Z.to_nat 2) with 2%nat in Ha, Hb, Hd, Hw.
  destruct (count_ok_all _ Hall) as [Hcount Hhist].
  rewrite Hcount in Ha, Hb. rewrite Hhist in Hd.
  unfold Py.len in Ha, Hb. rewrite length_item_outcomes in Ha, Hb.
  simpl in Ha, Hb.
  split; [done|]. split; [done|]. split; [lia|]. split; [done|].
  exists m. rewrite Hw, last_snoc. do 2 f_equal.
  rewrite summary_lines, Ha, Hb, Hd. done.
Qed.

(** C10 on three urls that all come back successful. *)
Lemma summary_format_witness :
  let run := run_crawl_parallel (make_world None demo_arun None no_write_fault)
                                ["a"; "b"; "c"] 2 in
  success_count (stats run.2) = 3 ∧ fail_count (stats run.2) = 0.
Proof.
  intros run.
  assert (run = (Ok (stats run.2), run.2)) as Hrun by (vm_compute; reflexivity).
  assert (Forall (λ o, counts_as_success o = true)
            (item_outcomes (make_world None demo_arun None no_write_fault) 2
                           ["a"; "b"; "c"])) as Hall.
  { vm_compute. repeat constructor. }
  destruct (proj2 summary_format _ "a" "b" "c" _ _ Hall Hrun)
    as (_ & Hs & Hf & _).
  split; [exact Hs|exact Hf].
Defined.

(** C10, counterexample: the summary of the program is not the text of the
    section 6 table, neither without nor with error kinds. *)
Lemma summary_has_blank_lines :
  summary ["u"] (mkStats 1 0 [] []) (mkMemStats 1 2 "0.0" "0:00:01")
    ≠ sec6_report 1 1 0 [] 2 "0:00:01"
  ∧ summary ["u"] (mkStats 0 1 [("TimeoutError", 1)] [])
            (mkMemStats 1 2 "0.0" "0:00:01")
    ≠ sec6_report 1 0 1 [("TimeoutError", 1)] 2 "0:00:01".
Proof. split; vm_compute; discriminate. Qed.

(** * The sitemap reader *)

(** Induction on elements, with the property for the children. *)
Lemma Element_forall_ind (P : Element → Prop) :
  (∀ t x cs, Forall P cs → P (Elem t x cs)) → ∀ e, P e.
Proof.
  intros Hstep. fix IH 1. intros [t x cs]. apply Hstep.
  induction cs as [|c cs IHcs]; constructor; [apply IH|exact IHcs].
Qed.

Lemma flat_map_sublist {A B} (f g : A → list B) (l : list A) :
  Forall (λ x, f x `sublist_of` g x) l →
  flat_map f l `sublist_of` flat_map g l.
Proof.
  induction 1 as [|x l Hx _ IH]; simpl; [constructor|]. by apply sublist_app.
Qed.

Lemma filter_flat_map {A B} (P : B → Prop) `{!∀ y, Decision (P y)}
    (f : A → list B) (l : list A) :
  filter P (flat_map f l) = flat_map (λ x, filter P (f x)) l.
Proof.
  induction l as [|x l IH]; simpl; [done|]. by rewrite filter_app, IH.
Qed.

(** The [loc] children of [url] elements are among the [loc] elements
    that [iter] meets, in the same order. *)
Lemma url_locs_sublist b e :
  url_locs b e `sublist_of` filter (λ e', tag e' = qname "loc") (iter e).
Proof.
  revert b. induction e as [t x cs IH] using Element_forall_ind. intros b.
  simpl. rewrite filter_cons. simpl.
  assert (flat_map (url_locs (bool_decide (t = qname "url"))) cs
          `sublist_of` filter (λ e', tag e' = qname "loc") (flat_map iter cs))
    as Hcs.
  { rewrite filter_flat_map. apply flat_map_sublist.
    eapply Forall_impl; [exact IH|]. simpl. intros c Hc. apply Hc. }
  destruct (decide (t = qname "loc")) as [Ht|Ht].
  - rewrite (bool_decide_eq_true_2 _ Ht).
    destruct b; simpl; [by constructor|by constructor].
  - rewrite (bool_decide_eq_false_2 _ Ht), andb_false_r. exact Hcs.
Qed.

Lemma url_locs_root_sublist root :
  url_locs false root `sublist_of` findall_descendants root (qname "loc").
Proof.
  unfold findall_descendants. destruct root as [t x cs]. simpl.
  rewrite filter_flat_map. apply flat_map_sublist.
  apply Forall_forall. intros c _. apply url_locs_sublist.
Qed.

(** Every [loc] element that [iter] meets has a [url] parent or has not. *)
Lemma locs_length b e :
  length (filter (λ e', tag e' = qname "loc") (iter e))
  = (length (url_locs b e) + length (other_locs b e))%nat.
Proof.
  revert b. induction e as [t x cs IH] using Element_forall_ind. intros b.
  simpl. rewrite filter_cons. simpl.
  assert (∀ b', length (filter (λ e', tag e' = qname "loc") (flat_map iter cs))
                = (length (flat_map (url_locs b') cs)
                   + length (flat_map (other_locs b') cs))%nat) as Hcs.
  { intros b'. induction IH as [|c cs Hc _ IHcs]; [done|]. simpl.
    rewrite filter_app, !length_app, IHcs, (Hc b'). lia. }
  rewrite !length_app.
  destruct (decide (t = qname "loc")) as [Ht|Ht].
  - rewrite (bool_decide_eq_true_2 _ Ht). simpl.
    rewrite (Hcs (bool_decide (t = qname "url"))). destruct b; simpl; lia.
  - rewrite (bool_decide_eq_false_2 _ Ht), !andb_false_r. simpl.
    rewrite (Hcs (bool_decide (t = qname "url"))). lia.
Qed.

Lemma findall_locs_length root :
  length (findall_descendants root (qname "loc"))
  = (length (url_locs false root) + length (stray_locs root))%nat.
Proof.
  unfold findall_descendants, stray_locs. destruct root as [t x cs]. simpl.
  induction cs as [|c cs IH]; [done|]. simpl.
  rewrite filter_app, !length_app, IH, (locs_length (bool_decide (t = qname "url"))).
  lia.
Qed.

Lemma sublist_same_length {A} (l1 l2 : list A) :
  l1 `sublist_of` l2 → length l1 = length l2 → l1 = l2.
Proof.
  induction 1 as [|x l1 l2 _ IH|x l1 l2 Hsub _]; simpl; intros Hlen.
  - done.
  - f_equal. apply IH. lia.
  - apply sublist_length in Hsub. lia.
Qed.

(** C9: whatever fails inside the [try] of [get_sitemap_urls] -- the
    network, the XML parser or anything else -- the function logs one error
    line that names the kind of failure and returns the empty list.  When
    nothing fails it returns the text of every [loc] element below the root
    in document order, whatever the parent of the element, one entry per
    element with nothing merged or rewritten, and logs their number: a text
    is returned exactly when it is the text of such an element; the [loc]
    children of the [url] elements are all among them, in their order; the
    others are the [loc] elements with another parent; and the list is the
    list of the [url]/[loc] values exactly when there is no such other
    element. *)
Theorem get_sitemap_urls_total (web : Web) (sitemap_url : string) :
  (∀ exn,
     (http_get_text web sitemap_url = inl exn
      ∨ ∃ content, http_get_text web sitemap_url = inr content
                   ∧ fromstring web content = inl exn) →
     get_sitemap_urls web sitemap_url
     = ([EvLog ERROR (sitemap_error_line exn)], []))
  ∧ (∀ content root,
       http_get_text web sitemap_url = inr content →
       fromstring web content = inr root →
       let urls := (get_sitemap_urls web sitemap_url).2 in
       (text <$> url_locs false root) `sublist_of` urls
       ∧ length urls = (length (url_locs false root) + length (stray_locs root))%nat
       ∧ (urls = text <$> url_locs false root ↔ stray_locs root = [])
       ∧ (∀ x, x ∈ urls ↔
               ∃ e, e ∈ flat_map iter (children root)
                    ∧ tag e = qname "loc" ∧ text e = x)
       ∧ urls = text <$> findall_descendants root (qname "loc")
       ∧ (get_sitemap_urls web sitemap_url).1
         = [EvLog INFO ("Found " +:+ Py.str (Py.len urls) +:+ " URLs in sitemap")])
  ∧ (∀ e1 e2 e3,
       sitemap_error_line (ClientError e1) ≠ sitemap_error_line (ParseError e2)
       ∧ sitemap_error_line (ClientError e1) ≠ sitemap_error_line (OtherException e3)
       ∧ sitemap_error_line (ParseError e2) ≠ sitemap_error_line (OtherException e3)).
Proof.
  split; [|split].
  - intros exn [Hget|(content & Hget & Hparse)];
      unfold get_sitemap_urls, sitemap_try; rewrite Hget; [|rewrite Hparse];
      by destruct exn.
  - intros content root Hget Hparse urls. subst urls.
    unfold get_sitemap_urls, sitemap_try. rewrite Hget, Hparse. simpl.
    pose proof (url_locs_root_sublist root) as Hsub.
    pose proof (findall_locs_length root) as Hlen.
    split; [by apply fmap_sublist|]. split; [by rewrite length_fmap|].
    split; [|split; [|done]].
    + split.
      * intros Heq. apply (f_equal length) in Heq. rewrite !length_fmap in Heq.
        apply length_zero_iff_nil. lia.
      * intros Hnone. rewrite Hnone in Hlen. simpl in Hlen.
        f_equal. symmetry. apply sublist_same_length; [done|lia].
    + intros x. rewrite list_elem_of_fmap. unfold findall_descendants. split.
      * intros (e & -> & He). apply list_elem_of_filter in He as [Ht He]. by exists e.
      * intros (e & He & Ht & <-). exists e. split; [done|].
        by apply list_elem_of_filter.
  - intros e1 e2 e3. unfold sitemap_error_line. by repeat split.
Qed.

(** C9, counterexample: [get_sitemap_urls] does not return the
    [url]/[loc] values only.  For a sitemap index, which declares no page,
    it returns the address of every sitemap of the index. *)
Lemma sitemap_index_locs_are_returned :
  ¬ (∀ (web : Web) (sitemap_url content : string) (root : Element),
       http_get_text web sitemap_url = inr content →
       fromstring web content = inr root →
       (get_sitemap_urls web sitemap_url).2 = text <$> url_locs false root).
Proof.
  intros H.
  specialize (H (main_web demo_index) "/sitemap.xml" "<urlset/>" demo_index
                eq_refl eq_refl).
  vm_compute in H. discriminate H.
Qed.

(** The sitemap of the examples: the page declared twice is returned
    twice, and the two kinds of failure give the empty list. *)
Lemma get_sitemap_urls_examples :
  (get_sitemap_urls demo_web "/sitemap.xml").2
  = [Some "https://x.example/a"; Some "https://x.example/b";
     Some "https://x.example/a"]
  ∧ get_sitemap_urls demo_web "/home"
    = ([EvLog ERROR "XML parsing error: mismatched tag"], [])
  ∧ get_sitemap_urls demo_web "/nowhere"
    = ([EvLog ERROR "Network error fetching sitemap: cannot connect"], []).
Proof. vm_compute. by repeat split. Qed.

(** * What a run adds to the trace *)

Section appends.
Context (Q : list Event → Prop).
Hypothesis Q_nil : Q [].
Hypothesis Q_app : ∀ t1 t2, Q t1 → Q t2 → Q (t1 ++ t2).

Lemma appends_same {A} (m : M A) : (∀ s, trace (m s).2 = trace s) → appends Q m.
Proof. intros Hm s. exists []. by rewrite Hm, app_nil_r. Qed.

Lemma appends_ret {A} (a : A) : appends Q (mret a).
Proof. by apply appends_same. Qed.

Lemma appends_raise {A} e : appends Q (raise e : M A).
Proof. by apply appends_same. Qed.

Lemma appends_lift_call o : appends Q (lift_call o).
Proof. destruct o; [apply appends_raise|apply appends_ret]. Qed.

Lemma appends_lift_res {A} (r : Res A) : appends Q (lift_res r).
Proof. destruct r; [apply appends_ret|apply appends_raise]. Qed.

Lemma appends_get_stats : appends Q get_stats.
Proof. by apply appends_same. Qed.

Lemma appends_modify_stats f : appends Q (modify_stats f).
Proof. by apply appends_same. Qed.

Lemma appends_emit ev : Q [ev] → appends Q (emit ev).
Proof. intros Hev s. by exists [ev]. Qed.

Lemma appends_bind {A B} (m : M A) (f : A → M B) :
  appends Q m → (∀ a, appends Q (f a)) → appends Q (m ≫= f).
Proof.
  intros Hm Hf s. unfold mbind, M_bind.
  destruct (Hm s) as (t1 & Ht1 & HQ1).
  destruct (m s) as [[a|e] s1]; simpl in *; [|by exists t1].
  destruct (Hf a s1) as (t2 & Ht2 & HQ2).
  exists (t1 ++ t2). rewrite Ht2, Ht1, (assoc_L (++)). auto.
Qed.

Lemma appends_for_each {A} (l : list A) (body : A → M unit) :
  (∀ x, x ∈ l → appends Q (body x)) → appends Q (for_each l body).
Proof.
  induction l as [|x l IH]; intros Hb; simpl; [apply appends_ret|].
  apply appends_bind; [apply Hb; left|intros _].
  apply IH. intros y Hy. apply Hb. by right.
Qed.

Lemma appends_try_finally {A} (m : M A) (fin : M unit) :
  appends Q m → appends Q fin → appends Q (try_finally m fin).
Proof.
  intros Hm Hf s. unfold try_finally.
  destruct (Hm s) as (t1 & Ht1 & HQ1). destruct (m s) as [r s1]. simpl in *.
  destruct (Hf s1) as (t2 & Ht2 & HQ2).
  exists (t1 ++ t2).
  destruct (fin s1) as [[[]|e] s2]; simpl in *;
    rewrite Ht2, Ht1, (assoc_L (++)); auto.
Qed.

Context (w : World).
Hypothesis Q_log : ∀ lvl msg, Q [EvLog lvl msg].
Hypothesis Q_write : ∀ name content, Q [EvWrite name content].

Lemma appends_log lvl msg : appends Q (log lvl msg).
Proof. by apply appends_emit. Qed.

Lemma appends_write_text name content : appends Q (write_text w name content).
Proof.
  unfold write_text. apply appends_bind; [by apply appends_emit|].
  intros _. apply appends_lift_call.
Qed.

Lemma appends_log_memory prefix : appends Q (log_memory w prefix).
Proof. intros s. eexists. split; [done|]. apply Q_log. Qed.

Lemma appends_take_snapshot prefix : appends Q (take_snapshot w prefix).
Proof.
  unfold take_snapshot. apply appends_bind; [apply appends_log_memory|intros m].
  apply appends_bind; [apply appends_modify_stats|intros _; apply appends_ret].
Qed.

Lemma appends_record_result url o : appends Q (record_result w url o).
Proof.
  unfold record_result. destruct o as [e|r].
  - destruct (is_Exception e); [|apply appends_raise].
    apply appends_bind; [apply appends_modify_stats|intros _].
    apply appends_bind; [apply appends_modify_stats|intros _].
    apply appends_log.
  - destruct (success r).
    + apply appends_bind; [apply appends_modify_stats|intros _].
      destruct (truthy (markdown r)); [|apply appends_ret].
      apply appends_bind; [apply appends_get_stats|intros st].
      apply appends_write_text.
    + apply appends_bind; [apply appends_modify_stats|intros _].
      apply appends_log.
Qed.

Lemma appends_gather tasks : Q (gather_events w tasks) → appends Q (gather w tasks).
Proof. intros HQ s. rewrite gather_eq. by exists (gather_events w tasks). Qed.

Lemma appends_collect_batch batch tasks :
  Q (gather_events w tasks) → appends Q (collect_batch w batch tasks).
Proof.
  intros HQ. unfold collect_batch. apply appends_bind; [by apply appends_gather|].
  intros results. apply appends_for_each. intros [url result] _.
  apply appends_record_result.
Qed.

Lemma appends_log_progress urls : appends Q (log_progress urls).
Proof.
  unfold log_progress. apply appends_bind; [apply appends_get_stats|].
  intros st. apply appends_log.
Qed.

Lemma appends_batch_step urls C batch_num batch :
  Q (gather_events w (batch_tasks batch_num batch)) →
  appends Q (batch_step w urls C batch_num batch).
Proof.
  intros HQ. unfold batch_step.
  apply appends_bind; [apply appends_take_snapshot|intros _].
  apply appends_bind; [by apply appends_collect_batch|intros _].
  apply appends_log_progress.
Qed.

Lemma appends_batch_loop urls C :
  (∀ batch_num i, Q (gather_events w (batch_tasks batch_num (batch_at urls C i)))) →
  appends Q (batch_loop w urls C).
Proof.
  intros HQ. unfold batch_loop. apply appends_bind; [apply appends_lift_res|].
  intros starts. apply appends_for_each. intros [batch_num i] _.
  by apply appends_batch_step.
Qed.

Lemma appends_finalize urls : Q [EvClose] → appends Q (finalize w urls).
Proof.
  intros HQ. unfold finalize.
  apply appends_bind; [apply appends_log|intros _].
  apply appends_bind; [by apply appends_emit|intros _].
  apply appends_bind; [apply appends_lift_call|intros _].
  apply appends_bind; [apply appends_take_snapshot|intros m].
  apply appends_bind; [apply appends_get_stats|intros st].
  apply appends_write_text.
Qed.

Lemma appends_crawl_parallel urls C :
  Q [EvStart] → Q [EvClose] →
  (∀ batch_num i, Q (gather_events w (batch_tasks batch_num (batch_at urls C i)))) →
  appends Q (crawl_parallel w urls C).
Proof.
  intros HQs HQc HQg. unfold crawl_parallel.
  apply appends_bind; [apply appends_log|intros _].
  apply appends_bind; [by apply appends_emit|intros _].
  apply appends_bind; [apply appends_lift_call|intros _].
  apply appends_bind; [|intros _; apply appends_get_stats].
  apply appends_try_finally; [by apply appends_batch_loop|by apply appends_finalize].
Qed.

End appends.

(** * Tasks in flight *)

Lemma in_flight_app t1 t2 : in_flight (t1 ++ t2) = in_flight t1 + in_flight t2.
Proof. induction t1 as [|ev t1 IH]; simpl; [done|]. rewrite IH. lia. Qed.

Lemma in_flight_uniform (d : Z) (t : list Event) :
  Forall (λ ev, flight_delta ev = d) t → in_flight t = d * Z.of_nat (length t).
Proof.
  induction 1 as [|ev t Hev _ IH]; simpl; [lia|]. rewrite IH, Hev. lia.
Qed.

Lemma flight_bounded_nil limit : 0 ≤ limit → flight_bounded limit [].
Proof.
  intros Hl. split; [done|]. intros p ->%prefix_nil_inv. simpl. lia.
Qed.

Lemma flight_bounded_app limit t1 t2 :
  flight_bounded limit t1 → flight_bounded limit t2 → flight_bounded limit (t1 ++ t2).
Proof.
  intros [H1 Hp1] [H2 Hp2]. split; [rewrite in_flight_app; lia|].
  intros p Hp.
  destruct (prefix_weak_total p t1 (t1 ++ t2) Hp (prefix_app_r t1 t1 t2 (reflexivity _)))
    as [Hpt|[q ->]]; [by apply Hp1|].
  apply prefix_app_inv in Hp. rewrite in_flight_app, H1. apply Hp2 in Hp. lia.
Qed.

Lemma flight_bounded_quiet limit ev :
  0 ≤ limit → flight_delta ev = 0 → flight_bounded limit [ev].
Proof.
  intros Hl Hev. split; [simpl; lia|].
  intros p [k Hk]. destruct p as [|ev' p]; simpl; [lia|].
  injection Hk as <- Hk. symmetry in Hk. apply app_eq_nil in Hk as [-> _].
  simpl. lia.
Qed.

Lemma length_omap_lookup {A B} (f : A → B) (l : list A) (ks : list nat) :
  Forall (λ k, (k < length l)%nat) ks →
  length (omap (λ k, f <$> l !! k) ks) = length ks.
Proof.
  induction 1 as [|k ks Hk _ IH]; [done|]. csimpl.
  destruct (lookup_lt_is_Some_2 l k Hk) as [x ->]. simpl. by rewrite IH.
Qed.

Lemma length_gather_done (w : World) (tasks : list (string * string)) :
  length (omap (λ k, (λ t, EvDone t.2) <$> tasks !! k) (completion_order w tasks))
  = length tasks.
Proof.
  pose proof (completion_order_perm w tasks) as Hperm.
  rewrite length_omap_lookup.
  - by rewrite Hperm, length_seq.
  - rewrite Hperm. apply Forall_forall. intros k Hk%elem_of_seq. lia.
Qed.

Lemma flight_bounded_gather limit (w : World) (tasks : list (string * string)) :
  Z.of_nat (length tasks) ≤ limit → flight_bounded limit (gather_events w tasks).
Proof.
  intros Hlen. unfold gather_events.
  set (A := (λ t : string * string, EvArun t.1 t.2) <$> tasks).
  set (D := omap _ _).
  assert (Forall (λ ev, flight_delta ev = 1) A) as HA.
  { apply Forall_fmap, Forall_true. by intros [??]. }
  assert (Forall (λ ev, flight_delta ev = -1) D) as HD.
  { apply Forall_forall. intros ev (k & _ & Hk)%list_elem_of_omap.
    destruct (tasks !! k); simplify_eq/=. done. }
  assert (length A = length tasks) as HlA by apply length_fmap.
  assert (length D = length tasks) as HlD by apply length_gather_done.
  split.
  - rewrite in_flight_app, (in_flight_uniform 1 A), (in_flight_uniform (-1) D) by done.
    lia.
  - intros p Hp.
    destruct (prefix_weak_total p A (A ++ D) Hp (prefix_app_r A A D (reflexivity _)))
      as [[k Hk]|[q ->]].
    + rewrite (in_flight_uniform 1 p).
      * assert (length A = length p + length k)%nat by (by rewrite Hk, length_app). lia.
      * rewrite Hk in HA. by apply Forall_app in HA as [? _].
    + apply prefix_app_inv in Hp. pose proof (prefix_length _ _ Hp) as Hq.
      destruct Hp as [k Hk].
      rewrite in_flight_app, (in_flight_uniform 1 A), (in_flight_uniform (-1) q); [lia|..|done].
      rewrite Hk in HD. by apply Forall_app in HD as [? _].
Qed.

Lemma length_batch_at {A} (urls : list A) (C i : Z) :
  0 < C → Z.of_nat (length (batch_at urls C i)) ≤ C.
Proof.
  intros HC. unfold batch_at, Py.slice, Py.clamp, Py.len.
  rewrite length_take. set (n := Z.of_nat (length urls)).
  assert (0 ≤ n) by lia.
  etrans; [apply inj_le, Nat.le_min_l|].
  destruct (Z.ltb_spec i 0), (Z.ltb_spec (i + C) 0); lia.
Qed.

Lemma flight_bounded_still limit t :
  0 ≤ limit → Forall (λ ev, flight_delta ev = 0) t → flight_bounded limit t.
Proof.
  intros Hl. induction 1 as [|ev t Hev _ IH]; [by apply flight_bounded_nil|].
  apply (flight_bounded_app limit [ev] t); [by apply flight_bounded_quiet|done].
Qed.

Lemma logs_still t :
  Forall (λ ev, ∃ lvl msg, ev = EvLog lvl msg) t → Forall (λ ev, flight_delta ev = 0) t.
Proof. intros Ht. eapply Forall_impl; [done|]. by intros ev (lvl & msg & ->). Qed.

Lemma run_flight_bounded w urls C :
  0 < C → flight_bounded C (trace (run_crawl_parallel w urls C).2).
Proof.
  intros HC.
  destruct (appends_crawl_parallel (flight_bounded C)) with (w := w) (urls := urls)
    (C := C) (s := initial_state w) as (t & Ht & HQ).
  - apply flight_bounded_nil. lia.
  - apply flight_bounded_app.
  - intros. apply flight_bounded_quiet; [lia|done].
  - intros. apply flight_bounded_quiet; [lia|done].
  - apply flight_bounded_quiet; [lia|done].
  - apply flight_bounded_quiet; [lia|done].
  - intros. apply flight_bounded_gather.
    rewrite length_batch_tasks. by apply length_batch_at.
  - unfold run_crawl_parallel. by rewrite Ht.
Qed.

(** X1: with a positive limit [C], at every point of a run of
    [crawl_parallel] the number of tasks handed to the engine and not yet
    ended is between [0] and [C], and none is left in flight when the run
    is over, however it ends. *)
Theorem in_flight_at_most_max_concurrent (w : World) (urls : list string) (C : Z) :
  0 < C →
  let tr := trace (run_crawl_parallel w urls C).2 in
  (∀ p, p `prefix_of` tr → 0 ≤ in_flight p ≤ C) ∧ in_flight tr = 0.
Proof.
  intros HC tr.
  destruct (appends_crawl_parallel (flight_bounded C)) with (w := w) (urls := urls)
    (C := C) (s := initial_state w) as (t & Ht & HQ & Hp).
  - apply flight_bounded_nil. lia.
  - apply flight_bounded_app.
  - intros. apply flight_bounded_quiet; [lia|done].
  - intros. apply flight_bounded_quiet; [lia|done].
  - apply flight_bounded_quiet; [lia|done].
  - apply flight_bounded_quiet; [lia|done].
  - intros. apply flight_bounded_gather.
    rewrite length_batch_tasks. by apply length_batch_at.
  - subst tr. unfold run_crawl_parallel. rewrite Ht. simpl. done.
Qed.

(** X1 at a run of three urls, two at a time. *)
Lemma in_flight_at_most_max_concurrent_witness :
  let tr := trace (run_crawl_parallel (make_world None demo_arun None no_write_fault)
                     ["a"; "bad"; "b"] 2).2 in
  0 ≤ in_flight (take 5 tr) ≤ 2 ∧ in_flight tr = 0.
Proof.
  intros tr.
  destruct (in_flight_at_most_max_concurrent
              (make_world None demo_arun None no_write_fault) ["a"; "bad"; "b"] 2 eq_refl)
    as [Hp Hend].
  split; [|exact Hend]. apply Hp. apply prefix_take.
Defined.

(** * The engine between start and close *)

Lemma snd_try_finally {A} (m : M A) (fin : M unit) s :
  (try_finally m fin s).2 = (fin (m s).2).2.
Proof.
  unfold try_finally. destruct (m s) as [r s1]. simpl.
  by destruct (fin s1) as [[[]|e] s2].
Qed.

Lemma snd_bind {A B} (m : M A) (f : A → M B) s :
  ((m ≫= f) s).2
  = match (m s).1 with
    | Ok a => (f a (m s).2).2
    | Raise _ => (m s).2
    end.
Proof. unfold mbind, M_bind. by destruct (m s) as [[a|e] s1]. Qed.

Lemma Forall_appends_crawl_loop (P : Event → Prop) w urls C :
  (∀ lvl msg, P (EvLog lvl msg)) → (∀ n c, P (EvWrite n c)) →
  (∀ u sid, P (EvArun u sid)) → (∀ sid, P (EvDone sid)) →
  appends (Forall P) (batch_loop w urls C).
Proof.
  intros Hlog Hwrite Harun Hdone.
  apply appends_batch_loop.
  - apply Forall_nil_2.
  - apply Forall_app_2.
  - intros. by apply Forall_singleton.
  - intros. by apply Forall_singleton.
  - intros num i. unfold gather_events. apply Forall_app_2.
    + apply Forall_fmap, Forall_true. intros [??]. apply Harun.
    + apply Forall_forall. intros ev (k & _ & Hk)%list_elem_of_omap.
      destruct (_ !! k); simplify_eq/=. apply Hdone.
Qed.

(** X2: in every run, [crawler.start()] is the first call on the engine
    and is made once; everything the batches do, with every [arun] and
    every completion, comes before the [finally] block, which makes no
    [arun]; [close] is only called in that block; and when the start
    raises, nothing follows it. *)
Theorem engine_used_between_start_and_close (w : World) (urls : list string) (C : Z) :
  ∃ line t1 t2,
    trace (run_crawl_parallel w urls C).2 = [EvLog INFO line; EvStart] ++ t1 ++ t2
    ∧ Forall (λ ev, is_start ev = false ∧ is_close ev = false) t1
    ∧ Forall (λ ev, is_start ev = false ∧ is_arun ev = false ∧ is_done ev = false) t2
    ∧ (engine_start w ≠ None → t1 = [] ∧ t2 = []).
Proof.
  eexists. destruct (engine_start w) as [e|] eqn:Hstart.
  { exists [], []. rewrite (run_start_fails w urls C e Hstart). simpl.
    by repeat split. }
  rewrite (run_started w urls C Hstart).
  pose proof (snd_try_finally (batch_loop w urls C) (finalize w urls)
                (started_state w urls C)) as Hsnd.
  destruct (try_finally _ _ _) as [[a|e] s2]; simpl in Hsnd; subst s2; simpl.
  all: destruct (Forall_appends_crawl_loop
                    (λ ev, is_start ev = false ∧ is_close ev = false) w urls C)
         with (s := started_state w urls C) as (t1 & Ht1 & HQ1); try done.
  all: destruct (appends_finalize
         (Forall (λ ev, is_start ev = false ∧ is_arun ev = false ∧ is_done ev = false)))
         with (w := w) (urls := urls) (s := (batch_loop w urls C (started_state w urls C)).2)
         as (t2 & Ht2 & HQ2);
    auto using Forall_nil_2, Forall_app_2; try (by intros; apply Forall_singleton).
  all: exists t1, t2; rewrite Ht2, Ht1; simpl; by repeat split.
Qed.

(** * The calls of arun *)

Lemma arun_calls_app t1 t2 : arun_calls (t1 ++ t2) = arun_calls t1 ++ arun_calls t2.
Proof. apply omap_app. Qed.

Lemma arun_calls_gather_events w tasks : arun_calls (gather_events w tasks) = tasks.
Proof.
  unfold gather_events. rewrite arun_calls_app. unfold arun_calls at 2.
  rewrite omap_done_nil, app_nil_r by done.
  induction tasks as [|[u sid] tasks IH]; [done|]. csimpl. by rewrite IH.
Qed.

Lemma dispatched_arun_calls tr : dispatched tr = (arun_calls tr).*1.
Proof.
  induction tr as [|ev tr IH]; [done|].
  destruct ev; csimpl; by rewrite ?IH.
Qed.

Lemma no_arun_app t1 t2 : no_arun t1 → no_arun t2 → no_arun (t1 ++ t2).
Proof. unfold no_arun. intros H1 H2. by rewrite arun_calls_app, H1, H2. Qed.

Lemma record_loop_calls w items s :
  arun_calls (trace (for_each items (λ '(url, o), record_result w url o) s).2)
  = arun_calls (trace s).
Proof.
  destruct (appends_for_each no_arun eq_refl no_arun_app items
              (λ '(url, o), record_result w url o)) with (s := s) as (t & -> & Ht).
  - intros [url o] _. apply appends_record_result; first [done|apply no_arun_app].
  - by rewrite arun_calls_app, Ht, app_nil_r.
Qed.

Lemma record_result_counted w url o s :
  counted s ≤ counted (record_result w url o s).2 ≤ counted s + 1.
Proof.
  destruct (recordable o) eqn:Hrec.
  - destruct (record_result_advances w url o s Hrec) as (Hs & Hf & _).
    unfold counted. rewrite Hs, Hf. simpl. unfold Py.len. simpl. lia.
  - destruct (record_result_unrecordable w url o s Hrec) as (e & _ & _ & ->).
    simpl. lia.
Qed.

Lemma record_loop_counted w items s :
  let s' := (for_each items (λ '(url, o), record_result w url o) s).2 in
  counted s ≤ counted s' ≤ counted s + Py.len items.
Proof.
  revert s. induction items as [|[url o] items IH]; intros s; simpl.
  { unfold Py.len. simpl. lia. }
  rewrite snd_bind. pose proof (record_result_counted w url o s) as H1.
  destruct (record_result w url o s) as [[[]|e] s1]; simpl in *.
  - specialize (IH s1). simpl in IH. unfold Py.len in *. simpl. lia.
  - unfold Py.len. simpl. lia.
Qed.

Lemma collect_batch_calls w batch tasks s :
  let s' := (collect_batch w batch tasks s).2 in
  arun_calls (trace s') = arun_calls (trace s) ++ tasks
  ∧ counted s ≤ counted s' ≤ counted s + Py.len batch.
Proof.
  unfold collect_batch. simpl. rewrite (bind_ok _ _ _ _ _ (gather_eq w tasks s)).
  split.
  - rewrite record_loop_calls. simpl.
    by rewrite arun_calls_app, arun_calls_gather_events.
  - pose proof (record_loop_counted w (zip batch (task_outcome w <$> tasks))
                  (add_trace (gather_events w tasks) s)) as H.
    simpl in H. unfold Py.len in *.
    pose proof (length_zip_with pair batch (task_outcome w <$> tasks)).
    change (counted (add_trace (gather_events w tasks) s)) with (counted s) in H.
    lia.
Qed.

Lemma batch_step_calls w urls C batch_num batch s :
  let s' := (batch_step w urls C batch_num batch s).2 in
  arun_calls (trace s') = arun_calls (trace s) ++ batch_tasks batch_num batch
  ∧ counted s ≤ counted s' ≤ counted s + Py.len batch.
Proof.
  unfold batch_step. simpl.
  destruct (take_snapshot_spec w (batch_label urls C batch_num) s)
    as (m & s1 & Hsnap & _ & _ & _ & _ & Hsc & Hfc & _ & _ & Ht).
  rewrite (bind_ok _ _ _ _ _ Hsnap), snd_bind.
  destruct (collect_batch_calls w batch (batch_tasks batch_num batch) s1) as [Hc Hn].
  assert (counted s1 = counted s) as Hcs by (unfold counted; by rewrite Hsc, Hfc).
  assert (arun_calls (trace s1) = arun_calls (trace s)) as Has.
  { by rewrite Ht, arun_calls_app, app_nil_r. }
  rewrite Hcs in Hn. rewrite Has in Hc.
  destruct (collect_batch w batch _ s1) as [[[]|e] s2]; simpl in *; [|done].
  rewrite arun_calls_app. simpl. rewrite app_nil_r. done.
Qed.

(** A loop whose body adds [g x] to an observation [f] of the state,
    however it ends, has added the parts of the items it got to. *)
Lemma for_each_prefix {A B} (f : State → list B) (g : A → list B)
    (l : list A) (body : A → M unit) s :
  (∀ x s, x ∈ l → f (body x s).2 = f s ++ g x) →
  ∃ k, (k ≤ length l)%nat
       ∧ f (for_each l body s).2 = f s ++ concat (g <$> take k l)
       ∧ ((for_each l body s).1 = Ok tt → k = length l).
Proof.
  revert s. induction l as [|x l IH]; intros s Hb; simpl.
  { exists 0%nat. by rewrite app_nil_r. }
  unfold mbind, M_bind. pose proof (Hb x s ltac:(left)) as Hx.
  destruct (body x s) as [[[]|e] s1]; simpl in *.
  - destruct (IH s1) as (k & Hk & Hf & Hok).
    { intros y s' Hy. apply Hb. by right. }
    exists (S k). split; [lia|]. simpl. rewrite Hf, Hx, <- (assoc_L (++)).
    split; [done|]. intros Hr. by rewrite Hok.
  - exists 1%nat. split; [lia|]. simpl.
    by rewrite app_nil_r.
Qed.

Lemma take_chunks {A} (c n k : nat) (l : list A) :
  (k ≤ n)%nat → take k (chunks c n l) = chunks c k l.
Proof.
  intros Hk. unfold chunks. by rewrite <- fmap_take, take_seq, Nat.min_l.
Qed.

Lemma take_enumerate {A} (start : Z) (k : nat) (l : list A) :
  take k (Py.enumerate start l) = Py.enumerate start (take k l).
Proof.
  revert start k. induction l as [|x l IH]; intros start [|k]; try done.
  rewrite enumerate_cons. simpl take. by rewrite enumerate_cons, IH.
Qed.

Lemma take_imap {A B} (f : nat → A → B) (k : nat) (l : list A) :
  take k (imap f l) = imap f (take k l).
Proof.
  revert f k. induction l as [|x l IH]; intros f [|k]; simpl; try done.
  by rewrite IH.
Qed.

Lemma concat_batch_tasks_chunks (c k : nat) (urls : list string) :
  (0 < c)%nat →
  concat ((λ '(num, batch), batch_tasks num batch) <$> Py.enumerate 1 (chunks c k urls))
  = take (k * c) (run_tasks c urls).
Proof.
  intros Hc. unfold run_tasks. rewrite take_imap.
  rewrite <- (concat_imap_chunks
                (λ k j url, (url, session_id (Z.of_nat k + 1) (Z.of_nat j)))) by done.
  f_equal. unfold Py.enumerate. rewrite fmap_imap. apply imap_ext.
  intros j batch _. simpl. rewrite batch_tasks_imap.
  apply imap_ext. intros i url _. simpl. do 2 f_equal. lia.
Qed.

Lemma batch_loop_calls w urls C s :
  0 < C →
  let c := Z.to_nat C in
  let s' := (batch_loop w urls C s).2 in
  (∃ k : nat, arun_calls (trace s') = arun_calls (trace s) ++ take (k * c) (run_tasks c urls))
  ∧ ((batch_loop w urls C s).1 = Ok tt →
     arun_calls (trace s') = arun_calls (trace s) ++ run_tasks c urls)
  ∧ counted s' - counted s
    ≤ Py.len (arun_calls (trace s')) - Py.len (arun_calls (trace s)).
Proof.
  intros HC c s'. subst s'. rewrite batch_loop_batches, batches_pos by done.
  destruct (batch_total_nat urls C HC) as ((Hc & Hn & _) & _).
  fold c in Hc, Hn |- *. set (n := Z.to_nat (batch_total urls C)) in *.
  set (body := λ '(num, batch), batch_step w urls C num batch).
  split; [|split].
  - destruct (for_each_prefix (arun_calls ∘ trace)
                (λ '(num, batch), batch_tasks num batch)
                (Py.enumerate 1 (chunks c n urls)) body s) as (k & Hk & Hf & _).
    { intros [num batch] s0 _. apply batch_step_calls. }
    exists k. simpl in Hf. rewrite Hf. f_equal.
    rewrite take_enumerate, take_chunks.
    + by apply concat_batch_tasks_chunks.
    + unfold Py.enumerate in Hk. by rewrite length_imap, length_chunks in Hk.
  - intros Hok.
    destruct (for_each_prefix (arun_calls ∘ trace)
                (λ '(num, batch), batch_tasks num batch)
                (Py.enumerate 1 (chunks c n urls)) body s) as (k & Hk & Hf & Hall).
    { intros [num batch] s0 _. apply batch_step_calls. }
    simpl in Hf. rewrite Hf, (Hall Hok), firstn_all. f_equal.
    rewrite concat_batch_tasks_chunks by done.
    apply take_ge. unfold run_tasks. by rewrite length_imap.
  - generalize (Py.enumerate 1 (chunks c n urls)). intros bl. revert s.
    induction bl as [|[num batch] bl IH]; intros s; simpl; [lia|].
    rewrite snd_bind. change (body (num, batch)) with (batch_step w urls C num batch).
    destruct (batch_step_calls w urls C num batch s) as [Hcalls Hcount].
    simpl in Hcalls, Hcount.
    assert (Py.len (arun_calls (trace (batch_step w urls C num batch s).2))
            = Py.len (arun_calls (trace s)) + Py.len batch) as Hlen.
    { rewrite Hcalls. unfold Py.len. rewrite length_app, length_batch_tasks. lia. }
    destruct (batch_step w urls C num batch s) as [[[]|e] s1]; simpl in *; [|lia].
    specialize (IH s1). lia.
Qed.

Lemma free_of_app c (a b : string) : free_of c a → free_of c b → free_of c (a +:+ b).
Proof.
  intros Ha Hb. induction a as [|ch a IH]; [done|].
  rewrite app_String. destruct Ha as [Hch Ha]. split; auto.
Qed.

Lemma free_of_pretty_N_go c (x : N) (s : string) :
  (∀ d, pretty_N_char d ≠ c) → free_of c s → free_of c (pretty_N_go x s).
Proof.
  intros Hc. revert s. induction (N.lt_wf_0 x) as [x _ IH]; intros s Hs.
  assert (x = 0 ∨ 0 < x)%N as [->|Hx] by lia; [by rewrite pretty_N_go_0|].
  rewrite pretty_N_go_step by done. apply IH; [by apply N.div_lt|].
  split; [apply Hc|done].
Qed.

Lemma free_of_str (z : Z) : free_of underscore (Py.str z).
Proof.
  assert (∀ d, pretty_N_char d ≠ underscore) as Hd.
  { intros d. unfold pretty_N_char. by repeat case_match. }
  assert (∀ p, free_of underscore (pretty (N.pos p))) as Hp.
  { intros p. unfold pretty, pretty_N. rewrite decide_False by done.
    by apply free_of_pretty_N_go. }
  unfold Py.str, pretty, pretty_Z. destruct z as [|p|p].
  - by split.
  - apply Hp.
  - apply free_of_app; [by split|apply Hp].
Qed.

Lemma free_of_split c (a a' b b' : string) :
  free_of c a → free_of c a' →
  a +:+ String c b = a' +:+ String c b' → a = a' ∧ b = b'.
Proof.
  revert a'. induction a as [|ch a IH]; intros [|ch' a'] Ha Ha';
    rewrite ?app_String, ?app_empty; intros Heq.
  - by injection Heq.
  - injection Heq as <- _. by destruct Ha' as [? _].
  - injection Heq as -> _. by destruct Ha as [? _].
  - injection Heq as -> Heq. destruct Ha as [_ Ha], Ha' as [_ Ha'].
    destruct (IH a' Ha Ha' Heq) as [-> ->]. done.
Qed.

Lemma session_id_inj a b a' b' :
  session_id a b = session_id a' b' → a = a' ∧ b = b'.
Proof.
  unfold session_id. intros Heq.
  apply (inj (String.app "session_")) in Heq.
  change ("_" +:+ Py.str b) with (String underscore (Py.str b)) in Heq.
  change ("_" +:+ Py.str b') with (String underscore (Py.str b')) in Heq.
  apply free_of_split in Heq as [Ha Hb]; [|apply free_of_str..].
  split; by apply (inj pretty).
Qed.

Lemma NoDup_run_sessions (c : nat) (urls : list string) :
  (0 < c)%nat → NoDup (run_tasks c urls).*2.
Proof.
  intros Hc. unfold run_tasks. rewrite fmap_imap.
  rewrite (imap_ext _ (λ g _, session_id (Z.of_nat (g `div` c) + 1)
                                          (Z.of_nat (g `mod` c))) urls) by done.
  rewrite imap_seq_0. apply NoDup_fmap_2_strong; [|apply NoDup_seq].
  intros g g' _ _ [Hd Hm]%session_id_inj.
  rewrite (Nat.div_mod_eq g c), (Nat.div_mod_eq g' c). lia.
Qed.

Lemma finalize_calls w urls s :
  arun_calls (trace (finalize w urls s).2) = arun_calls (trace s)
  ∧ counted (finalize w urls s).2 = counted s.
Proof.
  split.
  - destruct (appends_finalize no_arun eq_refl no_arun_app)
      with (w := w) (urls := urls) (s := s) as (t & -> & Ht); try done.
    by rewrite arun_calls_app, Ht, app_nil_r.
  - destruct (engine_close w) as [e|] eqn:Hclose.
    + by rewrite (finalize_close_fails w urls e s Hclose).
    + destruct (finalize_close_ok w urls s Hclose) as (m & s2 & Hsnap & ->).
      destruct (take_snapshot_spec w "Final stats" (add_trace closing s))
        as (m' & s2' & Heq & _ & _ & _ & _ & Hsc & Hfc & _).
      rewrite Hsnap in Heq. injection Heq as <- <-.
      unfold counted. simpl. by rewrite Hsc, Hfc.
Qed.

Lemma run_state w urls C :
  (run_crawl_parallel w urls C).2
  = match engine_start w with
    | Some _ => started_state w urls C
    | None => (finalize w urls (batch_loop w urls C (started_state w urls C)).2).2
    end.
Proof.
  destruct (engine_start w) as [e|] eqn:Hstart.
  - by rewrite (run_start_fails w urls C e Hstart).
  - rewrite (run_started w urls C Hstart), <- snd_try_finally.
    by destruct (try_finally _ _ _) as [[a|e] s2].
Qed.

Lemma run_tasks_urls c urls : (run_tasks c urls).*1 = urls.
Proof.
  unfold run_tasks. rewrite fmap_imap.
  rewrite (imap_ext _ (λ _ url, url) urls) by done.
  induction urls as [|u urls IH]; [done|]. simpl. f_equal.
  etrans; [|exact IH]. by apply imap_ext.
Qed.

Lemma run_calls w urls C :
  0 < C →
  let c := Z.to_nat C in
  let run := run_crawl_parallel w urls C in
  (∃ k : nat, arun_calls (trace run.2) = take (k * c) (run_tasks c urls))
  ∧ (∀ st, run.1 = Ok st → arun_calls (trace run.2) = run_tasks c urls)
  ∧ counted run.2 ≤ Py.len (arun_calls (trace run.2)).
Proof.
  intros HC c run. subst run. rewrite run_state.
  destruct (engine_start w) as [e|] eqn:Hstart.
  { rewrite (run_start_fails w urls C e Hstart). simpl.
    split; [by exists 0%nat|]. split; [done|]. unfold counted, Py.len. simpl. lia. }
  destruct (finalize_calls w urls (batch_loop w urls C (started_state w urls C)).2)
    as [-> ->].
  destruct (batch_loop_calls w urls C (started_state w urls C) HC)
    as ((k & Hk) & Hall & Hcount).
  simpl in Hk, Hall, Hcount. split; [by exists k|]. split.
  - intros st Hst. apply Hall.
    destruct (run_crawl_parallel w urls C) as [r s] eqn:Hrun. simpl in Hst. subst r.
    destruct (run_completed w urls C st s Hrun) as (s1 & m & _ & _ & Hloop & _).
    by rewrite Hloop.
  - change (counted (started_state w urls C)) with 0 in Hcount.
    unfold Py.len in *. simpl in Hcount. lia.
Qed.

(** The loop has nothing to do for an empty list or a negative limit, and
    [range] refuses a limit of zero before the first batch. *)
Lemma batch_loop_no_batch w urls C s :
  urls = [] ∨ C ≤ 0 →
  batch_loop w urls C s
  = (if decide (C = 0)
     then Raise (mkExn "ValueError" "range() arg 3 must not be zero")
     else Ok tt, s).
Proof.
  intros Hidle. unfold batch_loop, batch_starts, Py.range.
  destruct (Z.eqb_spec C 0) as [->|HC]; [done|].
  rewrite decide_False by done.
  assert (Py.range_length 0 (Py.len urls) C = 0) as ->; [|done].
  unfold Py.range_length, Py.len.
  destruct Hidle as [->|HC']; simpl.
  - by destruct (0 <? C).
  - destruct (Z.ltb_spec 0 C); [lia|].
    destruct (Z.ltb_spec (Z.of_nat (length urls)) 0); [lia|done].
Qed.

(** * The batches of a run *)

(** C1: for a positive limit [C], [crawl_parallel] cuts the url list into
    consecutive batches of [C] urls, the last one possibly shorter, and its
    loop handles them one after the other, numbered from 1: every step of
    the loop hands the urls of its batch, and no other, to the engine, so a
    call that returns has handed over the batches in order, each url with
    the session id of its batch and of its place in the batch.  The number
    of batches is the ceiling of [L / C] (the least [n] with [L <= n * C],
    which is also the total the log prints); and every url is in exactly one
    batch, at the place its position in the list gives it. *)
Theorem crawl_parallel_batches (w : World) (urls : list string) (C : Z) :
  0 < C →
  let c := Z.to_nat C in
  ∃ bs,
    batches urls C = Ok bs
    ∧ (∀ s, batch_loop w urls C s
            = for_each (Py.enumerate 1 bs)
                       (λ '(num, batch), batch_step w urls C num batch) s)
    ∧ (∀ num batch s,
         let s' := (batch_step w urls C num batch s).2 in
         arun_calls (trace s') = arun_calls (trace s) ++ batch_tasks num batch
         ∧ dispatched (trace s') = dispatched (trace s) ++ batch)
    ∧ (∀ st s, run_crawl_parallel w urls C = (Ok st, s) →
         arun_calls (trace s)
         = concat ((λ '(num, batch), batch_tasks num batch) <$> Py.enumerate 1 bs)
         ∧ dispatched (trace s) = concat bs)
    ∧ concat bs = urls
    ∧ Py.len urls ≤ Py.len bs * C
    ∧ (∀ m : Z, Py.len urls ≤ m * C → Py.len bs ≤ m)
    ∧ Py.len bs = batch_total urls C
    ∧ (∀ k b, bs !! k = Some b →
         b = take c (drop (k * c) urls)
         ∧ (0 < length b ≤ c)%nat
         ∧ (S k < length bs → length b = c)%nat)
    ∧ (∀ g u, urls !! g = Some u →
         ∃ b, bs !! (g `div` c)%nat = Some b ∧ b !! (g `mod` c)%nat = Some u)
    ∧ (∀ k j b u, bs !! k = Some b → b !! j = Some u →
         (j < c)%nat ∧ urls !! (k * c + j)%nat = Some u).
Proof.
  intros HC c.
  destruct (batch_total_nat urls C HC) as ((Hc & Hn & Hne & Hnil) & HnZ).
  fold c in Hc, Hn, Hne, Hnil.
  set (n := Z.to_nat (batch_total urls C)) in *.
  exists (chunks c n urls). split; [by apply batches_pos|].
  assert (Py.len (chunks c n urls) = batch_total urls C) as Hlen.
  { unfold Py.len. by rewrite length_chunks. }
  assert (concat (chunks c n urls) = urls) as Hcat.
  { rewrite concat_chunks. by apply take_ge. }
  split; [|split; [|split; [|split; [done|split; [|split; [|split; [done|split; [|split]]]]]]]].
  - intros s. by rewrite batch_loop_batches, batches_pos.
  - intros num batch s s'. subst s'.
    destruct (batch_step_calls w urls C num batch s) as [Hcalls _].
    simpl in Hcalls. split; [done|].
    by rewrite !dispatched_arun_calls, Hcalls, fmap_app, batch_tasks_urls.
  - intros st s Hrun.
    destruct (run_calls w urls C HC) as (_ & Hall & _).
    rewrite Hrun in Hall. simpl in Hall. specialize (Hall st eq_refl).
    split.
    + rewrite Hall. fold c. rewrite concat_batch_tasks_chunks by done.
      symmetry. apply take_ge. unfold run_tasks. by rewrite length_imap.
    + by rewrite dispatched_arun_calls, Hall, run_tasks_urls, Hcat.
  - rewrite Hlen, <- HnZ. unfold Py.len. nia.
  - intros m Hm. rewrite Hlen, <- HnZ.
    destruct (decide (urls = [])) as [Hu|Hu]; [rewrite (Hnil Hu) in *|].
    + subst urls. unfold Py.len in Hm. simpl in *. nia.
    + destruct (Hne Hu) as [Hpos Hlast]. unfold Py.len in Hm. nia.
  - intros k b Hb.
    assert (k < n)%nat as Hk.
    { apply lookup_lt_Some in Hb. by rewrite length_chunks in Hb. }
    split.
    + rewrite lookup_chunks in Hb by done. by injection Hb.
    + rewrite length_chunks. eapply chunks_length_full; [done| |done].
      destruct (decide (urls = [])) as [Hu|Hu]; [rewrite (Hnil Hu) in Hk; lia|].
      by apply Hne.
  - intros g u Hg. by apply chunks_lookup_item.
  - intros k j b u. apply chunks_lookup_pos.
Qed.

(** C1 at five urls and a limit of two: three batches, sizes 2, 2 and 1,
    handed to the engine in that order. *)
Lemma crawl_parallel_batches_witness :
  let w := make_world None demo_arun None no_write_fault in
  ∃ bs, batches ["a"; "b"; "c"; "d"; "e"] 2 = Ok bs
        ∧ concat bs = ["a"; "b"; "c"; "d"; "e"] ∧ Py.len bs = 3
        ∧ ∀ s, batch_loop w ["a"; "b"; "c"; "d"; "e"] 2 s
               = for_each (Py.enumerate 1 bs)
                   (λ '(num, batch),
                      batch_step w ["a"; "b"; "c"; "d"; "e"] 2 num batch) s.
Proof.
  intros w.
  destruct (crawl_parallel_batches w ["a"; "b"; "c"; "d"; "e"] 2 ltac:(lia))
    as (bs & Hbs & Hloop & _ & _ & Hcat & _ & _ & Htot & _).
  exists bs. split; [exact Hbs|]. split; [exact Hcat|]. split; [exact Htot|exact Hloop].
Defined.

(** X3: no two calls of [crawler.arun] of a run are given the same
    session id, whatever the limit and however the run ends. *)
Theorem session_ids_never_reused (w : World) (urls : list string) (C : Z) :
  NoDup (arun_calls (trace (run_crawl_parallel w urls C).2)).*2.
Proof.
  destruct (Z.lt_ge_cases 0 C) as [HC|HC].
  - destruct (run_calls w urls C HC) as ((k & ->) & _).
    rewrite fmap_take. eapply sublist_NoDup; [|apply sublist_take].
    apply NoDup_run_sessions. lia.
  - rewrite run_state. destruct (engine_start w); [apply NoDup_nil_2|].
    destruct (finalize_calls w urls (batch_loop w urls C (started_state w urls C)).2)
      as [-> _].
    rewrite batch_loop_no_batch by auto. apply NoDup_nil_2.
Qed.

(** X4: with a positive limit [C], however a run ends, the urls handed
    to the engine are a prefix of the url list made of whole batches, each
    url with the session id its position gives it; the results counted in
    [success_count] and [fail_count] are never more than the urls handed
    over; and a run that returns has handed over every url. *)
Theorem dispatch_follows_the_batches (w : World) (urls : list string) (C : Z) :
  0 < C →
  let c := Z.to_nat C in
  let run := run_crawl_parallel w urls C in
  ∃ k : nat,
    arun_calls (trace run.2) = take (k * c) (run_tasks c urls)
    ∧ dispatched (trace run.2) = take (k * c) urls
    ∧ success_count (stats run.2) + fail_count (stats run.2)
      ≤ Py.len (dispatched (trace run.2))
    ∧ (∀ st, run.1 = Ok st → arun_calls (trace run.2) = run_tasks c urls).
Proof.
  intros HC c run. destruct (run_calls w urls C HC) as ((k & Hk) & Hall & Hcount).
  exists k. fold run c in Hk, Hall, Hcount.
  assert (dispatched (trace run.2) = take (k * c) urls) as Hd.
  { by rewrite dispatched_arun_calls, Hk, fmap_take, run_tasks_urls. }
  repeat split; try done.
  rewrite dispatched_arun_calls. unfold Py.len in *. rewrite length_fmap. apply Hcount.
Qed.

(** X4 at a run that a failing page write stops. *)
Lemma dispatch_follows_the_batches_witness :
  ∃ k : nat,
    dispatched
      (trace (run_crawl_parallel (make_world None demo_arun None page_1_fault)
                ["a"; "b"; "c"; "d"; "e"] 2).2)
    = take (k * 2) ["a"; "b"; "c"; "d"; "e"].
Proof.
  destruct (dispatch_follows_the_batches
              (make_world None demo_arun None page_1_fault)
              ["a"; "b"; "c"; "d"; "e"] 2 ltac:(lia)) as (k & _ & Hd & _).
  by exists k.
Defined.

(** X5: for an empty url list, or a limit that is not positive, the
    loop runs no batch: once the crawler has started and if it closes, no
    url is handed to the engine, both counters stay at zero, one snapshot is
    taken and only [summary.txt] is written.  With a limit of zero the call
    then raises the [ValueError] of [range] (also for an empty list);
    otherwise it returns, unless writing the summary raises. *)
Theorem run_without_batches (w : World) (urls : list string) (C : Z) :
  urls = [] ∨ C ≤ 0 →
  engine_start w = None → engine_close w = None →
  let run := run_crawl_parallel w urls C in
  ∃ m,
    stats run.2
    = {| success_count := 0; fail_count := 0; errors := []; memory_stats := [m] |}
    ∧ dispatched (trace run.2) = []
    ∧ writes (trace run.2) = [("summary.txt", summary urls (stats run.2) m)]
    ∧ run.1 = match fs_write w "summary.txt" (summary urls (stats run.2) m) with
              | Some e => Raise e
              | None =>
                  if decide (C = 0)
                  then Raise (mkExn "ValueError" "range() arg 3 must not be zero")
                  else Ok (stats run.2)
              end.
Proof.
  intros Hidle Hstart Hclose run.
  pose proof (run_after_loop w urls C _ _ Hstart
                (batch_loop_no_batch w urls C (started_state w urls C) Hidle)) as Hrun.
  rewrite Hclose in Hrun. destruct Hrun as (m & s2 & Hsnap & Hrun).
  exists m. subst run. rewrite Hrun.
  destruct (take_snapshot_spec w "Final stats"
              (add_trace closing (started_state w urls C)))
    as (m' & s2' & Heq & _ & _ & _ & Hmem & Hsc & Hfc & Herr & _ & Ht).
  rewrite Hsnap in Heq. injection Heq as <- <-.
  simpl in *. split; [|split; [|split]].
  - destruct (stats s2). simpl in *. by subst.
  - by rewrite Ht.
  - by rewrite Ht.
  - destruct (fs_write w _ _); [done|]. by destruct (decide (C = 0)).
Qed.

(** X5 at a limit of zero. *)
Lemma run_without_batches_witness :
  (run_crawl_parallel (make_world None demo_arun None no_write_fault) ["a"; "b"] 0).1
  = Raise (mkExn "ValueError" "range() arg 3 must not be zero").
Proof.
  destruct (run_without_batches (make_world None demo_arun None no_write_fault)
              ["a"; "b"] 0) as (m & _ & _ & _ & Hr); [right; lia|done|done|].
  exact Hr.
Defined.

(** * What ends a run *)



Section raises_only.
Context (w : World) (items : list (string * Outcome)).
















End raises_only.







(** * The snapshots and the readings *)

Section run_invariant.
Context (w : World) (I : State → Prop).
Hypothesis I_event : ∀ ev s, I s → I (add_trace [ev] s).
Hypothesis I_stats : ∀ f, keeps_memory f → invariant I (modify_stats f).
Hypothesis I_snapshot : ∀ prefix, invariant I (take_snapshot w prefix).

Lemma invariant_finalize urls : invariant I (finalize w urls).
Proof.
  unfold finalize, log.
  apply invariant_bind; [intros s Hs; by apply I_event|intros _].
  apply invariant_bind; [intros s Hs; by apply I_event|intros _].
  apply invariant_bind; [apply invariant_lift_call|intros _].
  apply invariant_bind; [apply I_snapshot|intros m].
  apply invariant_bind; [apply invariant_get_stats|intros st].
  apply invariant_write_text. intros ev s _. apply I_event.
Qed.

Lemma invariant_crawl_parallel urls C : invariant I (crawl_parallel w urls C).
Proof.
  unfold crawl_parallel, log.
  apply invariant_bind; [intros s Hs; by apply I_event|intros _].
  apply invariant_bind; [intros s Hs; by apply I_event|intros _].
  apply invariant_bind; [apply invariant_lift_call|intros _].
  apply invariant_bind; [|intros _; apply invariant_get_stats].
  apply invariant_try_finally; [|apply invariant_finalize].
  apply invariant_batch_loop; [|done..].
  intros ev s _. apply I_event.
Qed.

End run_invariant.

Lemma peak_after_spec w k :
  0 ≤ peak_after w k
  ∧ (∀ i, (i < k)%nat → rss (proc_sample w i) ≤ peak_after w k)
  ∧ (peak_after w k = 0 ∨ ∃ i, (i < k)%nat ∧ peak_after w k = rss (proc_sample w i)).
Proof.
  induction k as [|k (Hpos & Hub & Hwit)]; simpl.
  { split; [lia|]. split; [lia|by left]. }
  split; [lia|]. split.
  - intros i Hi. destruct (decide (i = k)) as [->|]; [lia|].
    specialize (Hub i ltac:(lia)). lia.
  - destruct (Z.max_spec (peak_after w k) (rss (proc_sample w k))) as [[_ ->]|[_ ->]].
    + right. exists k. split; [lia|done].
    + destruct Hwit as [?|(i & Hi & ?)]; [by left|]. right. exists i. split; [lia|done].
Qed.

Lemma tracker_ok_snapshot w prefix : invariant (tracker_ok w) (take_snapshot w prefix).
Proof.
  intros s [Htr Hmem].
  assert (update_peak (memory_tracker s) (rss (proc_sample w (readings s)))
          = {| peak_memory := peak_after w (S (readings s));
               start_time := proc_created w |}) as Hup.
  { rewrite Htr. unfold update_peak. simpl.
    destruct (Z.ltb_spec (peak_after w (readings s)) (rss (proc_sample w (readings s))));
      f_equal; lia. }
  unfold tracker_ok, take_snapshot, log_memory, mbind, M_bind, modify_stats,
    update_stats, append_memory, mret, M_ret.
  cbn [snd fst memory_tracker readings stats memory_stats].
  rewrite Hup, Hmem, seq_S, fmap_app. done.
Qed.

Lemma tracker_ok_run w urls C : tracker_ok w (run_crawl_parallel w urls C).2.
Proof.
  apply (invariant_crawl_parallel w (tracker_ok w)).
  - by intros ev s [??].
  - intros f Hf s [Htr Hmem]. split; [done|]. simpl. by rewrite Hf.
  - apply tracker_ok_snapshot.
  - done.
Qed.

(** X7: in every run the [k]-th snapshot of [memory_stats] is made of
    the [k]-th reading of the process alone: [current_mb] is its [rss] in
    whole megabytes, [elapsed_time] is measured from the creation of the
    tracker, and [peak_mb] is the peak after [k + 1] readings in whole
    megabytes, where the peak is at least every [rss] read so far, at least
    [0], and is one of them or [0]. *)
Theorem snapshots_follow_the_readings (w : World) (urls : list string) (C : Z) :
  let snaps := memory_stats (stats (run_crawl_parallel w urls C).2) in
  (∀ k m, snaps !! k = Some m →
     let p := proc_sample w k in
     current_mb m = rss p / MiB
     ∧ peak_mb m = peak_after w (S k) / MiB
     ∧ cpu_percent m = cpu p
     ∧ elapsed_time m = str_timedelta w (now p - proc_created w))
  ∧ (∀ k, 0 ≤ peak_after w k
          ∧ (∀ i, (i < k)%nat → rss (proc_sample w i) ≤ peak_after w k)
          ∧ (peak_after w k = 0
             ∨ ∃ i, (i < k)%nat ∧ peak_after w k = rss (proc_sample w i))).
Proof.
  intros snaps. split; [|apply peak_after_spec].
  destruct (tracker_ok_run w urls C) as [_ Hmem]. subst snaps. rewrite Hmem.
  intros k m Hk. apply list_lookup_fmap_Some in Hk as (i & -> & Hi).
  apply lookup_seq in Hi as [-> _]. done.
Qed.

Lemma batch_step_readings w urls C batch_num batch s :
  readings (batch_step w urls C batch_num batch s).2 = S (readings s).
Proof.
  unfold batch_step.
  destruct (take_snapshot_spec w (batch_label urls C batch_num) s)
    as (m & s1 & Hsnap & _ & _ & _ & _ & _ & _ & _ & Hr & _).
  rewrite (bind_ok _ _ _ _ _ Hsnap), <- Hr.
  apply (invariant_bind (λ s', readings s' = readings s1)); [| |done].
  - apply invariant_collect_batch; [by intros|]. by intros f _ s' Hs'.
  - intros _. apply invariant_log_progress. by intros.
Qed.

Lemma batch_steps_readings w urls C (bl : list (Z * list string)) s :
  let run := for_each bl (λ '(num, batch), batch_step w urls C num batch) s in
  (readings run.2 ≤ readings s + length bl)%nat
  ∧ (run.1 = Ok tt → readings run.2 = (readings s + length bl)%nat).
Proof.
  revert s. induction bl as [|[num batch] bl IH]; intros s; simpl.
  { split; [lia|]. intros _. lia. }
  pose proof (batch_step_readings w urls C num batch s) as Hstep.
  unfold mbind, M_bind.
  destruct (batch_step w urls C num batch s) as [[[]|e] s1]; simpl in *.
  - destruct (IH s1) as [Hle Heq]. simpl in *. rewrite Hstep in Hle, Heq.
    split; [lia|]. intros Hok. rewrite (Heq Hok). lia.
  - split; [lia|done].
Qed.

(** X8: with a positive limit, a run records at most one snapshot per
    batch and one final snapshot, and a run that returns records exactly
    that many: the batch total of the log prefix plus one. *)
Theorem one_snapshot_per_batch_and_a_final_one
    (w : World) (urls : list string) (C : Z) :
  0 < C →
  let run := run_crawl_parallel w urls C in
  Py.len (memory_stats (stats run.2)) ≤ batch_total urls C + 1
  ∧ (∀ st, run.1 = Ok st → Py.len (memory_stats st) = batch_total urls C + 1).
Proof.
  intros HC run.
  destruct (batch_total_nat urls C HC) as (_ & Hn).
  set (n := Z.to_nat (batch_total urls C)) in *.
  destruct (tracker_ok_run w urls C) as [_ Hmem]. fold run in Hmem.
  assert (Py.len (memory_stats (stats run.2)) = Z.of_nat (readings run.2)) as Hlen.
  { unfold Py.len. by rewrite Hmem, length_fmap, length_seq. }
  assert (∀ s0, let loop := batch_loop w urls C s0 in
                (readings loop.2 ≤ readings s0 + n)%nat
                ∧ (loop.1 = Ok tt → readings loop.2 = (readings s0 + n)%nat)) as Hloop.
  { intros s0. simpl. rewrite batch_loop_batches, batches_pos by done.
    pose proof (batch_steps_readings w urls C
                  (Py.enumerate 1 (chunks (Z.to_nat C) n urls)) s0) as H.
    unfold Py.enumerate in H. by rewrite length_imap, length_chunks in H. }
  assert (∀ s1, (readings (finalize w urls s1).2 ≤ S (readings s1))%nat
                ∧ ((finalize w urls s1).1 = Ok tt
                   → readings (finalize w urls s1).2 = S (readings s1))) as Hfin.
  { intros s1. destruct (engine_close w) as [e|] eqn:Hclose.
    - rewrite (finalize_close_fails w urls e s1 Hclose). simpl. split; [lia|done].
    - destruct (finalize_close_ok w urls s1 Hclose) as (m & s2 & Hsnap & ->).
      destruct (take_snapshot_spec w "Final stats" (add_trace closing s1))
        as (m' & s2' & Heq & _ & _ & _ & _ & _ & _ & _ & Hr & _).
      rewrite Hsnap in Heq. injection Heq as <- <-. simpl in *. rewrite Hr.
      split; [lia|done]. }
  rewrite Hlen. subst run. rewrite run_state.
  destruct (engine_start w) as [e|] eqn:Hstart.
  { rewrite (run_start_fails w urls C e Hstart). simpl. split; [lia|done]. }
  destruct (Hloop (started_state w urls C)) as [Hle Heq]. simpl in Hle, Heq.
  destruct (Hfin (batch_loop w urls C (started_state w urls C)).2) as [Hle' Heq'].
  split; [lia|].
  intros st Hst.
  destruct (run_crawl_parallel w urls C) as [r s] eqn:Hrun. simpl in Hst. subst r.
  destruct (run_completed w urls C st s Hrun)
    as (s1 & m & _ & _ & Hl & _ & _ & _ & _ & _ & Hm & _).
  rewrite Hl in Heq. simpl in Heq. specialize (Heq eq_refl).
  pose proof (invariant_batch_loop w (tracker_ok w)) as Hinv.
  destruct (Hinv ltac:(by intros ev s0 _ [??])
                 ltac:(intros f Hf s0 [Htr Hmem0]; split; [done|]; simpl; by rewrite Hf)
                 (tracker_ok_snapshot w) urls C (started_state w urls C)) as [_ Hmem1];
    [done|].
  rewrite Hl in Hmem1. simpl in Hmem1.
  unfold Py.len. rewrite Hm, length_app, Hmem1, length_fmap, length_seq, Heq. simpl. lia.
Qed.

(** X8 at five urls, two at a time. *)
Lemma one_snapshot_per_batch_and_a_final_one_witness :
  let urls := ["a"; "b"; "c"; "d"; "e"] in
  let run := run_crawl_parallel (make_world None demo_arun None no_write_fault) urls 2 in
  Py.len (memory_stats (stats run.2)) ≤ batch_total urls 2 + 1.
Proof.
  exact (proj1 (one_snapshot_per_batch_and_a_final_one
                  (make_world None demo_arun None no_write_fault)
                  ["a"; "b"; "c"; "d"; "e"] 2 eq_refl)).
Defined.

(** * The error histogram *)

Lemma count_kind_cons kind o outs :
  count_kind kind (o :: outs)
  = (if raised_as kind o then 1 else 0) + count_kind kind outs.
Proof.
  unfold count_kind. rewrite filter_cons.
  destruct (raised_as kind o); case_decide; try done; simpl; lia.
Qed.

Lemma histogram_from_get k d outs :
  dict_get k (histogram_from d outs) 0 = dict_get k d 0 + count_kind k outs.
Proof.
  revert d. induction outs as [|o outs IH]; intros d.
  { unfold count_kind. simpl. lia. }
  rewrite count_kind_cons. unfold histogram_from in *. simpl. rewrite IH.
  destruct o as [e|r]; simpl; [|lia].
  case_bool_decide as Hk.
  - subst k. rewrite dict_get_set_eq. lia.
  - rewrite dict_get_set_ne by done. lia.
Qed.

Lemma histogram_from_total d outs :
  dict_total (histogram_from d outs) = dict_total d + count_raised outs.
Proof.
  revert d. induction outs as [|o outs IH]; intros d.
  { unfold count_raised. simpl. lia. }
  change (o :: outs) with ([o] ++ outs).
  rewrite count_raised_app. unfold histogram_from in *. simpl. rewrite IH.
  destruct o as [e|r]; simpl.
  - rewrite dict_total_set. change (count_raised [Raised e]) with 1. lia.
  - change (count_raised [Returned r]) with 0. lia.
Qed.

Lemma dict_set_keys k v d :
  (dict_set k v d).*1 = if decide (k ∈ d.*1) then d.*1 else d.*1 ++ [k].
Proof.
  induction d as [|[k' v'] d IH]; [done|]. csimpl.
  destruct (decide (k = k')) as [->|Hne]; csimpl.
  - rewrite decide_True; [done|left].
  - rewrite IH. destruct (decide (k ∈ d.*1)) as [Hin|Hin].
    + rewrite decide_True; [done|by right].
    + rewrite decide_False; [done|]. by intros [?|?]%elem_of_cons.
Qed.

Lemma dict_get_elem k d :
  Forall (λ kv, 0 < kv.2) d → (k ∈ d.*1 ↔ 0 < dict_get k d 0).
Proof.
  induction 1 as [|[k' v'] d Hv _ IH]; simpl.
  { split; [by intros ?%elem_of_nil|lia]. }
  destruct (decide (k = k')) as [->|Hne].
  - split; [done|]. intros _. left.
  - rewrite <- IH. split; [by intros [?|?]%elem_of_cons|by right].
Qed.

Lemma dict_set_ok k v d : 0 < v → histogram_ok d → histogram_ok (dict_set k v d).
Proof.
  intros Hv [Hnd Hpos]. split.
  - rewrite dict_set_keys. case_decide; [done|].
    apply NoDup_app. split; [done|]. split; [|apply NoDup_singleton].
    intros x Hx ->%list_elem_of_singleton. done.
  - clear Hnd. induction Hpos as [|[k' v'] d Hv' Hd IH]; simpl.
    + by apply Forall_singleton.
    + case_decide; constructor; auto.
Qed.

Lemma histogram_from_ok d outs :
  histogram_ok d → histogram_ok (histogram_from d outs).
Proof.
  revert d. induction outs as [|o outs IH]; intros d Hd; [done|].
  unfold histogram_from in *. simpl. apply IH.
  destruct o as [e|r]; [|done]. apply dict_set_ok; [|done].
  destruct Hd as [_ Hpos].
  assert (0 ≤ dict_get (type_name e) d 0); [|lia].
  clear -Hpos. induction Hpos as [|[k' v'] d Hv' _ IH]; simpl; [lia|].
  case_decide; simpl in *; lia.
Qed.

(** X9: in a run that returns, the keys of [stats["errors"]] are
    distinct, the count of a kind is the number of urls whose task raised an
    exception of that class, a kind is a key exactly when it occurred, the
    counts add up to the number of exceptions, and [fail_count] is that
    number plus the number of unsuccessful results. *)
Theorem histogram_counts_each_kind (w : World) (urls : list string) (C : Z)
    (st : Stats) (s : State) :
  0 < C →
  run_crawl_parallel w urls C = (Ok st, s) →
  let outs := item_outcomes w (Z.to_nat C) urls in
  NoDup (errors st).*1
  ∧ (∀ kind, dict_get kind (errors st) 0 = count_kind kind outs)
  ∧ (∀ kind, kind ∈ (errors st).*1 ↔ 0 < count_kind kind outs)
  ∧ dict_total (errors st) = count_raised outs
  ∧ fail_count st = dict_total (errors st) + count_no_content outs.
Proof.
  intros HC Hrun outs.
  destruct (run_completed_pos w urls C st s HC Hrun) as (m & _ & Hf & He & _).
  fold outs in Hf, He.
  assert (histogram_ok (errors st)) as [Hnd Hpos].
  { rewrite He. apply histogram_from_ok. split; [apply NoDup_nil_2|done]. }
  assert (∀ kind, dict_get kind (errors st) 0 = count_kind kind outs) as Hget.
  { intros kind. by rewrite He, histogram_from_get. }
  assert (dict_total (errors st) = count_raised outs) as Htot.
  { by rewrite He, histogram_from_total. }
  split; [done|]. split; [done|]. split; [|split; [done|]].
  - intros kind. by rewrite dict_get_elem, Hget.
  - rewrite Hf, Htot, <- count_partition. unfold Py.len, outs.
    by rewrite length_item_outcomes.
Qed.

(** X9 at a run with two timeouts. *)
Lemma histogram_counts_each_kind_witness :
  let run := run_crawl_parallel (make_world None demo_arun None no_write_fault)
                                ["bad"; "a"; "bad"] 2 in
  dict_get "TimeoutError" (errors (stats run.2)) 0 = 2.
Proof.
  intros run.
  assert (run = (Ok (stats run.2), run.2)) as Hrun by (vm_compute; reflexivity).
  exact (proj1 (proj2 (histogram_counts_each_kind _ _ 2 _ _ eq_refl Hrun)) "TimeoutError").
Defined.

(** * The names of the pages *)

Lemma string_length_app (a b : string) :
  String.length (a +:+ b) = (String.length a + String.length b)%nat.
Proof. induction a as [|ch a IH]; [done|]. rewrite app_String. simpl. by rewrite IH. Qed.

Lemma string_app_inj_r (a b s : string) : a +:+ s = b +:+ s → a = b.
Proof.
  revert b. induction a as [|ch a IH]; intros [|ch' b] Heq.
  - done.
  - apply (f_equal String.length) in Heq.
    rewrite !string_length_app in Heq. simpl in Heq. lia.
  - apply (f_equal String.length) in Heq.
    rewrite !string_length_app in Heq. simpl in Heq. lia.
  - rewrite !app_String in Heq. injection Heq as -> Heq. f_equal. by apply IH.
Qed.

Lemma page_name_inj a b : page_name a = page_name b → a = b.
Proof.
  unfold page_name. intros Heq.
  apply (inj (String.app "page_")) in Heq.
  apply string_app_inj_r in Heq. by apply (inj pretty).
Qed.

Lemma count_ok_cons o outs :
  count_ok (o :: outs) = (if counts_as_success o then 1 else 0) + count_ok outs.
Proof. by rewrite <- count_ok_single, <- count_ok_app. Qed.

Lemma count_ok_nonneg outs : 0 ≤ count_ok outs.
Proof. unfold count_ok. lia. Qed.

Lemma pages_from_names n outs :
  Forall (λ name, ∃ k, n < k ≤ n + count_ok outs ∧ name = page_name k)
         (pages_from n outs).*1.
Proof.
  revert n. induction outs as [|o outs IH]; intros n; simpl; [done|].
  rewrite count_ok_cons. pose proof (count_ok_nonneg outs) as Hpos.
  assert (∀ m, n ≤ m → m + count_ok outs ≤ n + (if counts_as_success o then 1 else 0)
                                             + count_ok outs →
          Forall (λ name, ∃ k, n < k ≤ n + ((if counts_as_success o then 1 else 0)
                                             + count_ok outs)
                               ∧ name = page_name k) (pages_from m outs).*1) as Hnext.
  { intros m Hm Hm'. eapply Forall_impl; [apply IH|].
    intros name (k & Hk & ->). exists k. split; [lia|done]. }
  destruct o as [e|r]; simpl in *; [apply Hnext; lia|].
  destruct (success r); [|apply Hnext; lia].
  destruct (truthy (markdown r)) as [md|]; [|apply Hnext; lia].
  csimpl. constructor; [|apply Hnext; lia]. exists (n + 1). split; [lia|done].
Qed.

Lemma pages_from_NoDup n outs : NoDup (pages_from n outs).*1.
Proof.
  revert n. induction outs as [|o outs IH]; intros n; simpl; [apply NoDup_nil_2|].
  destruct o as [e|r]; [apply IH|].
  destruct (success r); [|apply IH].
  destruct (truthy (markdown r)) as [md|]; [|apply IH].
  csimpl. apply NoDup_cons. split; [|apply IH].
  intros Hin. pose proof (pages_from_names (n + 1) outs) as Hall.
  rewrite Forall_forall in Hall. destruct (Hall _ Hin) as (k & Hk & Heq).
  apply page_name_inj in Heq. lia.
Qed.

Lemma page_name_not_summary k : page_name k ≠ "summary.txt".
Proof. unfold page_name. by rewrite !app_String. Qed.

(** X10: in a run that returns, the files written have distinct names:
    no page overwrites another one, every page is [page_k.md] for a [k]
    between [1] and [success_count], and [summary.txt] is written last. *)
Theorem no_page_is_overwritten (w : World) (urls : list string) (C : Z)
    (st : Stats) (s : State) :
  0 < C →
  run_crawl_parallel w urls C = (Ok st, s) →
  let names := (writes (trace s)).*1 in
  NoDup names
  ∧ last names = Some "summary.txt"
  ∧ ∀ name, name ∈ names →
      name = "summary.txt" ∨ ∃ k, 0 < k ≤ success_count st ∧ name = page_name k.
Proof.
  intros HC Hrun names.
  destruct (run_completed_pos w urls C st s HC Hrun) as (m & Hs & _ & _ & _ & _ & Hw & _).
  subst names. rewrite Hw, <- pages_from_page_writes, fmap_app. simpl.
  pose proof (pages_from_names 0 (item_outcomes w (Z.to_nat C) urls)) as Hall.
  rewrite Forall_forall in Hall.
  split; [|split].
  - apply NoDup_app. split; [apply pages_from_NoDup|]. split; [|apply NoDup_singleton].
    intros name Hin ->%list_elem_of_singleton.
    destruct (Hall _ Hin) as (k & _ & Heq). by apply (page_name_not_summary k).
  - by rewrite last_snoc.
  - intros name [Hin|Hin]%elem_of_app;
      [|left; by apply list_elem_of_singleton in Hin].
    right. destruct (Hall _ Hin) as (k & Hk & ->). exists k. split; [|done].
    rewrite Hs. lia.
Qed.

(** X10 at a run with a successful result that has no markdown. *)
Lemma no_page_is_overwritten_witness :
  let run := run_crawl_parallel (make_world None demo_arun None no_write_fault)
                                ["a"; "empty"; "b"] 2 in
  NoDup (writes (trace run.2)).*1.
Proof.
  intros run.
  assert (run = (Ok (stats run.2), run.2)) as Hrun by (vm_compute; reflexivity).
  exact (proj1 (no_page_is_overwritten _ _ 2 _ _ eq_refl Hrun)).
Defined.

(** * The progress line *)

Lemma batch_step_last w urls C batch_num batch s s' :
  batch_step w urls C batch_num batch s = (Ok tt, s') →
  last (trace s') = Some (EvLog INFO (progress_line urls (stats s'))).
Proof.
  unfold batch_step. intros Hstep.
  apply bind_ok_inv in Hstep as (m & s1 & _ & Hstep).
  apply bind_ok_inv in Hstep as ([] & s2 & _ & Hstep).
  unfold log_progress, get_stats, log, emit, mbind, M_bind in Hstep.
  injection Hstep as <-. simpl. by rewrite last_snoc.
Qed.

Lemma batch_steps_last w urls C (bl : list (Z * list string)) s s' :
  bl ≠ [] →
  for_each bl (λ '(num, batch), batch_step w urls C num batch) s = (Ok tt, s') →
  last (trace s') = Some (EvLog INFO (progress_line urls (stats s'))).
Proof.
  revert s. induction bl as [|[num batch] bl IH]; intros s Hne Hloop; [done|].
  simpl in Hloop. apply bind_ok_inv in Hloop as ([] & s1 & Hstep & Hloop).
  destruct bl as [|b bl].
  - simpl in Hloop. injection Hloop as <-. by eapply batch_step_last.
  - by apply (IH s1).
Qed.

(** X11: in a run with a positive limit that returns for a non-empty
    list, the last thing the batches log is the progress line, it reports
    every url as processed, with the counters the caller gets, and the
    [finally] block follows it directly.  (With a negative limit no batch
    runs and no progress line is logged.) *)
Theorem last_progress_line_counts_every_url (w : World) (urls : list string) (C : Z)
    (st : Stats) (s : State) :
  0 < C → urls ≠ [] →
  run_crawl_parallel w urls C = (Ok st, s) →
  ∃ before m,
    trace s
    = before
      ++ [EvLog INFO ("Progress: " +:+ Py.str (Py.len urls) +:+ "/"
                      +:+ Py.str (Py.len urls) +:+ " URLs processed ("
                      +:+ Py.str (success_count st) +:+ " successful, "
                      +:+ Py.str (fail_count st) +:+ " failed)");
          EvLog INFO "Closing crawler..."; EvClose;
          EvLog INFO (memory_line "Final stats" m);
          EvWrite "summary.txt" (summary urls st m)].
Proof.
  intros HC Hne Hrun.
  destruct (run_completed w urls C st s Hrun)
    as (s1 & m & _ & _ & Hloop & _ & _ & Hs & Hf & _ & _ & Ht).
  destruct (run_completed_pos w urls C st s HC Hrun) as (_ & Hs' & Hf' & _).
  rewrite batch_loop_batches, batches_pos in Hloop by done.
  destruct (batch_total_nat urls C HC) as ((_ & _ & Hn & _) & _).
  destruct (Hn Hne) as [Hpos _].
  apply batch_steps_last in Hloop.
  - destruct (trace s1) as [|ev t] eqn:Ht1 using rev_ind; [done|].
    rewrite last_snoc in Hloop. injection Hloop as ->.
    exists t, m. rewrite Ht, <- (assoc_L (++)). f_equal. simpl. do 2 f_equal.
    unfold progress_line. rewrite <- Hs, <- Hf.
    replace (success_count st + fail_count st) with (Py.len urls) by lia. done.
  - intros Hnil. apply (f_equal length) in Hnil.
    unfold Py.enumerate in Hnil. rewrite length_imap, length_chunks in Hnil.
    simpl in Hnil. lia.
Qed.

(** X11 at a run of three urls, one of which raises. *)
Lemma last_progress_line_counts_every_url_witness :
  let run := run_crawl_parallel (make_world None demo_arun None no_write_fault)
                                ["a"; "bad"; "b"] 2 in
  ∃ before m,
    trace run.2
    = before
      ++ [EvLog INFO ("Progress: " +:+ Py.str (Py.len ["a"; "bad"; "b"]) +:+ "/"
                      +:+ Py.str (Py.len ["a"; "bad"; "b"]) +:+ " URLs processed ("
                      +:+ Py.str (success_count (stats run.2)) +:+ " successful, "
                      +:+ Py.str (fail_count (stats run.2)) +:+ " failed)");
          EvLog INFO "Closing crawler..."; EvClose;
          EvLog INFO (memory_line "Final stats" m);
          EvWrite "summary.txt" (summary ["a"; "bad"; "b"] (stats run.2) m)].
Proof.
  intros run.
  assert (run = (Ok (stats run.2), run.2)) as Hrun by (vm_compute; reflexivity).
  exact (last_progress_line_counts_every_url
           (make_world None demo_arun None no_write_fault)
           ["a"; "bad"; "b"] 2 (stats run.2) run.2 eq_refl ltac:(discriminate) Hrun).
Defined.

(** * The order of completion *)

Lemma same_but_order_add_trace t t' s s' :
  without_done t = without_done t' → t ≡ₚ t' →
  same_but_order s s' → same_but_order (add_trace t s) (add_trace t' s').
Proof.
  intros Hq Hp (Htr & Hr & Hst & Hw & Hperm). repeat split; simpl; try done.
  - unfold without_done in *. by rewrite !filter_app, Hw, Hq.
  - by rewrite Hperm, Hp.
Qed.

Lemma alike_ret {A} (a : A) : alike (mret a) (mret a).
Proof. by intros s s' HR. Qed.

Lemma alike_raise {A} e : alike (raise e : M A) (raise e).
Proof. by intros s s' HR. Qed.

Lemma alike_bind {A B} (m m' : M A) (f f' : A → M B) :
  alike m m' → (∀ a, alike (f a) (f' a)) → alike (m ≫= f) (m' ≫= f').
Proof.
  intros Hm Hf s s' HR. unfold mbind, M_bind.
  destruct (Hm s s' HR) as [Hres HR1].
  destruct (m s) as [[a|e] s1], (m' s') as [[a'|e'] s1']; simplify_eq/=; [|done].
  by apply Hf.
Qed.

Lemma alike_for_each {A} (l : list A) (body body' : A → M unit) :
  (∀ x, alike (body x) (body' x)) → alike (for_each l body) (for_each l body').
Proof.
  intros Hb. induction l as [|x l IH]; simpl; [apply alike_ret|].
  apply alike_bind; [apply Hb|by intros _].
Qed.

Lemma alike_try_finally {A} (m m' : M A) (fin fin' : M unit) :
  alike m m' → alike fin fin' → alike (try_finally m fin) (try_finally m' fin').
Proof.
  intros Hm Hf s s' HR. unfold try_finally.
  destruct (Hm s s' HR) as [Hres HR1].
  destruct (m s) as [r s1], (m' s') as [r' s1']. simpl in *. subst r'.
  destruct (Hf s1 s1' HR1) as [Hres2 HR2].
  by destruct (fin s1) as [[[]|e] s2], (fin' s1') as [[[]|e'] s2']; simplify_eq/=.
Qed.

Lemma alike_emit ev : alike (emit ev) (emit ev).
Proof. intros s s' HR. split; [done|]. by apply same_but_order_add_trace. Qed.

Lemma alike_lift_call o : alike (lift_call o) (lift_call o).
Proof. destruct o; [apply alike_raise|apply alike_ret]. Qed.

Lemma alike_lift_res {A} (r : Res A) : alike (lift_res r) (lift_res r).
Proof. destruct r; [apply alike_ret|apply alike_raise]. Qed.

Lemma alike_get_stats : alike get_stats get_stats.
Proof. intros s s' HR. split; [|done]. simpl. f_equal. apply HR. Qed.

Lemma alike_modify_stats f : alike (modify_stats f) (modify_stats f).
Proof.
  intros s s' (Htr & Hr & Hst & Hw & Hperm). split; [done|].
  repeat split; simpl; try done. by rewrite Hst.
Qed.

Section order.
Context (w : World) (finish : string → nat).

#[local] Abbreviation w' := (with_finish w finish).

Lemma alike_write_text name content :
  alike (write_text w name content) (write_text w' name content).
Proof.
  unfold write_text. apply alike_bind; [apply alike_emit|intros _].
  apply alike_lift_call.
Qed.

Lemma alike_log_memory prefix : alike (log_memory w prefix) (log_memory w' prefix).
Proof.
  intros s s' (Htr & Hr & Hst & Hw & Hperm). unfold log_memory. simpl.
  rewrite Htr, Hr. split; [done|]. repeat split; simpl; try done.
  - unfold without_done in *. by rewrite !filter_app, Hw.
  - by rewrite Hperm.
Qed.

Lemma alike_take_snapshot prefix :
  alike (take_snapshot w prefix) (take_snapshot w' prefix).
Proof.
  unfold take_snapshot. apply alike_bind; [apply alike_log_memory|intros m].
  apply alike_bind; [apply alike_modify_stats|intros _; apply alike_ret].
Qed.

Lemma alike_record_result url o :
  alike (record_result w url o) (record_result w' url o).
Proof.
  unfold record_result. destruct o as [e|r].
  - destruct (is_Exception e); [|apply alike_raise].
    apply alike_bind; [apply alike_modify_stats|intros _].
    apply alike_bind; [apply alike_modify_stats|intros _]. apply alike_emit.
  - destruct (success r).
    + apply alike_bind; [apply alike_modify_stats|intros _].
      destruct (truthy (markdown r)); [|apply alike_ret].
      apply alike_bind; [apply alike_get_stats|intros st]. apply alike_write_text.
    + apply alike_bind; [apply alike_modify_stats|intros _]. apply alike_emit.
Qed.

Lemma without_done_gather_events (v : World) tasks :
  without_done (gather_events v tasks) = (λ t, EvArun t.1 t.2) <$> tasks.
Proof.
  unfold gather_events, without_done. rewrite filter_app.
  assert (filter (λ ev, is_done ev = false)
            (omap (λ k, (λ t : string * string, EvDone t.2) <$> tasks !! k)
                  (completion_order v tasks)) = []) as ->.
  { induction (completion_order v tasks) as [|k ks IH]; [done|]. csimpl.
    destruct (tasks !! k); csimpl; [|done]. by rewrite filter_cons_False. }
  rewrite app_nil_r. induction tasks as [|t tasks IH]; [done|]. csimpl.
  rewrite filter_cons_True by done. by rewrite IH.
Qed.

Lemma alike_gather tasks : alike (gather w tasks) (gather w' tasks).
Proof.
  intros s s' HR. rewrite !gather_eq. split; [done|].
  apply same_but_order_add_trace; [|
    |done].
  - by rewrite !without_done_gather_events.
  - unfold gather_events. f_equiv.
    by rewrite (completion_order_perm w tasks), (completion_order_perm w' tasks).
Qed.

Lemma alike_crawl_parallel urls C :
  alike (crawl_parallel w urls C) (crawl_parallel w' urls C).
Proof.
  unfold crawl_parallel.
  apply alike_bind; [apply alike_emit|intros _].
  apply alike_bind; [apply alike_emit|intros _].
  apply alike_bind; [apply alike_lift_call|intros _].
  apply alike_bind; [|intros _; apply alike_get_stats].
  apply alike_try_finally.
  - unfold batch_loop. apply alike_bind; [apply alike_lift_res|intros starts].
    apply alike_for_each. intros [num i]. unfold batch_body, batch_step.
    apply alike_bind; [apply alike_take_snapshot|intros _].
    apply alike_bind; [|intros _].
    + unfold collect_batch. apply alike_bind; [apply alike_gather|intros results].
      apply alike_for_each. intros [url o]. apply alike_record_result.
    + unfold log_progress. apply alike_bind; [apply alike_get_stats|intros st].
      apply alike_emit.
  - unfold finalize.
    apply alike_bind; [apply alike_emit|intros _].
    apply alike_bind; [apply alike_emit|intros _].
    apply alike_bind; [apply alike_lift_call|intros _].
    apply alike_bind; [apply alike_take_snapshot|intros m].
    apply alike_bind; [apply alike_get_stats|intros st].
    apply alike_write_text.
Qed.

End order.

(** X12: the order in which the tasks of a batch end changes nothing
    but the order of the completions: the result of the call, the
    statistics, and the trace without the completion events are the same,
    and the traces are permutations of each other. *)
Theorem completion_order_changes_nothing_else
    (w : World) (finish : string → nat) (urls : list string) (C : Z) :
  let run := run_crawl_parallel w urls C in
  let run' := run_crawl_parallel (with_finish w finish) urls C in
  run'.1 = run.1
  ∧ stats run'.2 = stats run.2
  ∧ without_done (trace run'.2) = without_done (trace run.2)
  ∧ trace run'.2 ≡ₚ trace run.2.
Proof.
  intros run run'.
  destruct (alike_crawl_parallel w finish urls C (initial_state w)
              (initial_state (with_finish w finish)))
    as [Hres (_ & _ & Hst & Hw & Hp)]; [done|].
  by repeat split.
Qed.

(** * Sitemaps of the usual shape *)

Lemma iter_leaf c : children c = [] → iter c = [c].
Proof. destruct c as [t x cs]. simpl. by intros ->. Qed.

Lemma flat_map_iter_leaves cs :
  Forall (λ c, children c = []) cs → flat_map iter cs = cs.
Proof.
  induction 1 as [|c cs Hc _ IH]; [done|].
  change (flat_map iter (c :: cs)) with (iter c ++ flat_map iter cs).
  by rewrite IH, iter_leaf.
Qed.

Lemma qname_url_not_loc : qname "url" ≠ qname "loc".
Proof. unfold qname. intros Heq. by do 3 apply (inj (String.app _)) in Heq. Qed.

Lemma findall_plain_urlset root :
  plain_urlset root → findall_descendants root (qname "loc") = declared_locs root.
Proof.
  unfold plain_urlset, findall_descendants, declared_locs.
  induction 1 as [|u us [Hu Hleaves] _ IH]; [done|].
  change (flat_map iter (u :: us)) with (iter u ++ flat_map iter us).
  rewrite filter_app, IH. simpl. f_equal.
  destruct u as [t x cs]. simpl in *. rewrite flat_map_iter_leaves by done.
  rewrite filter_cons_False; [done|]. simpl. rewrite Hu. apply qname_url_not_loc.
Qed.

(** X13: for a sitemap of the usual shape, [get_sitemap_urls] returns
    exactly the text of the [loc] children of the [url] elements, in
    document order, duplicates included, and logs their number. *)
Theorem plain_sitemap_gives_every_loc (web : Web) (sitemap_url content : string)
    (root : Element) :
  http_get_text web sitemap_url = inr content →
  fromstring web content = inr root →
  plain_urlset root →
  get_sitemap_urls web sitemap_url
  = ([EvLog INFO ("Found " +:+ Py.str (Py.len (declared_locs root)) +:+ " URLs in sitemap")],
     text <$> declared_locs root).
Proof.
  intros Hget Hparse Hplain. unfold get_sitemap_urls, sitemap_try.
  rewrite Hget, Hparse, findall_plain_urlset by done.
  unfold Py.len. by rewrite length_fmap.
Qed.

(** X13 at the example sitemap. *)
Lemma plain_sitemap_gives_every_loc_witness :
  get_sitemap_urls demo_web "/sitemap.xml"
  = ([EvLog INFO "Found 3 URLs in sitemap"],
     [Some "https://x.example/a"; Some "https://x.example/b"; Some "https://x.example/a"]).
Proof.
  apply (plain_sitemap_gives_every_loc demo_web "/sitemap.xml" "<urlset/>" demo_sitemap);
    [reflexivity|reflexivity|].
  unfold plain_urlset. simpl. repeat constructor.
Defined.

(** * main *)

Lemma sitemap_log_quiet web address :
  Forall (λ ev, ∃ lvl msg, ev = EvLog lvl msg) (get_sitemap_urls web address).1.
Proof.
  unfold get_sitemap_urls.
  destruct (sitemap_try web address) as [[e|e|e]|urls]; simpl;
    apply Forall_singleton; eauto.
Qed.


Lemma main_cases web w output :
  let found := (get_sitemap_urls web sitemap_address).1 in
  let urls := (get_sitemap_urls web sitemap_address).2 in
  let run := run_crawl_parallel w (url_of_text <$> urls) 5 in
  let starting :=
    EvLog INFO ("Starting crawl of " +:+ Py.str (Py.len urls) +:+ " URLs") in
  (urls = [] ∧ main web w output
               = (found ++ [EvLog ERROR "No URLs found to crawl"], Returns))
  ∨ (urls ≠ [] ∧ ∃ st, run.1 = Ok st
       ∧ main web w output
         = (found ++ [starting] ++ trace run.2
            ++ [EvLog INFO ("Crawl completed. Success: " +:+ Py.str (success_count st)
                            +:+ ", Failed: " +:+ Py.str (fail_count st));
                EvLog INFO ("Results saved in: " +:+ output)],
            Returns))
  ∨ (urls ≠ [] ∧ ∃ e, run.1 = Raise e ∧ is_Exception e = true
       ∧ main web w output
         = (found ++ [starting] ++ trace run.2
            ++ [EvLog ERROR ("Fatal error in main: " +:+ message e)],
            SysExit 1))
  ∨ (urls ≠ [] ∧ ∃ e, run.1 = Raise e ∧ is_Exception e = false
       ∧ main web w output = (found ++ [starting] ++ trace run.2, Escapes e)).
Proof.
  intros found urls run starting. subst found urls run starting. unfold main.
  destruct (get_sitemap_urls web sitemap_address) as [found [|u urls]]; simpl.
  { by left. }
  right. destruct (run_crawl_parallel w _ 5) as [[st|e] s]; simpl.
  - left. split; [done|]. by exists st.
  - right. destruct (is_Exception e) eqn:He.
    + left. split; [done|]. by exists e.
    + right. split; [done|]. by exists e.
Qed.

Lemma run_trace_starts w urls C :
  ∃ t, trace (run_crawl_parallel w urls C).2 = trace (started_state w urls C) ++ t.
Proof.
  rewrite run_state. destruct (engine_start w).
  { exists []. by rewrite app_nil_r. }
  destruct (appends_batch_loop (λ _, True) I (λ _ _ _ _, I) w (λ _ _, I) (λ _ _, I)
              urls C (λ _ _, I) (started_state w urls C)) as (t1 & Ht1 & _).
  destruct (appends_finalize (λ _, True) I (λ _ _ _ _, I) w (λ _ _, I) (λ _ _, I)
              urls I (batch_loop w urls C (started_state w urls C)).2) as (t2 & Ht2 & _).
  exists (t1 ++ t2). by rewrite Ht2, Ht1, (assoc_L (++)).
Qed.

(** X14: when reading the sitemap fails, or the document has no
    element with the namespaced [loc] tag, [main] logs the reason, logs
    "No URLs found to crawl" and returns; and [main] calls [crawler.start()]
    exactly when [get_sitemap_urls] returned at least one url. *)
Theorem main_without_urls (web : Web) (w : World) (output : string) :
  (∀ exn, sitemap_try web sitemap_address = inl exn →
     main web w output
     = ([EvLog ERROR (sitemap_error_line exn); EvLog ERROR "No URLs found to crawl"],
        Returns))
  ∧ (∀ content root,
       http_get_text web sitemap_address = inr content →
       fromstring web content = inr root →
       Forall (λ e, tag e ≠ qname "loc") (flat_map iter (children root)) →
       main web w output
       = ([EvLog INFO "Found 0 URLs in sitemap"; EvLog ERROR "No URLs found to crawl"],
          Returns))
  ∧ (EvStart ∈ (main web w output).1 ↔ (get_sitemap_urls web sitemap_address).2 ≠ []).
Proof.
  split; [|split].
  - intros exn Hexn. unfold main, get_sitemap_urls. rewrite Hexn. by destruct exn.
  - intros content root Hget Hparse Hnone.
    unfold main, get_sitemap_urls, sitemap_try. rewrite Hget, Hparse.
    unfold findall_descendants.
    assert (filter (λ e, tag e = qname "loc") (flat_map iter (children root)) = []) as ->;
      [|done].
    induction Hnone as [|e l He _ IH]; [done|]. by rewrite filter_cons_False.
  - pose proof (sitemap_log_quiet web sitemap_address) as Hlogs.
    assert (∀ t, Forall (λ ev, ∃ lvl msg, ev = EvLog lvl msg) t → EvStart ∉ t) as Hno.
    { intros t Ht Hin. rewrite Forall_forall in Ht.
      by destruct (Ht _ Hin) as (lvl & msg & ?). }
    destruct (run_trace_starts w (url_of_text <$> (get_sitemap_urls web sitemap_address).2) 5)
      as (t & Ht).
    destruct (main_cases web w output)
      as [[Hnil ->]|[[Hne (st & _ & ->)]|[[Hne (e & _ & _ & ->)]|[Hne (e & _ & _ & ->)]]]];
      simpl.
    + split; [|done]. intros Hin. exfalso. revert Hin. apply Hno.
      apply Forall_app_2; [done|]. apply Forall_singleton. eauto.
    + split; [done|]. intros _. rewrite Ht. simpl.
      rewrite !elem_of_app, !elem_of_cons. naive_solver.
    + split; [done|]. intros _. rewrite Ht. simpl.
      rewrite !elem_of_app, !elem_of_cons. naive_solver.
    + split; [done|]. intros _. rewrite Ht. simpl.
      rewrite !elem_of_app, !elem_of_cons. naive_solver.
Qed.

(** X14 at a network that cannot connect. *)
Lemma main_without_urls_witness :
  main demo_web (make_world None demo_arun None no_write_fault) "output"
  = ([EvLog ERROR "Network error fetching sitemap: cannot connect";
      EvLog ERROR "No URLs found to crawl"], Returns).
Proof.
  exact (proj1 (main_without_urls demo_web _ "output")
               (ClientError (mkExn "ClientConnectorError" "cannot connect")) eq_refl).
Defined.










(** X16: at every point of [main], at most five tasks are in flight. *)
Theorem main_at_most_five_in_flight (web : Web) (w : World) (output : string) :
  ∀ p, p `prefix_of` (main web w output).1 → 0 ≤ in_flight p ≤ 5.
Proof.
  assert (flight_bounded 5 (main web w output).1) as [_ Hb]; [|done].
  pose proof (flight_bounded_still 5 _ ltac:(lia)
                (logs_still _ (sitemap_log_quiet web sitemap_address))) as Hfound.
  pose proof (run_flight_bounded w
                (url_of_text <$> (get_sitemap_urls web sitemap_address).2) 5 ltac:(lia))
    as Hrun.
  destruct (main_cases web w output)
    as [[_ ->]|[[_ (st & _ & ->)]|[[_ (e & _ & _ & ->)]|[_ (e & _ & _ & ->)]]]]; simpl.
  - apply flight_bounded_app; [done|]. by apply flight_bounded_quiet.
  - apply flight_bounded_app; [done|].
    apply (flight_bounded_app 5 [_]); [by apply flight_bounded_quiet|].
    apply flight_bounded_app; [done|].
    apply flight_bounded_still; [lia|]. by repeat constructor.
  - apply flight_bounded_app; [done|].
    apply (flight_bounded_app 5 [_]); [by apply flight_bounded_quiet|].
    apply flight_bounded_app; [done|]. by apply flight_bounded_quiet.
  - apply flight_bounded_app; [done|].
    by apply (flight_bounded_app 5 [_]); [apply flight_bounded_quiet|].
Qed.

(** X16 at the example sitemap. *)
Lemma main_at_most_five_in_flight_witness :
  let t := (main (main_web demo_sitemap)
                 (make_world None demo_arun None no_write_fault) "output").1 in
  0 ≤ in_flight (take 7 t) ≤ 5.
Proof.
  intros t.
  exact (main_at_most_five_in_flight (main_web demo_sitemap)
           (make_world None demo_arun None no_write_fault) "output"
           (take 7 t) (prefix_take t 7)).
Defined.

(** X17: when [main] returns after a crawl, the two counts of its
    "Crawl completed" line add up to the number of urls of the sitemap,
    every url was handed to the engine once, in sitemap order, and the
    crawler was closed once. *)
Theorem main_reports_every_url (web : Web) (w : World) (output : string) :
  let found := (get_sitemap_urls web sitemap_address).1 in
  let urls := (get_sitemap_urls web sitemap_address).2 in
  let r := main web w output in
  urls ≠ [] → r.2 = Returns →
  ∃ ok failed tr,
    ok + failed = Py.len urls
    ∧ r.1 = found
            ++ [EvLog INFO ("Starting crawl of " +:+ Py.str (Py.len urls) +:+ " URLs")]
            ++ tr
            ++ [EvLog INFO ("Crawl completed. Success: " +:+ Py.str ok
                            +:+ ", Failed: " +:+ Py.str failed);
                EvLog INFO ("Results saved in: " +:+ output)]
    ∧ dispatched tr = url_of_text <$> urls
    ∧ close_calls tr = 1%nat.
Proof.
  intros found urls r Hne Hret. subst r.
  destruct (main_cases web w output)
    as [[Hnil _]|[[_ (st & Hrun & Hm)]|[[_ (e & _ & _ & Hm)]|[_ (e & _ & _ & Hm)]]]];
    [done| |by rewrite Hm in Hret..].
  fold urls found in Hrun, Hm. rewrite Hm. simpl.
  destruct (run_crawl_parallel w (url_of_text <$> urls) 5) as [r s] eqn:Hr.
  simpl in Hrun. subst r.
  destruct (run_completed_pos w _ 5 st s ltac:(done) Hr)
    as (m & Hs & Hf & _ & _ & Hd & _).
  destruct (run_completed w _ 5 st s Hr) as (_ & _ & Hstart & _).
  exists (success_count st), (fail_count st), (trace s).
  split; [|split; [done|split; [done|]]].
  - rewrite Hs, Hf. unfold Py.len. rewrite length_fmap. lia.
  - pose proof (run_close_calls w (url_of_text <$> urls) 5 Hstart) as Hc.
    by rewrite Hr in Hc.
Qed.

(** X17 at the example sitemap. *)
Lemma main_reports_every_url_witness :
  let r := main (main_web demo_sitemap)
                (make_world None demo_arun None no_write_fault) "output" in
  ∃ ok failed, ok + failed = 3
    ∧ EvLog INFO ("Crawl completed. Success: " +:+ Py.str ok
                  +:+ ", Failed: " +:+ Py.str failed) ∈ r.1.
Proof.
  intros r.
  destruct (main_reports_every_url (main_web demo_sitemap)
              (make_world None demo_arun None no_write_fault) "output")
    as (ok & failed & tr & Hsum & Htr & _); [done|by vm_compute|].
  exists ok, failed. split; [exact Hsum|].
  subst r. rewrite Htr. rewrite !elem_of_app, !elem_of_cons. auto.
Defined.

(** * single_url.py *)

(** The events of the script by the way it goes. *)
Lemma single_url_cases (env : SingleUrl.Env) :
  let begun := [SingleUrl.Enter; SingleUrl.Log INFO "Starting to crawl...";
                SingleUrl.Arun SingleUrl.page] in
  match SingleUrl.aenter env with
  | Some e => SingleUrl.script env = SingleUrl.Enter :: SingleUrl.report e
  | None =>
      match SingleUrl.arun env with
      | SingleUrl.FetchRaised e =>
          SingleUrl.script env = begun ++ SingleUrl.ending env (Some e)
      | SingleUrl.Fetched result =>
          match result ≫= (λ r, truthy (markdown r)) with
          | Some md =>
              match SingleUrl.write env "crawled_content.md" md with
              | Some e =>
                  SingleUrl.script env
                  = begun ++ SingleUrl.Save "crawled_content.md" md
                             :: SingleUrl.ending env (Some e)
              | None =>
                  SingleUrl.script env
                  = begun ++ [SingleUrl.Save "crawled_content.md" md;
                              SingleUrl.Log INFO "Content saved to crawled_content.md"]
                    ++ SingleUrl.ending env None
              end
          | None =>
              SingleUrl.script env
              = begun ++ SingleUrl.Log WARNING "No content was retrieved"
                         :: SingleUrl.ending env None
          end
      end
  end.
Proof.
  unfold SingleUrl.script, SingleUrl.run_script, SingleUrl.main,
    SingleUrl.with_crawler, SingleUrl.body, SingleUrl.ending, SingleUrl.report,
    is_Exception.
  destruct env as [enter fetch ex wr]. simpl.
  destruct enter as [e0|]; [by destruct e0 as [[] ? ?]|].
  destruct fetch as [e|result]; simpl.
  { destruct (ex (Some e)) as [[]|e']; simpl; [done|by destruct e as [[] ? ?]|].
    by destruct e' as [[] ? ?]. }
  destruct (result ≫= _) as [md|]; simpl.
  - destruct (wr "crawled_content.md" md) as [e|]; simpl.
    + destruct (ex (Some e)) as [[]|e']; simpl; [done|by destruct e as [[] ? ?]|].
      by destruct e' as [[] ? ?].
    + destruct (ex None) as [[]|e']; simpl; [done..|]. by destruct e' as [[] ? ?].
  - destruct (ex None) as [[]|e']; simpl; [done..|]. by destruct e' as [[] ? ?].
Qed.

Lemma single_url_ending_quiet (env : SingleUrl.Env) r :
  SingleUrl.written (SingleUrl.ending env r) = []
  ∧ SingleUrl.Log INFO "Content saved to crawled_content.md" ∉ SingleUrl.ending env r.
Proof.
  unfold SingleUrl.ending, SingleUrl.report.
  destruct (SingleUrl.aexit env r) as [[]|e'], r as [e|]; simpl;
    repeat match goal with
           | |- context [exn_class ?x] => destruct (exn_class x)
           end; simpl;
    (split; [done|]); rewrite ?elem_of_cons, elem_of_nil; intuition discriminate.
Qed.

(** X18: the script of [single_url.py] writes at most one file,
    [crawled_content.md], and writes it exactly when the crawler was entered
    and the fetch returned a result with non-empty markdown, whatever its
    success flag; the file holds that markdown; and "Content saved" is
    logged exactly when that write succeeded. *)
Theorem single_url_saves_the_markdown (env : SingleUrl.Env) :
  let t := SingleUrl.script env in
  SingleUrl.written t
  = match SingleUrl.aenter env, SingleUrl.arun env with
    | None, SingleUrl.Fetched (Some r) =>
        match truthy (markdown r) with
        | Some md => [("crawled_content.md", md)]
        | None => []
        end
    | _, _ => []
    end
  ∧ (SingleUrl.Log INFO "Content saved to crawled_content.md" ∈ t ↔
       ∃ md, SingleUrl.written t = [("crawled_content.md", md)]
             ∧ SingleUrl.write env "crawled_content.md" md = None).
Proof.
  intros t. subst t. pose proof (single_url_cases env) as Hc. simpl in Hc.
  pose proof (single_url_ending_quiet env) as Hend.
  destruct (SingleUrl.aenter env) as [e0|].
  { rewrite Hc. unfold SingleUrl.report.
    destruct (exn_class e0); (split; [done|]); (split; [|by intros (md & ? & _)]);
      rewrite ?elem_of_cons, elem_of_nil; intuition discriminate. }
  destruct (SingleUrl.arun env) as [e|[r|]]; simpl in Hc.
  - rewrite Hc. destruct (Hend (Some e)) as [Hw Hn].
    set (tl := SingleUrl.ending env _) in *. clearbody tl. csimpl. rewrite Hw.
    split; [done|]. split; [|by intros (md & ? & _)].
    rewrite !elem_of_cons. intuition discriminate.
  - destruct (truthy (markdown r)) as [md|].
    + destruct (SingleUrl.write env "crawled_content.md" md) as [e|] eqn:Hwr;
        rewrite Hc.
      * destruct (Hend (Some e)) as [Hw Hn].
        set (tl := SingleUrl.ending env _) in *. clearbody tl. csimpl. rewrite Hw.
        split; [done|]. split.
        -- rewrite !elem_of_cons. intuition discriminate.
        -- intros (md' & [= <-] & Hok). by rewrite Hwr in Hok.
      * destruct (Hend None) as [Hw Hn].
        set (tl := SingleUrl.ending env _) in *. clearbody tl. csimpl. rewrite Hw.
        split; [done|]. split; [by exists md|].
        intros _. rewrite !elem_of_cons. auto 10.
    + rewrite Hc. destruct (Hend None) as [Hw Hn].
      set (tl := SingleUrl.ending env _) in *. clearbody tl. csimpl. rewrite Hw.
      split; [done|]. split; [|by intros (md & ? & _)].
      rewrite !elem_of_cons. intuition discriminate.
  - rewrite Hc. destruct (Hend None) as [Hw Hn].
    set (tl := SingleUrl.ending env _) in *. clearbody tl. csimpl. rewrite Hw.
    split; [done|]. split; [|by intros (md & ? & _)].
    rewrite !elem_of_cons. intuition discriminate.
Qed.



